(** * Akumuli in-memory cache (src/cache.cpp): Sequence, Bucket, Cache

    A shallow embedding of the three layers of [cache.cpp] and the
    properties of its specification that can be settled on it.

    Conventions of the embedding
    - [TimeStamp] (a struct wrapping a signed 64-bit [value]), [ParamId]
      and [EntryOffset] (unsigned words) are integers of [Z]; no
      arithmetic is done on them apart from the shift and the difference
      of [Cache::add_entry_], which stay far from the 64-bit range on
      the inputs used here.
    - [std::map<std::tuple<TimeStamp, ParamId>, EntryOffset>] is a list of
      (key, value) pairs kept strictly ascending by the lexicographic
      order of the key; a [const_iterator] is the position of its element
      in that list, [begin()] is 0 and [end()] is the length.
    - Dereferencing an iterator that does not designate an element, calling
      [front()] on an empty list, stepping an iterator outside its list and
      a remainder by zero are undefined behaviour in C++; the embedding
      makes them the explicit outcomes [InvalidDeref] and
      [Fail UndefinedBehaviour].
    - The cursor ([InternalCursor]) is external: the calls made on it are
      recorded, in order, as a list of [CursorEvent].
    - The mutexes of [Sequence::add] are not modelled as such; the outcome
      of the two [try_lock] calls is an input ([Env]). *)

From Stdlib Require Import ZArith List Bool Lia Sorted Permutation.
Import ListNotations.
Local Open Scope Z_scope.

(** ** Scalars, keys and status codes *)

Definition TimeStamp := Z.
Definition ParamId := Z.
Definition EntryOffset := Z.
Definition Key := (TimeStamp * ParamId)%type.

(** Modelled from the spec: [ParamId] is declared in akumuli_def.h, which is
    not part of the sources; it is an unsigned word and [(ParamId)~0] is
    its largest value, taken here for a 32-bit word. *)
Definition ParamId_max : Z := 4294967295.

Definition ParamId_ok (p : ParamId) : Prop := 0 <= p <= ParamId_max.

(** Modelled from the spec: the status codes of akumuli_def.h (success,
    write-success, bad-argument, overflow, general-failure, busy). *)
Inductive Status : Type :=
| AKU_SUCCESS
| AKU_WRITE_STATUS_SUCCESS
| AKU_EBAD_ARG
| AKU_EOVERFLOW
| AKU_EGENERAL
| AKU_EBUSY.

(** Modelled from the spec: the two direction constants of akumuli_def.h;
    [direction] itself is an integer field and may hold any value. *)
Definition AKU_CURSOR_DIR_FORWARD : Z := 0.
Definition AKU_CURSOR_DIR_BACKWARD : Z := 1.

(** Calls received by the cursor sink. *)
Inductive CursorEvent : Type :=
| Put (offset : EntryOffset)
| Complete
| SetError (code : Status).

(** How a scan ended: it returned to its caller, or it dereferenced an
    iterator that designates no element. *)
Inductive Outcome : Type :=
| Returned
| InvalidDeref.

(** ** The ordered map of a Sequence *)

Definition MapType := list (Key * EntryOffset).

(** [operator<] of [std::tuple<TimeStamp, ParamId>]. *)
Definition key_ltb (a b : Key) : bool :=
  (fst a <? fst b) || ((fst a =? fst b) && (snd a <? snd b)).

Definition key_lt (a b : Key) : Prop :=
  fst a < fst b \/ (fst a = fst b /\ snd a < snd b).

Definition entry_lt (x y : Key * EntryOffset) : Prop := key_lt (fst x) (fst y).

(** [std::map::insert]: the pair is linked at its place in key order; when
    the key is already present the map is left as it is. *)
Fixpoint map_insert (k : Key) (v : EntryOffset) (m : MapType) : MapType :=
  match m with
  | [] => [(k, v)]
  | (k', v') :: m' =>
      if key_ltb k k' then (k, v) :: m
      else if key_ltb k' k then (k', v') :: map_insert k v m'
      else m
  end.

(** [std::map::find], as an option. *)
Fixpoint map_find (k : Key) (m : MapType) : option EntryOffset :=
  match m with
  | [] => None
  | (k', v') :: m' =>
      if key_ltb k k' then None
      else if key_ltb k' k then map_find k m'
      else Some v'
  end.

(** [lower_bound(k)]: position of the first element whose key is not less
    than [k]. *)
Fixpoint lower_bound (k : Key) (m : MapType) : nat :=
  match m with
  | [] => O
  | (k', _) :: m' => if key_ltb k' k then S (lower_bound k m') else O
  end.

(** [upper_bound(k)]: position of the first element whose key is greater
    than [k]. *)
Fixpoint upper_bound (k : Key) (m : MapType) : nat :=
  match m with
  | [] => O
  | (k', _) :: m' => if key_ltb k k' then O else S (upper_bound k m')
  end.

(** ** Sequence (a shard) *)

Record Sequence : Type := mkSequence {
  capacity_ : Z;
  data_ : MapType;
  temp_ : list (TimeStamp * ParamId * EntryOffset)
}.

(** [Sequence::Sequence(size_t max_size)] *)
Definition Sequence_ctor (max_size : Z) : Sequence :=
  mkSequence max_size [] [].

(** What the environment decides for one call of [add]: the CPU the caller
    runs on and whether each [try_lock] finds its mutex free. *)
Record Env : Type := mkEnv {
  cpu : nat;
  obj_free : bool;
  tmp_free : bool
}.

(** A single caller: both locks are always free. *)
Definition uncontended (c : nat) : Env := mkEnv c true true.

(** The loop of [Sequence::add] that drains [temp_] into [data_]. *)
Definition drain (tmp : list (TimeStamp * ParamId * EntryOffset)) (m : MapType)
  : MapType :=
  fold_left (fun acc tup =>
               match tup with
               | (ts, param, off) => map_insert (ts, param) off acc
               end) tmp m.

(** [Sequence::add] *)
Definition Sequence_add (e : Env) (s : Sequence)
           (ts : TimeStamp) (param : ParamId) (offset : EntryOffset)
  : Status * Sequence :=
  let key := (ts, param) in
  if obj_free e then
    let d := if tmp_free e then drain (temp_ s) (data_ s) else data_ s in
    (AKU_WRITE_STATUS_SUCCESS,
     mkSequence (capacity_ s) (map_insert key offset d) (temp_ s))
  else
    (AKU_WRITE_STATUS_SUCCESS,
     mkSequence (capacity_ s) (data_ s) (temp_ s ++ [(ts, param, offset)])).

Record SingleParameterSearchQuery : Type := mkQuery {
  param : ParamId;
  lowerbound : TimeStamp;
  upperbound : TimeStamp;
  direction : Z
}.

(** The backward [while(true)] loop of [Sequence::search], from iterator
    position [citer]; every pass dereferences [citer] first. *)
Fixpoint backward_loop (m : MapType) (q : SingleParameterSearchQuery)
         (tskey last_ts : TimeStamp) (citer : nat)
  : list CursorEvent * Outcome :=
  match nth_error m citer with
  | None => ([], InvalidDeref)
  | Some (curr_key, off) =>
      if fst curr_key <=? last_ts then ([], Returned)
      else
        let emitted :=
          if (snd curr_key =? param q) && (fst curr_key <=? tskey)
          then [Put off] else [] in
        match citer with
        | O => (emitted, Returned)
        | S prev =>
            let (rest, o) := backward_loop m q tskey last_ts prev in
            (emitted ++ rest, o)
        end
  end.

(** The forward [while (citer != data_.end())] loop; [rest] is the part of
    the map from [citer] to [end()]. *)
Fixpoint forward_loop (q : SingleParameterSearchQuery) (last_ts : TimeStamp)
         (rest : MapType) : list CursorEvent :=
  match rest with
  | [] => []
  | (curr_key, off) :: rest' =>
      if fst curr_key >=? last_ts then []
      else
        (if snd curr_key =? param q then [Put off] else [])
          ++ forward_loop q last_ts rest'
  end.

(** [Sequence::search] *)
Definition Sequence_search (s : Sequence) (query : SingleParameterSearchQuery)
  : list CursorEvent * Outcome :=
  let forward := direction query =? AKU_CURSOR_DIR_FORWARD in
  let backward := direction query =? AKU_CURSOR_DIR_BACKWARD in
  if (upperbound query <? lowerbound query) || negb (xorb forward backward)
  then ([SetError AKU_EBAD_ARG], Returned)
  else if backward then
    let tskey := upperbound query in
    let idkey := ParamId_max in
    let citer := upper_bound (tskey, idkey) (data_ s) in
    match backward_loop (data_ s) query tskey (lowerbound query) citer with
    | (puts, Returned) => (puts ++ [Complete], Returned)
    | (puts, InvalidDeref) => (puts, InvalidDeref)
    end
  else
    let tskey := lowerbound query in
    let idkey := 0 in
    let citer := lower_bound (tskey, idkey) (data_ s) in
    (forward_loop query (upperbound query) (skipn citer (data_ s))
       ++ [Complete], Returned).

(** [Sequence::size] *)
Definition Sequence_size (s : Sequence) : nat := length (data_ s).

(** ** Results of code that can go wrong *)

Inductive Err : Type :=
| UndefinedBehaviour   (* invalid iterator, front() of an empty list, x % 0 *)
| AssertionFailed      (* an [assert] that does not hold, asserts compiled in *)
| RuntimeError         (* [throw std::runtime_error] *)
| OutOfFuel.           (* the bound given to a loop of the embedding ran out *)

Inductive Res (A : Type) : Type :=
| Ok (a : A)
| Fail (e : Err).
Arguments Ok {A} a.
Arguments Fail {A} e.

Definition bind {A B : Type} (r : Res A) (f : A -> Res B) : Res B :=
  match r with
  | Ok a => f a
  | Fail e => Fail e
  end.

Notation "x <- c1 ;; c2" := (bind c1 (fun x => c2))
  (at level 61, c1 at next level, right associativity).

(** Assignment through a pointer or reference to the [i]-th element. *)
Fixpoint list_update {A : Type} (l : list A) (i : nat) (x : A) : list A :=
  match l, i with
  | [], _ => []
  | _ :: t, O => x :: t
  | h :: t, S j => h :: list_update t j x
  end.

(** ** Bucket *)

Record Bucket : Type := mkBucket {
  seq_ : list Sequence;
  state : Z;
  baseline : Z;
  rrindex_ : Z
}.

(** [Bucket::Bucket(int n, size_t max_size, int64_t baseline)]; the
    assertion [n == NUMCPU] holds because the only caller passes the
    hardware concurrency ([bucket_size_] below). *)
Definition Bucket_ctor (n : nat) (max_size : Z) (base : Z) : Bucket :=
  mkBucket (repeat (Sequence_ctor max_size) n) 0 base 0.

(** [Bucket::add]: [aku_getcpu() % seq_.size()] selects the shard. *)
Definition Bucket_add (e : Env) (b : Bucket)
           (ts : TimeStamp) (pid : ParamId) (offset : EntryOffset)
  : Res (Status * Bucket) :=
  match length (seq_ b) with
  | O => Fail UndefinedBehaviour
  | S _ =>
      let index := Nat.modulo (cpu e) (length (seq_ b)) in
      match nth_error (seq_ b) index with
      | None => Fail UndefinedBehaviour
      | Some s =>
          let (st, s') := Sequence_add e s ts pid offset in
          Ok (st, mkBucket (list_update (seq_ b) index s')
                           (state b) (baseline b) (rrindex_ b))
      end
  end.

(** [Bucket::search]: every shard in turn, on the same cursor. *)
Fixpoint search_all (seqs : list Sequence) (q : SingleParameterSearchQuery)
  : list CursorEvent * Outcome :=
  match seqs with
  | [] => ([], Returned)
  | s :: rest =>
      match Sequence_search s q with
      | (ev, Returned) =>
          let (ev', o) := search_all rest q in (ev ++ ev', o)
      | (ev, InvalidDeref) => (ev, InvalidDeref)
      end
  end.

Definition Bucket_search (b : Bucket) (q : SingleParameterSearchQuery)
  : list CursorEvent * Outcome :=
  search_all (seq_ b) q.

(** The page ([PageHeader::read_entry]) is external: it resolves an offset
    to the (time, param_id) of the entry stored there. *)
Definition PageReader := EntryOffset -> Key.

(** [less_than(lhs, rhs, page)] on the two dereferenced map elements. *)
Definition less_than (lhs rhs : Key * EntryOffset) (page : PageReader) : bool :=
  let lkey := page (snd lhs) in
  let rkey := page (snd rhs) in
  key_ltb lkey rkey.

Section Merge.

Variable page : PageReader.
Variable seqs : list Sequence.

(** [*iter[i]] *)
Definition deref (iter : list nat) (i : nat) : Res (Key * EntryOffset) :=
  match nth_error seqs i, nth_error iter i with
  | Some s, Some it =>
      match nth_error (data_ s) it with
      | Some x => Ok x
      | None => Fail UndefinedBehaviour
      end
  | _, _ => Fail UndefinedBehaviour
  end.

(** [iter[i] != end[i]] *)
Definition not_at_end (iter : list nat) (i : nat) : bool :=
  match nth_error seqs i, nth_error iter i with
  | Some s, Some it => negb (Nat.eqb it (length (data_ s)))
  | _, _ => false
  end.

(** [std::advance(iter[i], 1)] *)
Definition advance (iter : list nat) (i : nat) : list nat :=
  match nth_error iter i with
  | Some it => list_update iter i (S it)
  | None => iter
  end.

(** One pass of the body of [for (int i = 0; i < n; i++)] on the triple
    (min, next_min, op_cnt). *)
Definition select_step (iter : list nat) (acc : Res (nat * nat * nat))
           (i : nat) : Res (nat * nat * nat) :=
  match acc with
  | Fail e => Fail e
  | Ok (min, next_min, op_cnt) =>
      if Nat.eqb i min then Ok (min, next_min, op_cnt)
      else if not_at_end iter i then
        l <- deref iter i ;;
        r <- deref iter min ;;
        if less_than l r page
        then Ok (i, min, S op_cnt)
        else Ok (min, i, S op_cnt)
      else Ok (min, next_min, op_cnt)
  end.

(** The [while(true)] loop of the branch [n > 1]. Every pass that does
    not leave the loop advances one iterator, so [fuel] above the total
    number of stored entries is never exhausted. *)
Fixpoint merge_loop (fuel : nat) (iter : list nat) (next_min : nat)
  : list CursorEvent * Res unit :=
  match fuel with
  | O => ([], Fail OutOfFuel)
  | S fuel' =>
      match fold_left (select_step iter) (seq 0 (length seqs))
                      (Ok (next_min, next_min, O)) with
      | Fail e => ([], Fail e)
      | Ok (min, next_min', op_cnt) =>
          if Nat.eqb op_cnt 0 then ([], Ok tt)
          else
            match deref iter min with
            | Fail e => ([], Fail e)
            | Ok (_, offset) =>
                let (rest, r) :=
                  merge_loop fuel' (advance iter min) next_min' in
                (Put offset :: rest, r)
            end
      end
  end.

(** The loop of the branch [n <= 1]: the whole of shard 0, in order. *)
Definition merge_single : list CursorEvent * Res unit :=
  match seqs with
  | [] => ([], Fail UndefinedBehaviour)
  | s :: _ => (map (fun kv => Put (snd kv)) (data_ s), Ok tt)
  end.

End Merge.

(** [Bucket::merge]. [ndebug] tells whether asserts are compiled out: the
    final [assert(iter == end)] compares the addresses of two distinct
    arrays and cannot hold. *)
Definition Bucket_merge (ndebug : bool) (b : Bucket) (page : PageReader)
  : list CursorEvent * Res Status :=
  if state b =? 0 then ([], Ok AKU_EBUSY)
  else if rrindex_ b =? 0 then ([], Ok AKU_SUCCESS)
  else
    let n := length (seq_ b) in
    let iter := repeat O n in
    let fuel :=
      S (fold_right (fun s acc => (Sequence_size s + acc)%nat) O (seq_ b)) in
    let (out, r) :=
      if Nat.ltb 1 n then merge_loop page (seq_ b) fuel iter O
      else merge_single (seq_ b) in
    match r with
    | Fail e => (out, Fail e)
    | Ok _ => if ndebug then (out, Ok AKU_SUCCESS)
              else (out, Fail AssertionFailed)
    end.

(** ** Cache *)

(** The compile-time constants of akumuli_def.h and the shard count that
    [cache.h] fixes at the hardware concurrency; none of them is part of
    the sources, so they are parameters of the embedding. *)
Record Config : Type := mkConfig {
  AKU_LIMITS_MAX_CACHES : Z;
  AKU_CACHE_POPULATION : Z;
  AKU_LIMITS_MIN_TTL : Z;
  bucket_size_ : nat
}.

(** [buckets_] (a [std::deque<Bucket>]) only stores the buckets; every
    bucket is linked into exactly one of [cache_] and [free_list_] from
    its creation on, so the two lists hold the buckets themselves. *)
Record Cache : Type := mkCache {
  ttl_ : Z;
  max_size_ : Z;
  baseline_ : Z;
  shift_ : Z;
  cache_ : list Bucket;
  free_list_ : list Bucket
}.

Definition with_lists (c : Cache) (active free : list Bucket) : Cache :=
  mkCache (ttl_ c) (max_size_ c) (baseline_ c) (shift_ c) active free.

Definition with_baseline (c : Cache) (b : Z) : Cache :=
  mkCache (ttl_ c) (max_size_ c) b (shift_ c) (cache_ c) (free_list_ c).

(** [cnt] times [buckets_.emplace_back(bucket_size_, max_size_, base + i)]
    followed by [free_list_.push_back]. *)
Definition fresh_buckets (cfg : Config) (max_size base : Z) (cnt : nat)
  : list Bucket :=
  map (fun i => Bucket_ctor (bucket_size_ cfg) max_size (base + Z.of_nat i))
      (seq 0 cnt).

(** [i->state++] *)
Definition retire (b : Bucket) : Bucket :=
  mkBucket (seq_ b) (state b + 1) (baseline b) (rrindex_ b).

(** [mark_last(container, n)]: [state++] on the last [n] elements. Going
    back [n] steps from [end()] leaves the list when [n] exceeds its
    length. *)
Definition mark_last (container : list Bucket) (n : Z) : Res (list Bucket) :=
  let len := Z.of_nat (length container) in
  if (0 <=? n) && (n <=? len) then
    let k := Z.to_nat (len - n) in
    Ok (firstn k container ++ map retire (skipn k container))
  else Fail UndefinedBehaviour.

(** [Cache::allocate_from_free_list].

    Modelled from the spec: the list type of [cache_] and [free_list_] is
    declared in cache.h, which is not part of the sources. The call
    [free_list_.splice(cache_.begin(), cache_, begin, end)] is taken for
    what the spec says it does: the first [nnew] buckets of the free list
    are relinked, in their order, in front of the active window, and
    [size()] is the number of linked buckets. *)
Definition Cache_allocate_from_free_list (cfg : Config) (c : Cache)
           (nnew : Z) (base : Z) : Res Cache :=
  if nnew <? 0 then Fail UndefinedBehaviour
  else
    let n := Z.of_nat (length (free_list_ c)) in
    let free :=
      if n <? nnew
      then free_list_ c
             ++ fresh_buckets cfg (max_size_ c) base (Z.to_nat (nnew - n))
      else free_list_ c in
    let k := Z.to_nat nnew in
    Ok (with_lists c (firstn k free ++ cache_ c) (skipn k free)).

(** [Cache::Cache(TimeDuration ttl, size_t max_size)]. [log2] is the
    floating-point function, truncated by the assignment to the integer
    [shift_]; below 2^31 it is exact enough for the truncation to be
    [Z.log2]. A non-positive [ttl], and a [ttl] from 2^31 on, for which
    [1 << shift_] leaves the range of [int], are reported as undefined. *)
Definition Cache_ctor (cfg : Config) (ttl max_size : Z) : Res Cache :=
  let pool :=
    fresh_buckets cfg max_size 0 (Z.to_nat (AKU_CACHE_POPULATION cfg)) in
  let c0 := mkCache ttl max_size 0 0 [] pool in
  c1 <- Cache_allocate_from_free_list cfg c0 (AKU_LIMITS_MAX_CACHES cfg) 0 ;;
  if (ttl <=? 0) || (31 <=? Z.log2 ttl) then Fail UndefinedBehaviour
  else
    let shift := Z.log2 ttl in
    if Z.shiftl 1 shift <? AKU_LIMITS_MIN_TTL cfg then Fail RuntimeError
    else Ok (mkCache ttl max_size (baseline_ c1) shift
                     (cache_ c1) (free_list_ c1)).

(** [std::find_if], as the position of the first match. *)
Fixpoint find_if {A : Type} (f : A -> bool) (l : list A) : option nat :=
  match l with
  | [] => None
  | x :: t =>
      if f x then Some O
      else match find_if f t with
           | Some i => Some (S i)
           | None => None
           end
  end.

(** The lambda of both [find_if] calls. *)
Definition is_target (bucket_index : Z) (bucket : Bucket) : bool :=
  (state bucket =? 0) && (baseline bucket =? bucket_index).

(** [return target->add(ts, pid, offset)] for the bucket at position [i]
    of the active window. *)
Definition add_to_target (e : Env) (c : Cache) (i : nat)
           (ts : TimeStamp) (pid : ParamId) (offset : EntryOffset)
           (nswapped : Z) : Res (Status * Cache * Z) :=
  match nth_error (cache_ c) i with
  | None => Fail UndefinedBehaviour
  | Some target =>
      r <- Bucket_add e target ts pid offset ;;
      Ok (fst r,
          with_lists c (list_update (cache_ c) i (snd r)) (free_list_ c),
          nswapped)
  end.

(** [Cache::add_entry_]; the out-parameter [*nswapped] is threaded as an
    argument and a component of the result. [ts.value >> shift_] is the
    arithmetic shift ([Z.shiftr] rounds towards minus infinity). *)
Definition Cache_add_entry_ (cfg : Config) (e : Env) (c : Cache)
           (ts : TimeStamp) (pid : ParamId) (offset : EntryOffset)
           (nswapped : Z) : Res (Status * Cache * Z) :=
  let bucket_index := Z.shiftr ts (shift_ c) in
  let index := baseline_ c - bucket_index in
  if index >=? 0 then
    if index =? 0 then
      add_to_target e c O ts pid offset nswapped
    else
      match find_if (is_target bucket_index) (cache_ c) with
      | None => Ok (AKU_EOVERFLOW, c, nswapped)
      | Some i => add_to_target e c i ts pid offset nswapped
      end
  else
    let count := 0 - index in
    let c1 := with_baseline c bucket_index in
    r <- (if count >=? AKU_LIMITS_MAX_CACHES cfg then
            let recycle_cnt := AKU_LIMITS_MAX_CACHES cfg in
            marked <- mark_last (cache_ c1) recycle_cnt ;;
            c2 <- Cache_allocate_from_free_list cfg
                    (with_lists c1 marked (free_list_ c1))
                    recycle_cnt (baseline_ c1 - recycle_cnt) ;;
            Ok (c2, nswapped + recycle_cnt)
          else
            let freeslots := AKU_LIMITS_MAX_CACHES cfg - count in
            let curr_cache_size := Z.of_nat (length (cache_ c1)) in
            r1 <- (if freeslots <? curr_cache_size then
                     let recycle_cnt := curr_cache_size - freeslots in
                     marked <- mark_last (cache_ c1) recycle_cnt ;;
                     Ok (with_lists c1 marked (free_list_ c1),
                         nswapped + recycle_cnt)
                   else Ok (c1, nswapped)) ;;
            c2 <- Cache_allocate_from_free_list cfg (fst r1)
                    count (baseline_ c1 - count) ;;
            Ok (c2, snd r1)) ;;
    match find_if (is_target bucket_index) (cache_ (fst r)) with
    | None => Ok (AKU_EGENERAL, fst r, snd r)
    | Some i => add_to_target e (fst r) i ts pid offset (snd r)
    end.

(** The part of [Entry] / [Entry2] the cache reads. *)
Record Entry : Type := mkEntry {
  time : TimeStamp;
  param_id : ParamId
}.

(** [Cache::add_entry] (both overloads) *)
Definition Cache_add_entry (cfg : Config) (e : Env) (c : Cache)
           (entry : Entry) (offset : EntryOffset) (nswapped : Z)
  : Res (Status * Cache * Z) :=
  Cache_add_entry_ cfg e c (time entry) (param_id entry) offset nswapped.

(** [Cache::clear]: the whole active window is relinked in front of the
    free list; the buckets themselves are not touched. *)
Definition Cache_clear (c : Cache) : Cache :=
  with_lists c [] (cache_ c ++ free_list_ c).

(** [Cache::remove_old] *)
Definition Cache_remove_old (c : Cache) : Status := AKU_EGENERAL.

(** ** Vocabulary of the statements *)

(** A bucket still accepts writes. *)
Definition live (b : Bucket) : bool := state b =? 0.

Definition live_count (c : Cache) : nat :=
  length (filter live (cache_ c)).

Definition retired_count (c : Cache) : nat :=
  length (filter (fun b => negb (live b)) (cache_ c)).

(** All (key, offset) pairs held by the shards of a bucket. *)
Definition bucket_entries (b : Bucket) : list (Key * EntryOffset) :=
  flat_map data_ (seq_ b).

(** The offsets put on the cursor, in order. *)
Fixpoint puts (ev : list CursorEvent) : list EntryOffset :=
  match ev with
  | [] => []
  | Put o :: t => o :: puts t
  | _ :: t => puts t
  end.

Definition completions (ev : list CursorEvent) : nat :=
  length (filter (fun e => match e with Complete => true | _ => false end) ev).

Definition entry_ts (x : Key * EntryOffset) : TimeStamp := fst (fst x).
Definition entry_param (x : Key * EntryOffset) : ParamId := snd (fst x).

(** What the forward scan keeps: lowerbound <= ts < upperbound. *)
Definition fwd_match (q : SingleParameterSearchQuery) (x : Key * EntryOffset)
  : bool :=
  (lowerbound q <=? entry_ts x) && (entry_ts x <? upperbound q)
  && (entry_param x =? param q).

(** What the backward scan keeps: lowerbound < ts <= upperbound. *)
Definition bwd_match (q : SingleParameterSearchQuery) (x : Key * EntryOffset)
  : bool :=
  (lowerbound q <? entry_ts x) && (entry_ts x <=? upperbound q)
  && (entry_param x =? param q).

(** The closed range lowerbound <= ts <= upperbound. *)
Definition closed_match (q : SingleParameterSearchQuery)
           (x : Key * EntryOffset) : bool :=
  (lowerbound q <=? entry_ts x) && (entry_ts x <=? upperbound q)
  && (entry_param x =? param q).

(** A sequence of adds by a single caller into one shard. *)
Definition add_all (s : Sequence)
           (adds : list (TimeStamp * ParamId * EntryOffset)) : Sequence :=
  fold_left (fun acc tup =>
               match tup with
               | (ts, p, off) => snd (Sequence_add (uncontended 0) acc ts p off)
               end) adds s.

Definition add_key (tup : TimeStamp * ParamId * EntryOffset) : Key :=
  (fst (fst tup), snd (fst tup)).

Definition add_pair (tup : TimeStamp * ParamId * EntryOffset)
  : Key * EntryOffset :=
  (add_key tup, snd tup).

(** A matched element, as the call the scan makes on the cursor. *)
Definition put_of (x : Key * EntryOffset) : CursorEvent := Put (snd x).

Definition entry_gt (x y : Key * EntryOffset) : Prop := entry_lt y x.

(** The descending scan the backward loop performs once it stands on an
    element: [l] lists the elements from [citer] down to [begin()]. *)
Fixpoint back_scan (q : SingleParameterSearchQuery) (l : MapType)
  : list CursorEvent :=
  match l with
  | [] => []
  | (k, v) :: l' =>
      if fst k <=? lowerbound q then []
      else
        (if (snd k =? param q) && (fst k <=? upperbound q)
         then [Put v] else [])
          ++ back_scan q l'
  end.

(** The search contract read with the closed range
    lowerbound <= ts <= upperbound in both directions. *)
Definition closed_range_search (cap : Z)
           (adds : list (TimeStamp * ParamId * EntryOffset))
           (q : SingleParameterSearchQuery) : Prop :=
  exists sorted : MapType,
    Permutation sorted (map add_pair adds) /\
    StronglySorted entry_lt sorted /\
    (direction q = AKU_CURSOR_DIR_FORWARD ->
     Sequence_search (add_all (Sequence_ctor cap) adds) q
     = (map put_of (filter (closed_match q) sorted) ++ [Complete], Returned)) /\
    (direction q = AKU_CURSOR_DIR_BACKWARD ->
     Sequence_search (add_all (Sequence_ctor cap) adds) q
     = (map put_of (rev (filter (closed_match q) sorted)) ++ [Complete],
        Returned)).

(** ** Sample configuration and runs *)

(** Eight live buckets, thirty-two prepopulated ones, two shards. *)
Definition sample_cfg : Config := mkConfig 8 32 2 2.

(** A page on which offset [10 * t] holds the entry (t, 1). *)
Definition sample_page : PageReader := fun off => (off / 10, 1).

(** Two entries, one per shard, in a bucket that is then retired. *)
Definition two_shard_bucket : Res Bucket :=
  r1 <- Bucket_add (uncontended 0) (Bucket_ctor 2 16 0) 1 1 10 ;;
  r2 <- Bucket_add (uncontended 1) (snd r1) 2 1 20 ;;
  Ok (retire (snd r2)).

(** One add whose timestamp falls in the bucket right after the current
    baseline. *)
Definition slide_once (cfg : Config) (c : Cache) (nswapped : Z)
  : Res (Status * Cache * Z) :=
  Cache_add_entry_ cfg (uncontended 0) c
                   (Z.shiftl (baseline_ c + 1) (shift_ c)) 1 0 nswapped.

(** [k] such adds in a row; after each one: the live buckets, the retired
    buckets and the cumulative value of [*nswapped]. *)
Fixpoint slide_trace (cfg : Config) (k : nat) (c : Cache) (nswapped : Z)
  : Res (list (nat * nat * Z)) :=
  match k with
  | O => Ok []
  | S k' =>
      r <- slide_once cfg c nswapped ;;
      rest <- slide_trace cfg k' (snd (fst r)) (snd r) ;;
      Ok ((live_count (snd (fst r)), retired_count (snd (fst r)), snd r)
            :: rest)
  end.

(** A fresh cache slid forward twice, one bucket at a time. *)
Definition two_slides : Res (Cache * Cache) :=
  c0 <- Cache_ctor sample_cfg 1024 100 ;;
  r1 <- Cache_add_entry_ sample_cfg (uncontended 0) c0 1024 1 10 0 ;;
  r2 <- Cache_add_entry_ sample_cfg (uncontended 0) (snd (fst r1))
          2048 1 20 (snd r1) ;;
  Ok (snd (fst r1), snd (fst r2)).

(** A fresh cache takes one entry, is cleared, and is slid forward by one
    bucket: the bucket that held the entry comes back from the free list. *)
Definition reuse_after_clear : Res (Status * Cache) :=
  c0 <- Cache_ctor sample_cfg 1024 100 ;;
  r1 <- Cache_add_entry_ sample_cfg (uncontended 0) c0 5 1 42 0 ;;
  r2 <- Cache_add_entry_ sample_cfg (uncontended 0)
          (Cache_clear (snd (fst r1))) 1024 1 43 0 ;;
  Ok (fst (fst r2), snd (fst r2)).



(** ** Copies, runs of adds and their vocabulary *)

(** [Sequence::Sequence(Sequence const& other)]: [capacity_] and [data_]
    are copied, [temp_] (and the two mutexes) start afresh. *)
Definition Sequence_copy (other : Sequence) : Sequence :=
  mkSequence (capacity_ other) (data_ other) [].

(** [Bucket::Bucket(Bucket const& other)]: the shards are copied one by
    one, [baseline] and [state] are taken over, [rrindex_] restarts at 0. *)
Definition Bucket_copy (other : Bucket) : Bucket :=
  mkBucket (map Sequence_copy (seq_ other)) (state other) (baseline other) 0.

(** One call of [Sequence::add] with what the environment decides for it. *)
Definition AddOp := (Env * (TimeStamp * ParamId * EntryOffset))%type.

Definition do_add (s : Sequence) (op : AddOp) : Sequence :=
  snd (Sequence_add (fst op) s
         (fst (fst (snd op))) (snd (fst (snd op))) (snd (snd op))).

(** Calls of [Sequence::add] one after the other, each with its own lock
    outcomes. *)
Definition run_adds (s : Sequence) (ops : list AddOp) : Sequence :=
  fold_left do_add ops s.

(** The adds of a run that found the primary lock busy. *)
Definition buffered (ops : list AddOp)
  : list (TimeStamp * ParamId * EntryOffset) :=
  map snd (filter (fun op => negb (obj_free (fst op))) ops).

(** The shape of a shard whose keys are well-typed: the map is in key
    order and every parameter id, stored or buffered, is a [ParamId]. *)
Definition Sequence_wf (s : Sequence) : Prop :=
  StronglySorted entry_lt (data_ s)
  /\ Forall (fun x => ParamId_ok (entry_param x)) (data_ s)
  /\ Forall (fun t => ParamId_ok (snd (fst t))) (temp_ s).

(** The query is rejected by the first test of [Sequence::search]. *)
Definition bad_query (q : SingleParameterSearchQuery) : Prop :=
  upperbound q < lowerbound q
  \/ (direction q <> AKU_CURSOR_DIR_FORWARD
      /\ direction q <> AKU_CURSOR_DIR_BACKWARD).

Definition is_put (ev : CursorEvent) : Prop :=
  match ev with
  | Put _ => True
  | _ => False
  end.

(** The query for the single key (ts, p), forward. *)
Definition point_query (ts : TimeStamp) (p : ParamId)
  : SingleParameterSearchQuery :=
  mkQuery p ts (ts + 1) AKU_CURSOR_DIR_FORWARD.

(** The window bound with what makes it inductive: no state counter of a
    bucket of either list is negative, and the window holds at most
    [AKU_LIMITS_MAX_CACHES] live buckets. *)
Definition Cache_window_ok (cfg : Config) (c : Cache) : Prop :=
  Forall (fun b => 0 <= state b) (cache_ c ++ free_list_ c)
  /\ Z.of_nat (live_count c) <= AKU_LIMITS_MAX_CACHES cfg.

(** * Properties *)

(** ** The key order *)

Lemma key_ltb_spec (a b : Key) : key_ltb a b = true <-> key_lt a b.
Proof.
  unfold key_ltb, key_lt.
  rewrite orb_true_iff, andb_true_iff, !Z.ltb_lt, Z.eqb_eq. tauto.
Qed.

Lemma key_ltb_false (a b : Key) : key_ltb a b = false <-> ~ key_lt a b.
Proof.
  rewrite <- key_ltb_spec. destruct (key_ltb a b); split; congruence.
Qed.

Lemma key_lt_irrefl (a : Key) : ~ key_lt a a.
Proof. unfold key_lt. lia. Qed.

Lemma key_lt_trans (a b c : Key) : key_lt a b -> key_lt b c -> key_lt a c.
Proof. unfold key_lt. lia. Qed.

Lemma key_total (a b : Key) : ~ key_lt a b -> ~ key_lt b a -> a = b.
Proof.
  destruct a as [a1 a2], b as [b1 b2]. unfold key_lt. simpl. intros.
  f_equal; lia.
Qed.

Lemma key_lt_ts (a b : Key) : key_lt a b -> fst a <= fst b.
Proof. unfold key_lt. lia. Qed.

Ltac key_lia := unfold entry_lt, key_lt in *; simpl in *; lia.

(** Case analysis on the two comparisons [map_insert] and [map_find] make. *)
Ltac cmp_keys k k' :=
  let Hlt := fresh "Hlt" in
  let Hgt := fresh "Hgt" in
  destruct (key_ltb k k') eqn:Hlt;
  [ apply key_ltb_spec in Hlt
  | apply key_ltb_false in Hlt;
    destruct (key_ltb k' k) eqn:Hgt;
    [ apply key_ltb_spec in Hgt | apply key_ltb_false in Hgt ] ].

(** ** The ordered map *)

Lemma map_insert_keys_above (k0 k : Key) (v : EntryOffset) (m : MapType) :
  key_lt k0 k ->
  Forall (entry_lt (k0, 0)) m ->
  Forall (entry_lt (k0, 0)) (map_insert k v m).
Proof.
  intros Hk. induction m as [|[k' v'] m IH]; simpl; intros Hall.
  - constructor; [exact Hk | constructor].
  - inversion Hall as [|? ? Hh Ht]; subst.
    cmp_keys k k'.
    + constructor; [exact Hk | exact Hall].
    + constructor; [exact Hh | apply IH; exact Ht].
    + exact Hall.
Qed.

Lemma entry_lt_any_value (k : Key) (v w : EntryOffset) (m : MapType) :
  Forall (entry_lt (k, v)) m -> Forall (entry_lt (k, w)) m.
Proof. intros H. eapply Forall_impl; [|exact H]. intros x Hx. exact Hx. Qed.

Lemma map_insert_sorted (k : Key) (v : EntryOffset) (m : MapType) :
  StronglySorted entry_lt m -> StronglySorted entry_lt (map_insert k v m).
Proof.
  induction m as [|[k' v'] m IH]; simpl; intros Hs.
  - repeat constructor.
  - inversion Hs as [|? ? Hs' Hall]; subst.
    cmp_keys k k'.
    + constructor; [exact Hs|].
      constructor; [exact Hlt|].
      eapply Forall_impl; [|exact Hall].
      intros x Hx. unfold entry_lt in *. simpl in *.
      eapply key_lt_trans; eassumption.
    + constructor; [apply IH; exact Hs'|].
      apply entry_lt_any_value with (v := 0).
      apply map_insert_keys_above; [exact Hgt|].
      apply entry_lt_any_value with (v := v'). exact Hall.
    + exact Hs.
Qed.

Lemma drain_sorted tmp (m : MapType) :
  StronglySorted entry_lt m -> StronglySorted entry_lt (drain tmp m).
Proof.
  unfold drain. revert m.
  induction tmp as [|[[ts p] off] tmp IH]; simpl; intros m Hs.
  - exact Hs.
  - apply IH. apply map_insert_sorted. exact Hs.
Qed.

(** Inserting never changes a binding that is already there. *)
Lemma map_find_insert_kept (k k' : Key) (v o : EntryOffset) (m : MapType) :
  map_find k m = Some o -> map_find k (map_insert k' v m) = Some o.
Proof.
  induction m as [|[k0 v0] m IH]; simpl; [discriminate|].
  intros Hf.
  destruct (key_ltb k k0) eqn:E1; [discriminate|].
  destruct (key_ltb k' k0) eqn:E2; simpl.
  - (* the new pair goes in front, below [k] *)
    apply key_ltb_false in E1. apply key_ltb_spec in E2.
    assert (E3 : key_ltb k k' = false) by (apply key_ltb_false; key_lia).
    assert (E4 : key_ltb k' k = true) by (apply key_ltb_spec; key_lia).
    apply key_ltb_false in E1.
    rewrite E3, E4, E1. exact Hf.
  - destruct (key_ltb k0 k') eqn:E3; simpl; rewrite E1.
    + destruct (key_ltb k0 k); [apply IH; exact Hf | exact Hf].
    + exact Hf.
Qed.

Lemma map_find_drain_kept (k : Key) (o : EntryOffset) tmp (m : MapType) :
  map_find k m = Some o -> map_find k (drain tmp m) = Some o.
Proof.
  unfold drain. revert m.
  induction tmp as [|[[ts p] off] tmp IH]; simpl; intros m Hf.
  - exact Hf.
  - apply IH. apply map_find_insert_kept. exact Hf.
Qed.

(** Inserting a key that is bound leaves the map as it is. *)
Lemma map_insert_present (k : Key) (v o : EntryOffset) (m : MapType) :
  map_find k m = Some o -> map_insert k v m = m.
Proof.
  induction m as [|[k0 v0] m IH]; simpl; [discriminate|].
  intros Hf. cmp_keys k k0; [discriminate| |reflexivity].
  f_equal. apply IH. exact Hf.
Qed.

(** In a sorted map, [map_find] sees every pair of the list. *)
Lemma map_find_complete (k : Key) (o : EntryOffset) (m : MapType) :
  StronglySorted entry_lt m -> In (k, o) m -> map_find k m = Some o.
Proof.
  induction m as [|[k0 v0] m IH]; simpl; intros Hs Hin; [contradiction|].
  inversion Hs as [|? ? Hs' Hall]; subst.
  destruct Hin as [Heq | Hin].
  - inversion Heq; subst.
    cmp_keys k k; try reflexivity; exfalso; eapply key_lt_irrefl; eassumption.
  - assert (Hk : key_lt k0 k).
    { rewrite Forall_forall in Hall. apply (Hall _ Hin). }
    cmp_keys k k0.
    + exfalso. eapply key_lt_irrefl, key_lt_trans; eassumption.
    + apply IH; assumption.
    + contradiction.
Qed.

Lemma map_insert_absent (k : Key) (v : EntryOffset) (m : MapType) :
  ~ In k (map fst m) -> Permutation ((k, v) :: m) (map_insert k v m).
Proof.
  induction m as [|[k0 v0] m IH]; simpl; intros Hn.
  - apply Permutation_refl.
  - cmp_keys k k0.
    + apply Permutation_refl.
    + eapply perm_trans; [apply perm_swap|].
      apply perm_skip. apply IH. tauto.
    + exfalso. apply Hn. left. symmetry. apply key_total; assumption.
Qed.

(** ** Sequence::add by a single caller *)

Lemma add_all_temp (adds : list (TimeStamp * ParamId * EntryOffset))
      (s : Sequence) :
  temp_ s = [] -> temp_ (add_all s adds) = [].
Proof.
  unfold add_all. revert s.
  induction adds as [|[[ts p] off] adds IH]; simpl; intros s Ht.
  - exact Ht.
  - apply IH. simpl. exact Ht.
Qed.

Lemma add_all_sorted (adds : list (TimeStamp * ParamId * EntryOffset))
      (s : Sequence) :
  StronglySorted entry_lt (data_ s) ->
  StronglySorted entry_lt (data_ (add_all s adds)).
Proof.
  unfold add_all. revert s.
  induction adds as [|[[ts p] off] adds IH]; simpl; intros s Hs.
  - exact Hs.
  - apply IH. simpl. apply map_insert_sorted. apply drain_sorted. exact Hs.
Qed.

Lemma add_all_perm (adds : list (TimeStamp * ParamId * EntryOffset))
      (s : Sequence) :
  temp_ s = [] ->
  NoDup (map add_key adds) ->
  (forall k, In k (map add_key adds) -> ~ In k (map fst (data_ s))) ->
  Permutation (data_ (add_all s adds)) (map add_pair adds ++ data_ s).
Proof.
  unfold add_all. revert s.
  induction adds as [|[[ts p] off] adds IH]; simpl; intros s Ht Hnd Hfresh.
  - apply Permutation_refl.
  - inversion Hnd as [|? ? Hnotin Hnd']; subst.
    assert (Hperm : Permutation (((ts, p), off) :: data_ s)
                                (map_insert (ts, p) off (data_ s))).
    { apply map_insert_absent. apply Hfresh. left. reflexivity. }
    eapply perm_trans.
    + apply IH; simpl.
      * exact Ht.
      * exact Hnd'.
      * rewrite Ht. simpl. intros k Hk Hin.
        apply (Permutation_in _ (Permutation_map fst (Permutation_sym Hperm)))
          in Hin.
        simpl in Hin. destruct Hin as [Heq | Hin].
        -- apply Hnotin. subst k. exact Hk.
        -- apply (Hfresh k); [right; exact Hk | exact Hin].
    + simpl. rewrite Ht. simpl.
      unfold add_pair at 2, add_key. simpl.
      apply Permutation_sym. eapply perm_trans.
      * apply Permutation_middle.
      * apply Permutation_app_head. exact Hperm.
Qed.

(** ** Sequence::search, forward *)

Lemma fwd_none_above (q : SingleParameterSearchQuery) (l : MapType) :
  Forall (fun x => upperbound q <= entry_ts x) l ->
  filter (fwd_match q) l = [].
Proof.
  induction l as [|x l IH]; simpl; intros Hall; [reflexivity|].
  inversion Hall as [|? ? Hx Hl]; subst.
  unfold fwd_match at 1.
  replace (entry_ts x <? upperbound q) with false
    by (symmetry; apply Z.ltb_ge; exact Hx).
  rewrite andb_false_r. simpl. apply IH. exact Hl.
Qed.

Lemma sorted_tail_ts (x : Key * EntryOffset) (l : MapType) :
  Forall (entry_lt x) l -> Forall (fun y => entry_ts x <= entry_ts y) l.
Proof.
  intros H. eapply Forall_impl; [|exact H].
  intros y Hy. unfold entry_ts. apply key_lt_ts. exact Hy.
Qed.

Lemma forward_loop_filter (q : SingleParameterSearchQuery) (l : MapType) :
  StronglySorted entry_lt l ->
  Forall (fun x => lowerbound q <= entry_ts x) l ->
  forward_loop q (upperbound q) l = map put_of (filter (fwd_match q) l).
Proof.
  induction l as [|[k v] l IH]; simpl; intros Hs Hlo; [reflexivity|].
  inversion Hs as [|? ? Hs' Hall]; subst.
  inversion Hlo as [|? ? Hk Hl]; subst.
  unfold entry_ts in Hk. simpl in Hk.
  destruct (fst k >=? upperbound q) eqn:Ehi.
  - apply Z.geb_le in Ehi.
    unfold fwd_match at 1, entry_ts at 1 2. simpl.
    replace (fst k <? upperbound q) with false
      by (symmetry; apply Z.ltb_ge; exact Ehi).
    rewrite andb_false_r. simpl.
    rewrite fwd_none_above; [reflexivity|].
    apply sorted_tail_ts in Hall.
    eapply Forall_impl; [|exact Hall].
    intros y Hy. unfold entry_ts in *. simpl in *. lia.
  - assert (Ehi' : fst k < upperbound q).
    { destruct (Z.geb_spec (fst k) (upperbound q)); [discriminate | lia]. }
    unfold fwd_match at 1, entry_ts at 1 2, entry_param at 1. simpl.
    replace (lowerbound q <=? fst k) with true
      by (symmetry; apply Z.leb_le; exact Hk).
    replace (fst k <? upperbound q) with true
      by (symmetry; apply Z.ltb_lt; exact Ehi').
    simpl. rewrite (IH Hs' Hl).
    destruct (snd k =? param q); reflexivity.
Qed.

Lemma forward_from_lower_bound (q : SingleParameterSearchQuery) (m : MapType) :
  StronglySorted entry_lt m ->
  Forall (fun x => 0 <= entry_param x) m ->
  forward_loop q (upperbound q)
               (skipn (lower_bound (lowerbound q, 0) m) m)
  = map put_of (filter (fwd_match q) m).
Proof.
  induction m as [|[k v] m IH]; simpl; intros Hs Hp; [reflexivity|].
  inversion Hs as [|? ? Hs' Hall]; subst.
  inversion Hp as [|? ? Hk Hm]; subst.
  unfold entry_param in Hk. simpl in Hk.
  destruct (key_ltb k (lowerbound q, 0)) eqn:E.
  - apply key_ltb_spec in E. unfold key_lt in E. simpl in E.
    assert (Hlt : fst k < lowerbound q) by lia.
    simpl. rewrite (IH Hs' Hm).
    unfold fwd_match at 2, entry_ts at 1 2. simpl.
    replace (lowerbound q <=? fst k) with false
      by (symmetry; apply Z.leb_gt; exact Hlt).
    reflexivity.
  - apply key_ltb_false in E. unfold key_lt in E. simpl in E.
    assert (Hge : lowerbound q <= fst k) by lia.
    change (skipn 0 ((k, v) :: m)) with ((k, v) :: m).
    apply forward_loop_filter; [exact Hs|].
    constructor; [exact Hge|].
    apply sorted_tail_ts in Hall.
    eapply Forall_impl; [|exact Hall].
    intros y Hy. unfold entry_ts in *. simpl in *. lia.
Qed.

(** ** Sequence::search, backward *)

Lemma firstn_snoc (m : MapType) (i : nat) (x : Key * EntryOffset) :
  nth_error m i = Some x -> firstn (S i) m = firstn i m ++ [x].
Proof.
  revert i. induction m as [|y m IH]; intros [|i] H; simpl in *;
    try discriminate.
  - inversion H; reflexivity.
  - f_equal. apply IH. exact H.
Qed.

Lemma backward_loop_scan (q : SingleParameterSearchQuery) (m : MapType)
      (i : nat) :
  (i < length m)%nat ->
  backward_loop m q (upperbound q) (lowerbound q) i
  = (back_scan q (rev (firstn (S i) m)), Returned).
Proof.
  induction i as [|i IH]; intros Hlt.
  - destruct m as [|[k v] m]; simpl in *; [lia|].
    destruct (fst k <=? lowerbound q); [reflexivity|].
    rewrite app_nil_r. reflexivity.
  - destruct (nth_error m (S i)) as [[k v]|] eqn:En.
    + rewrite (firstn_snoc _ _ _ En), rev_unit.
      cbn [backward_loop back_scan]. rewrite En.
      destruct (fst k <=? lowerbound q); [reflexivity|].
      rewrite IH by lia. reflexivity.
    + apply nth_error_None in En. lia.
Qed.

Lemma bwd_none_below (q : SingleParameterSearchQuery) (l : MapType) :
  Forall (fun x => entry_ts x <= lowerbound q) l ->
  filter (bwd_match q) l = [].
Proof.
  induction l as [|x l IH]; simpl; intros Hall; [reflexivity|].
  inversion Hall as [|? ? Hx Hl]; subst.
  unfold bwd_match at 1.
  replace (lowerbound q <? entry_ts x) with false
    by (symmetry; apply Z.ltb_ge; exact Hx).
  simpl. apply IH. exact Hl.
Qed.

Lemma bwd_none_above (q : SingleParameterSearchQuery) (l : MapType) :
  Forall (fun x => upperbound q < entry_ts x) l ->
  filter (bwd_match q) l = [].
Proof.
  induction l as [|x l IH]; simpl; intros Hall; [reflexivity|].
  inversion Hall as [|? ? Hx Hl]; subst.
  unfold bwd_match at 1.
  replace (entry_ts x <=? upperbound q) with false
    by (symmetry; apply Z.leb_gt; exact Hx).
  rewrite andb_false_r. simpl. apply IH. exact Hl.
Qed.

Lemma back_scan_filter (q : SingleParameterSearchQuery) (l : MapType) :
  StronglySorted entry_gt l ->
  Forall (fun x => entry_ts x <= upperbound q) l ->
  back_scan q l = map put_of (filter (bwd_match q) l).
Proof.
  induction l as [|[k v] l IH]; simpl; intros Hs Hhi; [reflexivity|].
  inversion Hs as [|? ? Hs' Hall]; subst.
  inversion Hhi as [|? ? Hk Hl]; subst.
  unfold entry_ts in Hk. simpl in Hk.
  unfold bwd_match at 1, entry_ts at 1 2, entry_param at 1. simpl.
  destruct (fst k <=? lowerbound q) eqn:Elo.
  - apply Z.leb_le in Elo.
    replace (lowerbound q <? fst k) with false
      by (symmetry; apply Z.ltb_ge; exact Elo).
    simpl. rewrite bwd_none_below; [reflexivity|].
    eapply Forall_impl; [|exact Hall].
    intros y Hy. unfold entry_gt, entry_lt in Hy. apply key_lt_ts in Hy.
    unfold entry_ts. simpl in Hy. lia.
  - apply Z.leb_gt in Elo.
    replace (lowerbound q <? fst k) with true
      by (symmetry; apply Z.ltb_lt; exact Elo).
    replace (fst k <=? upperbound q) with true
      by (symmetry; apply Z.leb_le; exact Hk).
    rewrite andb_true_r. simpl. rewrite (IH Hs' Hl).
    destruct (snd k =? param q); reflexivity.
Qed.

Lemma sorted_app (R : Key * EntryOffset -> Key * EntryOffset -> Prop)
      (l1 l2 : MapType) :
  StronglySorted R l1 -> StronglySorted R l2 ->
  (forall x y, In x l1 -> In y l2 -> R x y) ->
  StronglySorted R (l1 ++ l2).
Proof.
  induction l1 as [|a l1 IH]; simpl; intros H1 H2 H12; [exact H2|].
  inversion H1 as [|? ? Hs Hall]; subst.
  constructor.
  - apply IH; [exact Hs | exact H2 |].
    intros x y Hx Hy. apply H12; [right; exact Hx | exact Hy].
  - apply Forall_app. split; [exact Hall|].
    apply Forall_forall. intros y Hy. apply H12; [left; reflexivity | exact Hy].
Qed.

Lemma sorted_rev (l : MapType) :
  StronglySorted entry_lt l -> StronglySorted entry_gt (rev l).
Proof.
  induction l as [|a l IH]; simpl; intros Hs; [constructor|].
  inversion Hs as [|? ? Hs' Hall]; subst.
  apply sorted_app.
  - apply IH. exact Hs'.
  - repeat constructor.
  - intros x y Hx Hy. destruct Hy as [Hy|[]]. subst y.
    apply in_rev in Hx. rewrite Forall_forall in Hall.
    unfold entry_gt. apply Hall. exact Hx.
Qed.

Lemma sorted_firstn (l : MapType) (n : nat) :
  StronglySorted entry_lt l -> StronglySorted entry_lt (firstn n l).
Proof.
  revert n. induction l as [|a l IH]; intros [|n] Hs; simpl;
    try constructor.
  - inversion Hs; subst. apply IH. assumption.
  - inversion Hs as [|? ? Hs' Hall]; subst.
    rewrite Forall_forall in *. intros x Hx. apply Hall.
    eapply In_nth_error in Hx. destruct Hx as [i Hi].
    assert (Hin : In x (firstn n l))
      by (eapply nth_error_In; exact Hi).
    rewrite <- (firstn_skipn n l). apply in_or_app. left. exact Hin.
Qed.

(** Where [upper_bound((upperbound, ~0))] cuts a sorted map. *)
Lemma upper_bound_cut (hi : TimeStamp) (m : MapType) :
  StronglySorted entry_lt m ->
  Forall (fun x => entry_param x <= ParamId_max) m ->
  Forall (fun x => entry_ts x <= hi)
         (firstn (upper_bound (hi, ParamId_max) m) m)
  /\ Forall (fun x => hi < entry_ts x)
            (skipn (upper_bound (hi, ParamId_max) m) m).
Proof.
  induction m as [|[k v] m IH]; simpl; intros Hs Hp.
  - split; constructor.
  - inversion Hs as [|? ? Hs' Hall]; subst.
    inversion Hp as [|? ? Hk Hm]; subst.
    unfold entry_param in Hk. simpl in Hk.
    destruct (key_ltb (hi, ParamId_max) k) eqn:E.
    + apply key_ltb_spec in E. unfold key_lt in E. simpl in E.
      assert (Hgt : hi < fst k) by lia.
      simpl. split; [constructor|].
      constructor; [exact Hgt|].
      apply sorted_tail_ts in Hall.
      eapply Forall_impl; [|exact Hall].
      intros y Hy. unfold entry_ts in *. simpl in *. lia.
    + apply key_ltb_false in E. unfold key_lt in E. simpl in E.
      assert (Hle : fst k <= hi) by lia.
      destruct (IH Hs' Hm) as [H1 H2].
      simpl. split; [constructor; assumption | exact H2].
Qed.

Lemma backward_from_upper_bound (q : SingleParameterSearchQuery)
      (m : MapType) :
  StronglySorted entry_lt m ->
  Forall (fun x => entry_param x <= ParamId_max) m ->
  lowerbound q <= upperbound q ->
  Exists (fun x => upperbound q < entry_ts x) m ->
  backward_loop m q (upperbound q) (lowerbound q)
                (upper_bound (upperbound q, ParamId_max) m)
  = (map put_of (rev (filter (bwd_match q) m)), Returned).
Proof.
  intros Hs Hp Hrange Hex.
  destruct (upper_bound_cut (upperbound q) m Hs Hp) as [Hlow Hhigh].
  set (n := upper_bound (upperbound q, ParamId_max) m) in *.
  assert (Hsplit : filter (bwd_match q) m = filter (bwd_match q) (firstn n m)).
  { rewrite <- (firstn_skipn n m) at 1.
    rewrite filter_app, (bwd_none_above q _ Hhigh), app_nil_r. reflexivity. }
  destruct (nth_error m n) as [[k v]|] eqn:En.
  - (* the scan starts on the first element above the range *)
    assert (Hk : upperbound q < fst k).
    { assert (Hin : In (k, v) (skipn n m)).
      { rewrite <- (firstn_skipn n m) in En.
        rewrite nth_error_app2 in En
          by (rewrite length_firstn; lia).
        apply nth_error_In in En. exact En. }
      rewrite Forall_forall in Hhigh. apply (Hhigh _ Hin). }
    assert (Elo : (fst k <=? lowerbound q) = false)
      by (apply Z.leb_gt; lia).
    assert (Ehi : (fst k <=? upperbound q) = false)
      by (apply Z.leb_gt; lia).
    destruct n as [|n'].
    + simpl in Hsplit. rewrite Hsplit. simpl.
      destruct m as [|x m']; [discriminate|].
      simpl in En. inversion En; subst x.
      simpl. rewrite Elo, Ehi, andb_false_r. reflexivity.
    + cbn [backward_loop]. rewrite En, Elo, Ehi, andb_false_r.
      assert (Hlen : (n' < length m)%nat).
      { assert (S n' < length m)%nat
          by (apply nth_error_Some; rewrite En; discriminate).
        lia. }
      rewrite (backward_loop_scan q m n' Hlen).
      rewrite back_scan_filter.
      * rewrite Hsplit, filter_rev. reflexivity.
      * apply sorted_rev. apply sorted_firstn. exact Hs.
      * apply Forall_forall. intros x Hx. apply in_rev in Hx.
        rewrite Forall_forall in Hlow. apply Hlow. exact Hx.
  - (* excluded: some element lies above the range *)
    exfalso. apply nth_error_None in En.
    rewrite skipn_all2 in Hhigh by exact En.
    apply Exists_exists in Hex. destruct Hex as [x [Hx Hgt]].
    rewrite <- (firstn_skipn n m) in Hx. apply in_app_or in Hx.
    destruct Hx as [Hx | Hx].
    + rewrite Forall_forall in Hlow. specialize (Hlow _ Hx). lia.
    + rewrite skipn_all2 in Hx by exact En. contradiction.
Qed.

(** When no stored key lies above [(upperbound, ~0)], [upper_bound]
    returns [end()]. *)
Lemma upper_bound_end (hi : TimeStamp) (m : MapType) :
  Forall (fun x => entry_ts x <= hi /\ entry_param x <= ParamId_max) m ->
  upper_bound (hi, ParamId_max) m = length m.
Proof.
  induction m as [|[k v] m IH]; simpl; intros Hall; [reflexivity|].
  inversion Hall as [|? ? [Hts Hp] Hm]; subst.
  unfold entry_ts, entry_param in *. simpl in *.
  assert (E : key_ltb (hi, ParamId_max) k = false)
    by (apply key_ltb_false; unfold key_lt; simpl; lia).
  rewrite E. f_equal. apply IH. exact Hm.
Qed.

(** ** Claims on Sequence *)

Ltac sorted_tac :=
  repeat (constructor; try (unfold entry_lt, key_lt; simpl; lia)).

Ltac nodup_tac :=
  cbv [map add_key fst snd];
  repeat (constructor; [simpl; intuition congruence|]); constructor.

Lemma Sequence_add_data_sorted (e : Env) (s : Sequence) ts p off :
  StronglySorted entry_lt (data_ s) ->
  StronglySorted entry_lt (data_ (snd (Sequence_add e s ts p off))).
Proof.
  intros Hs. unfold Sequence_add.
  destruct (obj_free e); simpl; [|exact Hs].
  apply map_insert_sorted.
  destruct (tmp_free e); [apply drain_sorted|]; exact Hs.
Qed.

(** Every offset a search puts on the cursor is the value of a pair of the
    shard's map whose parameter id is the queried one. *)
Lemma forward_loop_puts (q : SingleParameterSearchQuery) (hi : TimeStamp)
      (l : MapType) (o : EntryOffset) :
  In (Put o) (forward_loop q hi l) ->
  exists k, In (k, o) l /\ snd k = param q.
Proof.
  induction l as [|[k v] l IH]; simpl; [intros []|].
  destruct (fst k >=? hi); [intros []|].
  intros Hin. apply in_app_or in Hin. destruct Hin as [Hin | Hin].
  - destruct (snd k =? param q) eqn:Ep; [|destruct Hin].
    destruct Hin as [Heq | []]. inversion Heq; subst.
    exists k. split; [left; reflexivity | apply Z.eqb_eq; exact Ep].
  - destruct (IH Hin) as [k' [Hk' Hp]].
    exists k'. split; [right; exact Hk' | exact Hp].
Qed.

Lemma backward_loop_puts (m : MapType) (q : SingleParameterSearchQuery)
      (hi lo : TimeStamp) (i : nat) (o : EntryOffset) :
  In (Put o) (fst (backward_loop m q hi lo i)) ->
  exists k, In (k, o) m /\ snd k = param q.
Proof.
  induction i as [|i IH]; cbn [backward_loop].
  - destruct (nth_error m 0) as [[k v]|] eqn:En; [|intros []].
    destruct (fst k <=? lo); [intros []|].
    destruct ((snd k =? param q) && (fst k <=? hi)) eqn:Ep; [|intros []].
    intros [Heq | []]. inversion Heq; subst.
    apply andb_true_iff in Ep. destruct Ep as [Ep _].
    exists k. split; [eapply nth_error_In; exact En | apply Z.eqb_eq; exact Ep].
  - destruct (nth_error m (S i)) as [[k v]|] eqn:En; [|intros []].
    destruct (fst k <=? lo); [intros []|].
    destruct (backward_loop m q hi lo i) as [rest out] eqn:Er.
    cbn [fst] in *. intros Hin. apply in_app_or in Hin.
    destruct Hin as [Hin | Hin]; [|apply IH; exact Hin].
    destruct ((snd k =? param q) && (fst k <=? hi)) eqn:Ep; [|destruct Hin].
    destruct Hin as [Heq | []]. inversion Heq; subst.
    apply andb_true_iff in Ep. destruct Ep as [Ep _].
    exists k. split; [eapply nth_error_In; exact En | apply Z.eqb_eq; exact Ep].
Qed.

Lemma In_skipn (n : nat) (m : MapType) (x : Key * EntryOffset) :
  In x (skipn n m) -> In x m.
Proof.
  intros H. rewrite <- (firstn_skipn n m). apply in_or_app. right. exact H.
Qed.

Lemma Sequence_search_puts_from_map (s : Sequence)
      (q : SingleParameterSearchQuery) (o : EntryOffset) :
  In (Put o) (fst (Sequence_search s q)) ->
  exists k, In (k, o) (data_ s) /\ snd k = param q.
Proof.
  unfold Sequence_search.
  destruct ((upperbound q <? lowerbound q)
            || negb (xorb (direction q =? AKU_CURSOR_DIR_FORWARD)
                          (direction q =? AKU_CURSOR_DIR_BACKWARD))).
  - simpl. intros [H | []]. discriminate H.
  - destruct (direction q =? AKU_CURSOR_DIR_BACKWARD).
    + pose proof (backward_loop_puts (data_ s) q (upperbound q) (lowerbound q)
                    (upper_bound (upperbound q, ParamId_max) (data_ s)) o)
        as Hb.
      destruct (backward_loop (data_ s) q (upperbound q) (lowerbound q)
                  (upper_bound (upperbound q, ParamId_max) (data_ s)))
        as [evs out].
      cbn [fst] in Hb. destruct out; cbn [fst]; intros Hin.
      * apply in_app_or in Hin. destruct Hin as [Hin | [H | []]];
          [apply Hb; exact Hin | discriminate H].
      * apply Hb. exact Hin.
    + cbn [fst]. intros Hin. apply in_app_or in Hin.
      destruct Hin as [Hin | [H | []]]; [|discriminate H].
      apply forward_loop_puts in Hin. destruct Hin as [k [Hk Hp]].
      exists k. split; [eapply In_skipn; exact Hk | exact Hp].
Qed.

(** C4. First writer wins: when the shard's map already binds the key
    (ts, p) to [o1], an add of the same key with another offset [o2],
    whatever the locks do, leaves that binding in place: the key is still
    bound to [o1], no pair of the map carries the key with another offset,
    every offset a following search puts comes from a pair of the map (so
    for this key it is [o1]), and, when no buffered entry is pending, the
    whole map and therefore every search are as before. *)
Theorem Sequence_add_first_writer_wins :
  forall (e : Env) (s : Sequence) (ts : TimeStamp) (p : ParamId)
         (o1 o2 : EntryOffset),
    StronglySorted entry_lt (data_ s) ->
    map_find (ts, p) (data_ s) = Some o1 ->
    map_find (ts, p) (data_ (snd (Sequence_add e s ts p o2))) = Some o1
    /\ (forall o, In ((ts, p), o) (data_ (snd (Sequence_add e s ts p o2)))
                  -> o = o1)
    /\ (forall q o,
           In (Put o) (fst (Sequence_search (snd (Sequence_add e s ts p o2)) q))
           -> exists k,
               In (k, o) (data_ (snd (Sequence_add e s ts p o2)))
               /\ snd k = param q
               /\ (k = (ts, p) -> o = o1))
    /\ (temp_ s = [] ->
        data_ (snd (Sequence_add e s ts p o2)) = data_ s
        /\ forall q, Sequence_search (snd (Sequence_add e s ts p o2)) q
                     = Sequence_search s q).
Proof.
  intros e s ts p o1 o2 Hs Hf.
  assert (Hkept :
            map_find (ts, p) (data_ (snd (Sequence_add e s ts p o2)))
            = Some o1).
  { unfold Sequence_add.
    destruct (obj_free e); simpl; [|exact Hf].
    apply map_find_insert_kept.
    destruct (tmp_free e); [apply map_find_drain_kept|]; exact Hf. }
  assert (Honly : forall o,
             In ((ts, p), o) (data_ (snd (Sequence_add e s ts p o2)))
             -> o = o1).
  { intros o Hin.
    pose proof (Sequence_add_data_sorted e s ts p o2 Hs) as Hs'.
    pose proof (map_find_complete _ _ _ Hs' Hin) as Hfo.
    congruence. }
  split; [exact Hkept|]. split; [exact Honly|]. split.
  - intros q o Hput.
    destruct (Sequence_search_puts_from_map _ _ _ Hput) as [k [Hk Hp]].
    exists k. split; [exact Hk|]. split; [exact Hp|].
    intros Heq. subst k. apply Honly. exact Hk.
  - intros Ht.
    assert (Hd : data_ (snd (Sequence_add e s ts p o2)) = data_ s).
    { unfold Sequence_add.
      destruct (obj_free e); simpl; [|reflexivity].
      rewrite Ht.
      replace (if tmp_free e then drain [] (data_ s) else data_ s)
        with (data_ s) by (destruct (tmp_free e); reflexivity).
      eapply map_insert_present; exact Hf. }
    split; [exact Hd|].
    intros q. unfold Sequence_search. rewrite Hd. reflexivity.
Qed.

Lemma Sequence_add_first_writer_wins_witness :
  map_find (5, 1)
           (data_ (snd (Sequence_add (uncontended 0)
                          (add_all (Sequence_ctor 16) [(5, 1, 50); (3, 2, 30)])
                          5 1 99))) = Some 50
  /\ (forall o,
         In ((5, 1), o)
            (data_ (snd (Sequence_add (uncontended 0)
                           (add_all (Sequence_ctor 16)
                                    [(5, 1, 50); (3, 2, 30)])
                           5 1 99)))
         -> o = 50)
  /\ (forall q o,
         In (Put o)
            (fst (Sequence_search
                    (snd (Sequence_add (uncontended 0)
                            (add_all (Sequence_ctor 16)
                                     [(5, 1, 50); (3, 2, 30)])
                            5 1 99)) q))
         -> exists k,
             In (k, o)
                (data_ (snd (Sequence_add (uncontended 0)
                               (add_all (Sequence_ctor 16)
                                        [(5, 1, 50); (3, 2, 30)])
                               5 1 99)))
             /\ snd k = param q
             /\ (k = (5, 1) -> o = 50))
  /\ (temp_ (add_all (Sequence_ctor 16) [(5, 1, 50); (3, 2, 30)]) = [] ->
      data_ (snd (Sequence_add (uncontended 0)
                    (add_all (Sequence_ctor 16) [(5, 1, 50); (3, 2, 30)])
                    5 1 99))
      = data_ (add_all (Sequence_ctor 16) [(5, 1, 50); (3, 2, 30)])
      /\ forall q,
          Sequence_search
            (snd (Sequence_add (uncontended 0)
                    (add_all (Sequence_ctor 16) [(5, 1, 50); (3, 2, 30)])
                    5 1 99)) q
          = Sequence_search
              (add_all (Sequence_ctor 16) [(5, 1, 50); (3, 2, 30)]) q).
Proof.
  apply (Sequence_add_first_writer_wins
           (uncontended 0)
           (add_all (Sequence_ctor 16) [(5, 1, 50); (3, 2, 30)])
           5 1 50 99).
  - simpl. sorted_tac.
  - reflexivity.
Defined.

(** The same, when the primary lock is busy and the add is buffered, and
    the buffer is drained by a later add: the binding is still [o1]. *)
Lemma Sequence_add_buffered_then_drained (s : Sequence) ts p o1 o2 ts' p' o' :
  map_find (ts, p) (data_ s) = Some o1 ->
  map_find (ts, p)
           (data_ (snd (Sequence_add (mkEnv 0 true true)
                          (snd (Sequence_add (mkEnv 0 false true) s ts p o2))
                          ts' p' o')))
  = Some o1.
Proof.
  intros Hf. simpl.
  apply map_find_insert_kept, map_find_drain_kept. exact Hf.
Qed.

Lemma add_all_ctor_data (cap : Z)
      (adds : list (TimeStamp * ParamId * EntryOffset)) :
  NoDup (map add_key adds) ->
  Permutation (data_ (add_all (Sequence_ctor cap) adds)) (map add_pair adds)
  /\ StronglySorted entry_lt (data_ (add_all (Sequence_ctor cap) adds)).
Proof.
  intros Hnd. split.
  - rewrite <- (app_nil_r (map add_pair adds)).
    apply (add_all_perm adds (Sequence_ctor cap));
      [reflexivity | exact Hnd | intros k _ []].
  - apply add_all_sorted. constructor.
Qed.

(** C3 (amended). After adds with pairwise distinct keys by a single
    caller into a fresh shard, let [sorted] be the added pairs in
    ascending key order. For lo <= hi, the forward search over lo .. hi
    puts exactly the offsets of the pairs with lo <= ts < hi and the
    queried parameter id, ascending, then completes. The backward search,
    when some stored timestamp lies above hi, puts exactly the offsets of
    the pairs with lo < ts <= hi and the queried parameter id, descending,
    then completes. *)
Theorem Sequence_search_after_adds :
  forall (cap : Z) (adds : list (TimeStamp * ParamId * EntryOffset))
         (p : ParamId) (lo hi : TimeStamp),
    NoDup (map add_key adds) ->
    Forall (fun t => ParamId_ok (snd (fst t))) adds ->
    lo <= hi ->
    exists sorted : MapType,
      Permutation sorted (map add_pair adds) /\
      StronglySorted entry_lt sorted /\
      Sequence_search (add_all (Sequence_ctor cap) adds)
                      (mkQuery p lo hi AKU_CURSOR_DIR_FORWARD)
      = (map put_of
             (filter (fwd_match (mkQuery p lo hi AKU_CURSOR_DIR_FORWARD))
                     sorted) ++ [Complete], Returned) /\
      (Exists (fun t => hi < fst (fst t)) adds ->
       Sequence_search (add_all (Sequence_ctor cap) adds)
                       (mkQuery p lo hi AKU_CURSOR_DIR_BACKWARD)
       = (map put_of
              (rev (filter
                      (bwd_match (mkQuery p lo hi AKU_CURSOR_DIR_BACKWARD))
                      sorted)) ++ [Complete], Returned)).
Proof.
  intros cap adds p lo hi Hnd Hp Hrange.
  destruct (add_all_ctor_data cap adds Hnd) as [Hperm Hs].
  set (s := add_all (Sequence_ctor cap) adds) in *.
  assert (Hpar : Forall (fun x => 0 <= entry_param x <= ParamId_max)
                        (data_ s)).
  { apply (Permutation_Forall (Permutation_sym Hperm)).
    apply Forall_map. eapply Forall_impl; [|exact Hp].
    intros [[ts q] off] H. exact H. }
  assert (Hnotlt : (hi <? lo) = false) by (apply Z.ltb_ge; exact Hrange).
  exists (data_ s). split; [exact Hperm|]. split; [exact Hs|]. split.
  - unfold Sequence_search. cbn [upperbound lowerbound direction].
    rewrite Hnotlt. simpl.
    rewrite (forward_from_lower_bound
               (mkQuery p lo hi AKU_CURSOR_DIR_FORWARD));
      [reflexivity | exact Hs |].
    eapply Forall_impl; [|exact Hpar]. intros x [Hx _]. exact Hx.
  - intros Hex. unfold Sequence_search. cbn [upperbound lowerbound direction].
    rewrite Hnotlt. simpl.
    rewrite (backward_from_upper_bound
               (mkQuery p lo hi AKU_CURSOR_DIR_BACKWARD));
      [reflexivity | exact Hs | | exact Hrange |].
    + eapply Forall_impl; [|exact Hpar]. intros x [_ Hx]. exact Hx.
    + apply Exists_exists in Hex. destruct Hex as [[[ts q] off] [Hin Hgt]].
      apply Exists_exists. exists ((ts, q), off). split; [|exact Hgt].
      apply (Permutation_in _ (Permutation_sym Hperm)).
      change ((ts, q), off) with (add_pair (ts, q, off)).
      apply in_map. exact Hin.
Qed.

Lemma Sequence_search_after_adds_witness :
  exists sorted : MapType,
    Permutation sorted
                (map add_pair
                     [(5, 1, 50); (3, 1, 30); (9, 1, 90); (5, 2, 52);
                      (12, 1, 120)])
    /\ StronglySorted entry_lt sorted
    /\ Sequence_search
         (add_all (Sequence_ctor 16)
                  [(5, 1, 50); (3, 1, 30); (9, 1, 90); (5, 2, 52);
                   (12, 1, 120)])
         (mkQuery 1 3 9 AKU_CURSOR_DIR_FORWARD)
       = (map put_of
              (filter (fwd_match (mkQuery 1 3 9 AKU_CURSOR_DIR_FORWARD))
                      sorted) ++ [Complete], Returned)
    /\ Sequence_search
         (add_all (Sequence_ctor 16)
                  [(5, 1, 50); (3, 1, 30); (9, 1, 90); (5, 2, 52);
                   (12, 1, 120)])
         (mkQuery 1 3 9 AKU_CURSOR_DIR_BACKWARD)
       = (map put_of
              (rev (filter (bwd_match (mkQuery 1 3 9 AKU_CURSOR_DIR_BACKWARD))
                           sorted)) ++ [Complete], Returned).
Proof.
  destruct (Sequence_search_after_adds
              16 [(5, 1, 50); (3, 1, 30); (9, 1, 90); (5, 2, 52);
                  (12, 1, 120)] 1 3 9)
    as [sorted [Hperm [Hs [Hf Hb]]]].
  - nodup_tac.
  - repeat (constructor; [unfold ParamId_ok, ParamId_max; simpl; lia|]).
    constructor.
  - lia.
  - exists sorted. split; [exact Hperm|]. split; [exact Hs|].
    split; [exact Hf|]. apply Hb.
    apply Exists_exists. exists (12, 1, 120).
    split; [simpl; tauto | simpl; lia].
Defined.

(** What the two scans deliver on that shard: 9 is left out by the forward
    scan and 3 by the backward one. *)
Example Sequence_search_sample_runs :
  Sequence_search
    (add_all (Sequence_ctor 16)
             [(5, 1, 50); (3, 1, 30); (9, 1, 90); (5, 2, 52); (12, 1, 120)])
    (mkQuery 1 3 9 AKU_CURSOR_DIR_FORWARD)
  = ([Put 30; Put 50; Complete], Returned)
  /\ Sequence_search
       (add_all (Sequence_ctor 16)
                [(5, 1, 50); (3, 1, 30); (9, 1, 90); (5, 2, 52); (12, 1, 120)])
       (mkQuery 1 3 9 AKU_CURSOR_DIR_BACKWARD)
     = ([Put 90; Put 50; Complete], Returned).
Proof. split; reflexivity. Qed.

(** C3 as stated does not hold: with the closed range, an entry whose
    timestamp equals upperbound would be delivered by a forward search,
    and an entry whose timestamp equals lowerbound by a backward one. *)
Lemma Sequence_search_closed_range_fails :
  ~ closed_range_search 16 [(5, 1, 50)] (mkQuery 1 0 5 AKU_CURSOR_DIR_FORWARD)
  /\ ~ closed_range_search 16 [(0, 1, 100); (7, 1, 107)]
                           (mkQuery 1 0 5 AKU_CURSOR_DIR_BACKWARD).
Proof.
  split.
  - intros [sorted [Hperm [_ [Hf _]]]].
    apply Permutation_sym, Permutation_length_1_inv in Hperm. subst sorted.
    specialize (Hf eq_refl). vm_compute in Hf. discriminate Hf.
  - intros [sorted [Hperm [_ [_ Hb]]]].
    specialize (Hb eq_refl).
    assert (Hin : In (add_pair (0, 1, 100)) sorted).
    { apply (Permutation_in _ (Permutation_sym Hperm)). left. reflexivity. }
    assert (Hput : In (Put 100)
                      (map put_of
                           (rev (filter
                                   (closed_match
                                      (mkQuery 1 0 5 AKU_CURSOR_DIR_BACKWARD))
                                   sorted)) ++ [Complete])).
    { apply in_or_app. left.
      change (Put 100) with (put_of (add_pair (0, 1, 100))).
      apply in_map. apply -> in_rev. apply filter_In.
      split; [exact Hin | reflexivity]. }
    assert (Hev : fst (Sequence_search
                         (add_all (Sequence_ctor 16)
                                  [(0, 1, 100); (7, 1, 107)])
                         (mkQuery 1 0 5 AKU_CURSOR_DIR_BACKWARD))
                  = [Complete]) by reflexivity.
    rewrite Hb in Hev. simpl in Hev. rewrite Hev in Hput.
    destruct Hput as [Hc | []]. discriminate Hc.
Qed.

(** ** Bad arguments and completion *)

(** A query whose direction is neither constant, or whose bounds are
    reversed, gets the bad-argument error on the cursor and nothing else. *)
Lemma Sequence_search_bad_arg (s : Sequence) (q : SingleParameterSearchQuery) :
  (direction q <> AKU_CURSOR_DIR_FORWARD
   /\ direction q <> AKU_CURSOR_DIR_BACKWARD)
  \/ upperbound q < lowerbound q ->
  Sequence_search s q = ([SetError AKU_EBAD_ARG], Returned).
Proof.
  intros [[Hf Hb] | Hlt]; unfold Sequence_search.
  - apply Z.eqb_neq in Hf. apply Z.eqb_neq in Hb.
    rewrite Hf, Hb. simpl. rewrite orb_true_r. reflexivity.
  - apply Z.ltb_lt in Hlt. rewrite Hlt. reflexivity.
Qed.

Lemma forward_loop_only_puts q hi (l : MapType) :
  completions (forward_loop q hi l) = 0%nat.
Proof.
  induction l as [|[k v] l IH]; simpl; [reflexivity|].
  destruct (fst k >=? hi); [reflexivity|].
  destruct (snd k =? param q); simpl; exact IH.
Qed.

(** A valid forward query completes exactly once, whatever the shard
    holds. *)
Lemma Sequence_search_forward_completes (s : Sequence)
      (q : SingleParameterSearchQuery) :
  direction q = AKU_CURSOR_DIR_FORWARD ->
  lowerbound q <= upperbound q ->
  snd (Sequence_search s q) = Returned
  /\ completions (fst (Sequence_search s q)) = 1%nat.
Proof.
  intros Hdir Hrange. unfold Sequence_search.
  replace (upperbound q <? lowerbound q) with false
    by (symmetry; apply Z.ltb_ge; exact Hrange).
  rewrite Hdir. simpl. split; [reflexivity|].
  unfold completions in *. rewrite filter_app, length_app.
  fold (completions (forward_loop q (upperbound q)
                       (skipn (lower_bound (lowerbound q, 0) (data_ s))
                              (data_ s)))).
  rewrite forward_loop_only_puts. reflexivity.
Qed.

Lemma completions_app (a b : list CursorEvent) :
  completions (a ++ b) = (completions a + completions b)%nat.
Proof. unfold completions. rewrite filter_app, length_app. reflexivity. Qed.

Lemma backward_loop_returns (m : MapType) (q : SingleParameterSearchQuery)
      (hi lo : TimeStamp) (i : nat) :
  (i < length m)%nat ->
  snd (backward_loop m q hi lo i) = Returned
  /\ completions (fst (backward_loop m q hi lo i)) = 0%nat.
Proof.
  induction i as [|i IH]; intros Hlt; cbn [backward_loop].
  - destruct (nth_error m 0) as [[k v]|] eqn:En.
    + destruct (fst k <=? lo); [split; reflexivity|].
      destruct ((snd k =? param q) && (fst k <=? hi)); split; reflexivity.
    + apply nth_error_None in En. lia.
  - destruct (nth_error m (S i)) as [[k v]|] eqn:En.
    + destruct (fst k <=? lo); [split; reflexivity|].
      destruct IH as [Hret Hcompl]; [lia|].
      destruct (backward_loop m q hi lo i) as [rest out].
      simpl in Hret, Hcompl. subst out. cbn [fst snd].
      split; [reflexivity|].
      rewrite completions_app, Hcompl.
      destruct ((snd k =? param q) && (fst k <=? hi)); reflexivity.
    + apply nth_error_None in En. lia.
Qed.

(** A valid backward query whose scan starts on an element of the map
    completes exactly once. *)
Lemma Sequence_search_backward_completes (s : Sequence)
      (q : SingleParameterSearchQuery) :
  direction q = AKU_CURSOR_DIR_BACKWARD ->
  lowerbound q <= upperbound q ->
  (upper_bound (upperbound q, ParamId_max) (data_ s) < length (data_ s))%nat ->
  snd (Sequence_search s q) = Returned
  /\ completions (fst (Sequence_search s q)) = 1%nat.
Proof.
  intros Hdir Hrange Hpos. unfold Sequence_search.
  replace (upperbound q <? lowerbound q) with false
    by (symmetry; apply Z.ltb_ge; exact Hrange).
  rewrite Hdir.
  change (AKU_CURSOR_DIR_BACKWARD =? AKU_CURSOR_DIR_FORWARD) with false.
  change (AKU_CURSOR_DIR_BACKWARD =? AKU_CURSOR_DIR_BACKWARD) with true.
  cbv [xorb negb orb].
  destruct (backward_loop_returns (data_ s) q (upperbound q) (lowerbound q)
              _ Hpos) as [Hret Hcompl].
  destruct (backward_loop (data_ s) q (upperbound q) (lowerbound q) _)
    as [evs out].
  simpl in Hret, Hcompl. subst out. cbn [fst snd].
  split; [reflexivity|].
  rewrite completions_app, Hcompl. reflexivity.
Qed.


Lemma backward_loop_at_end (m : MapType) (q : SingleParameterSearchQuery)
      (hi lo : TimeStamp) (i : nat) :
  nth_error m i = None -> backward_loop m q hi lo i = ([], InvalidDeref).
Proof. intros H. destruct i; cbn [backward_loop]; rewrite H; reflexivity. Qed.

(** C10, refuted in general: a valid backward query on a shard none of
    whose timestamps lies above upperbound (the empty shard included)
    dereferences the iterator [upper_bound] returned, which is [end()]. *)
Theorem Sequence_search_backward_derefs_end :
  forall (s : Sequence) (q : SingleParameterSearchQuery),
    direction q = AKU_CURSOR_DIR_BACKWARD ->
    lowerbound q <= upperbound q ->
    Forall (fun x => entry_ts x <= upperbound q
                     /\ entry_param x <= ParamId_max) (data_ s) ->
    nth_error (data_ s) (upper_bound (upperbound q, ParamId_max) (data_ s))
    = None
    /\ Sequence_search s q = ([], InvalidDeref).
Proof.
  intros s q Hdir Hrange Hall.
  pose proof (upper_bound_end (upperbound q) (data_ s) Hall) as Hub.
  assert (Hnone : nth_error (data_ s) (length (data_ s)) = None)
    by (apply nth_error_None; lia).
  split; [rewrite Hub; exact Hnone|].
  unfold Sequence_search.
  replace (upperbound q <? lowerbound q) with false
    by (symmetry; apply Z.ltb_ge; exact Hrange).
  rewrite Hdir.
  change (AKU_CURSOR_DIR_BACKWARD =? AKU_CURSOR_DIR_FORWARD) with false.
  change (AKU_CURSOR_DIR_BACKWARD =? AKU_CURSOR_DIR_BACKWARD) with true.
  cbv [xorb negb orb].
  rewrite backward_loop_at_end; [reflexivity|].
  rewrite Hub. exact Hnone.
Qed.

Lemma Sequence_search_backward_derefs_end_witness :
  nth_error (data_ (Sequence_ctor 16))
            (upper_bound (upperbound (mkQuery 1 0 10 AKU_CURSOR_DIR_BACKWARD),
                          ParamId_max)
                         (data_ (Sequence_ctor 16))) = None
  /\ Sequence_search (Sequence_ctor 16)
                     (mkQuery 1 0 10 AKU_CURSOR_DIR_BACKWARD)
     = ([], InvalidDeref).
Proof.
  apply (Sequence_search_backward_derefs_end
           (Sequence_ctor 16) (mkQuery 1 0 10 AKU_CURSOR_DIR_BACKWARD)).
  - reflexivity.
  - simpl. lia.
  - simpl. constructor.
Defined.

(** ** Claims on Bucket *)

(** C6. A bucket whose state counter is 0 is refused by merge: the result
    is the busy error and the cursor receives nothing, whatever the
    bucket holds, whatever the page and the build. *)
Theorem Bucket_merge_live_busy :
  forall (ndebug : bool) (b : Bucket) (page : PageReader),
    state b = 0 ->
    Bucket_merge ndebug b page = ([], Ok AKU_EBUSY).
Proof.
  intros ndebug b page Hst. unfold Bucket_merge. rewrite Hst. reflexivity.
Qed.

Lemma Bucket_merge_live_busy_witness :
  Bucket_merge true (Bucket_ctor 2 16 0) sample_page = ([], Ok AKU_EBUSY).
Proof.
  apply (Bucket_merge_live_busy true (Bucket_ctor 2 16 0) sample_page).
  reflexivity.
Defined.

(** No operation of the file writes [rrindex_]: it is 0 from the
    constructor on. *)
Lemma Bucket_ctor_rrindex (n : nat) (max_size base : Z) :
  rrindex_ (Bucket_ctor n max_size base) = 0.
Proof. reflexivity. Qed.

Lemma Bucket_add_rrindex (e : Env) (b b' : Bucket) ts pid off (st : Status) :
  Bucket_add e b ts pid off = Ok (st, b') -> rrindex_ b' = rrindex_ b.
Proof.
  unfold Bucket_add. destruct (length (seq_ b)); [discriminate|].
  destruct (nth_error (seq_ b) _); [|discriminate].
  destruct (Sequence_add e s ts pid off) as [st' s'].
  intros H. inversion H. reflexivity.
Qed.

Lemma retire_rrindex (b : Bucket) : rrindex_ (retire b) = rrindex_ b.
Proof. reflexivity. Qed.

(** The fast path of merge: a retired bucket whose [rrindex_] is 0 is
    taken for empty. *)
Lemma Bucket_merge_fast_path (ndebug : bool) (b : Bucket) (page : PageReader) :
  state b <> 0 -> rrindex_ b = 0 ->
  Bucket_merge ndebug b page = ([], Ok AKU_SUCCESS).
Proof.
  intros Hst Hrr. unfold Bucket_merge.
  apply Z.eqb_neq in Hst. rewrite Hst, Hrr. reflexivity.
Qed.

(** C1, at a retired bucket with one entry in each of its two shards: the
    page orders offset 10 before offset 20, the merged output should be
    10 then 20, and merge returns success with nothing put on the cursor. *)
Theorem Bucket_merge_retired_emits_nothing :
  exists b : Bucket,
    two_shard_bucket = Ok b
    /\ state b <> 0
    /\ map data_ (seq_ b) = [[((1, 1), 10)]; [((2, 1), 20)]]
    /\ key_lt (sample_page 10) (sample_page 20)
    /\ Bucket_merge true b sample_page = ([], Ok AKU_SUCCESS).
Proof.
  eexists. split; [reflexivity|].
  split; [simpl; lia|].
  split; [reflexivity|].
  split; [vm_compute; left; reflexivity|].
  reflexivity.
Qed.

(** Past the fast path the loop of the branch [n > 1] stops as soon as a
    single shard has elements left, so the same bucket with [rrindex_]
    set by hand loses its last entry; with asserts compiled in, the final
    assertion fails. *)
Example Bucket_merge_loop_drops_tail :
  Bucket_merge true
    (mkBucket [mkSequence 16 [((1, 1), 10)] [];
               mkSequence 16 [((2, 1), 20)] []] 1 0 1)
    sample_page
  = ([Put 10], Ok AKU_SUCCESS)
  /\ Bucket_merge false
       (mkBucket [mkSequence 16 [((1, 1), 10)] [];
                  mkSequence 16 [((2, 1), 20)] []] 1 0 1)
       sample_page
     = ([Put 10], Fail AssertionFailed).
Proof. split; reflexivity. Qed.

(** *** The bound given to the merge loop is never exhausted *)





(** ** Claims on Cache *)

Lemma find_if_none {A : Type} (f : A -> bool) (l : list A) :
  Forall (fun x => f x = false) l -> find_if f l = None.
Proof.
  induction l as [|x l IH]; simpl; intros Hall; [reflexivity|].
  inversion Hall as [|? ? Hx Hl]; subst.
  rewrite Hx, (IH Hl). reflexivity.
Qed.




(** Both lists of a cache are only relinked by [allocate_from_free_list]:
    when the free list is long enough, the buckets that enter the window
    are the first ones of the free list, as they are. *)
Lemma Cache_allocate_relinks (cfg : Config) (c : Cache) (nnew base : Z) :
  0 <= nnew <= Z.of_nat (length (free_list_ c)) ->
  Cache_allocate_from_free_list cfg c nnew base
  = Ok (with_lists c
          (firstn (Z.to_nat nnew) (free_list_ c) ++ cache_ c)
          (skipn (Z.to_nat nnew) (free_list_ c))).
Proof.
  intros [H0 Hn]. unfold Cache_allocate_from_free_list.
  replace (nnew <? 0) with false by (symmetry; apply Z.ltb_ge; exact H0).
  replace (Z.of_nat (length (free_list_ c)) <? nnew) with false
    by (symmetry; apply Z.ltb_ge; exact Hn).
  reflexivity.
Qed.

(** C7, at a bucket that comes back from the free list: the fresh cache
    stores offset 42 in its front bucket, is cleared, and the next slide
    relinks that bucket as the front of the window. It is live, it still
    has baseline 0 while the cache baseline is 1, it still holds the
    entry, and a search of it delivers offset 42. *)
Theorem Cache_reuse_keeps_stale_entries :
  exists (c : Cache) (b : Bucket),
    reuse_after_clear = Ok (AKU_EGENERAL, c)
    /\ cache_ c = [b]
    /\ state b = 0
    /\ baseline b = 0
    /\ baseline_ c = 1
    /\ bucket_entries b = [((5, 1), 42)]
    /\ Bucket_search b (mkQuery 1 0 100 AKU_CURSOR_DIR_FORWARD)
       = ([Put 42; Complete; Complete], Returned).
Proof.
  eexists. eexists.
  split; [vm_compute; reflexivity|].
  split; [reflexivity|].
  repeat split; reflexivity.
Qed.

(** [mark_last] does not look at the state of the buckets it marks. *)
Lemma mark_last_all (l : list Bucket) :
  mark_last l (Z.of_nat (length l)) = Ok (map retire l).
Proof.
  unfold mark_last.
  replace ((0 <=? Z.of_nat (length l))
           && (Z.of_nat (length l) <=? Z.of_nat (length l))) with true
    by (symmetry; apply andb_true_iff; split; apply Z.leb_le; lia).
  rewrite Z.sub_diag. reflexivity.
Qed.

Lemma retire_state (b : Bucket) : state (retire b) = state b + 1.
Proof. reflexivity. Qed.

(** C9, at two slides of one bucket each on a fresh cache: the first one
    retires the bucket of baseline 7 (state 0 to 1), the second one
    retires the bucket of baseline 6 and increments the bucket of
    baseline 7 again (state 1 to 2). *)
Theorem Cache_slide_increments_retired_bucket :
  exists c1 c2 : Cache,
    two_slides = Ok (c1, c2)
    /\ map (fun b => (baseline b, state b)) (cache_ c1)
       = [(8, 0); (0, 0); (1, 0); (2, 0); (3, 0); (4, 0); (5, 0); (6, 0);
          (7, 1)]
    /\ map (fun b => (baseline b, state b)) (cache_ c2)
       = [(9, 0); (8, 0); (0, 0); (1, 0); (2, 0); (3, 0); (4, 0); (5, 0);
          (6, 1); (7, 2)].
Proof.
  eexists. eexists.
  split; [vm_compute; reflexivity|].
  split; reflexivity.
Qed.

(** C2, at nine slides of one bucket each on a fresh cache of capacity 8:
    after each slide the window has 8 live buckets; the retired buckets
    number 1, 2, ..., 9 while the cumulative swapped count reads
    1, 3, 6, ..., 45. *)
Theorem Cache_slide_swapped_count_overcounts :
  exists c : Cache,
    Cache_ctor sample_cfg 1024 100 = Ok c
    /\ slide_trace sample_cfg 9 c 0
       = Ok [(8%nat, 1%nat, 1); (8%nat, 2%nat, 3); (8%nat, 3%nat, 6);
             (8%nat, 4%nat, 10); (8%nat, 5%nat, 15); (8%nat, 6%nat, 21);
             (8%nat, 7%nat, 28); (8%nat, 8%nat, 36); (8%nat, 9%nat, 45)].
Proof.
  eexists. split; vm_compute; reflexivity.
Qed.

(** ** The half of the window bound that holds *)

Lemma live_count_le_length (l : list Bucket) :
  (length (filter live l) <= length l)%nat.
Proof. apply filter_length_le. Qed.

Lemma retired_not_live (l : list Bucket) :
  Forall (fun b => 0 <= state b) l ->
  filter live (map retire l) = [].
Proof.
  induction l as [|b l IH]; simpl; intros Hall; [reflexivity|].
  inversion Hall as [|? ? Hb Hl]; subst.
  unfold live at 1. simpl.
  replace (state b + 1 =? 0) with false by (symmetry; apply Z.eqb_neq; lia).
  apply IH. exact Hl.
Qed.

Lemma list_update_states (l : list Bucket) (i : nat) (b b' : Bucket) :
  nth_error l i = Some b -> state b' = state b ->
  map state (list_update l i b') = map state l.
Proof.
  revert i. induction l as [|x l IH]; intros [|i] Hn Hst; simpl in *;
    try discriminate.
  - inversion Hn; subst. rewrite Hst. reflexivity.
  - f_equal. apply IH; assumption.
Qed.

Lemma live_count_states (l : list Bucket) :
  length (filter live l)
  = length (filter (fun s => s =? 0) (map state l)).
Proof.
  induction l as [|x l IH]; simpl; [reflexivity|].
  unfold live at 1. destruct (state x =? 0); simpl; rewrite IH; reflexivity.
Qed.

Lemma live_by_states (l l' : list Bucket) :
  map state l = map state l' ->
  length (filter live l) = length (filter live l').
Proof.
  intros H. rewrite !live_count_states, H. reflexivity.
Qed.

Lemma Bucket_add_state (e : Env) (b b' : Bucket) ts pid off (st : Status) :
  Bucket_add e b ts pid off = Ok (st, b') -> state b' = state b.
Proof.
  unfold Bucket_add. destruct (length (seq_ b)); [discriminate|].
  destruct (nth_error (seq_ b) _); [|discriminate].
  destruct (Sequence_add e s ts pid off) as [st' s'].
  intros H. inversion H. reflexivity.
Qed.

Lemma add_to_target_live (e : Env) (c c' : Cache) (i : nat) ts pid off
      (n n' : Z) (st : Status) :
  add_to_target e c i ts pid off n = Ok (st, c', n') ->
  live_count c' = live_count c /\ n' = n.
Proof.
  unfold add_to_target.
  destruct (nth_error (cache_ c) i) as [b|] eqn:En; [|discriminate].
  destruct (Bucket_add e b ts pid off) as [[st' b']|] eqn:Eb;
    simpl; [|discriminate].
  intros H. inversion H; subst. split; [|reflexivity].
  unfold live_count. simpl. apply live_by_states.
  eapply list_update_states; [exact En|].
  eapply Bucket_add_state. exact Eb.
Qed.

Lemma mark_last_live (l marked : list Bucket) (n : Z) :
  Forall (fun b => 0 <= state b) l ->
  mark_last l n = Ok marked ->
  Z.of_nat (length (filter live marked)) <= Z.of_nat (length l) - n.
Proof.
  intros Hall. unfold mark_last.
  destruct ((0 <=? n) && (n <=? Z.of_nat (length l))) eqn:E; [|discriminate].
  apply andb_true_iff in E. destruct E as [E0 En].
  apply Z.leb_le in E0. apply Z.leb_le in En.
  intros H. inversion H; subst. clear H.
  rewrite filter_app, length_app, retired_not_live.
  - simpl. rewrite Nat.add_0_r.
    pose proof (live_count_le_length
                  (firstn (Z.to_nat (Z.of_nat (length l) - n)) l)) as Hle.
    rewrite length_firstn in Hle. lia.
  - rewrite <- (firstn_skipn (Z.to_nat (Z.of_nat (length l) - n)) l) in Hall.
    apply Forall_app in Hall. tauto.
Qed.

Lemma Cache_allocate_live (cfg : Config) (c c' : Cache) (nnew base : Z) :
  Cache_allocate_from_free_list cfg c nnew base = Ok c' ->
  Z.of_nat (live_count c') <= nnew + Z.of_nat (live_count c).
Proof.
  unfold Cache_allocate_from_free_list.
  destruct (nnew <? 0) eqn:E0; [discriminate|].
  apply Z.ltb_ge in E0.
  intros H. inversion H; subst. clear H.
  unfold live_count. simpl.
  rewrite filter_app, length_app.
  match goal with
  | |- context [filter live (firstn ?k ?l)] =>
      pose proof (live_count_le_length (firstn k l)) as Hle;
      pose proof (firstn_le_length k l) as Hk
  end.
  lia.
Qed.

(** A slide by fewer buckets than the capacity, on a window whose state
    counters are not negative, leaves at most [AKU_LIMITS_MAX_CACHES] live
    buckets in the window. *)
Lemma Cache_slide_live_bound (cfg : Config) (e : Env) (c c' : Cache)
      ts pid off (n n' : Z) (st : Status) :
  Forall (fun b => 0 <= state b) (cache_ c) ->
  0 < Z.shiftr ts (shift_ c) - baseline_ c < AKU_LIMITS_MAX_CACHES cfg ->
  Cache_add_entry_ cfg e c ts pid off n = Ok (st, c', n') ->
  Z.of_nat (live_count c') <= AKU_LIMITS_MAX_CACHES cfg.
Proof.
  intros Hst [Hpos Hsmall]. unfold Cache_add_entry_.
  replace (baseline_ c - Z.shiftr ts (shift_ c) >=? 0) with false
    by (symmetry; destruct (Z.geb_spec (baseline_ c - Z.shiftr ts (shift_ c)) 0);
        [lia | reflexivity]).
  replace (0 - (baseline_ c - Z.shiftr ts (shift_ c))
           >=? AKU_LIMITS_MAX_CACHES cfg) with false
    by (symmetry;
        destruct (Z.geb_spec (0 - (baseline_ c - Z.shiftr ts (shift_ c)))
                             (AKU_LIMITS_MAX_CACHES cfg));
        [lia | reflexivity]).
  set (count := 0 - (baseline_ c - Z.shiftr ts (shift_ c))).
  set (c1 := with_baseline c (Z.shiftr ts (shift_ c))).
  set (freeslots := AKU_LIMITS_MAX_CACHES cfg - count).
  assert (Hbound : forall r1 c2,
             (if freeslots <? Z.of_nat (length (cache_ c1))
              then
                marked <- mark_last (cache_ c1)
                            (Z.of_nat (length (cache_ c1)) - freeslots) ;;
                Ok (with_lists c1 marked (free_list_ c1),
                    n + (Z.of_nat (length (cache_ c1)) - freeslots))
              else Ok (c1, n)) = Ok r1 ->
             Cache_allocate_from_free_list cfg (fst r1) count
               (baseline_ c1 - count) = Ok c2 ->
             Z.of_nat (live_count c2) <= AKU_LIMITS_MAX_CACHES cfg).
  { intros r1 c2 Hr1 Hc2.
    apply Cache_allocate_live in Hc2.
    assert (Hlive1 : Z.of_nat (live_count (fst r1)) <= freeslots).
    { destruct (freeslots <? Z.of_nat (length (cache_ c1))) eqn:Ef.
      - destruct (mark_last (cache_ c1)
                            (Z.of_nat (length (cache_ c1)) - freeslots))
          as [marked|] eqn:Em; simpl in Hr1; [|discriminate].
        inversion Hr1; subst. clear Hr1.
        apply mark_last_live in Em; [|exact Hst].
        unfold live_count. simpl. lia.
      - apply Z.ltb_ge in Ef. inversion Hr1; subst. clear Hr1.
        pose proof (live_count_le_length (cache_ c1)) as Hle.
        unfold live_count. simpl in *. lia. }
    unfold freeslots in Hlive1. lia. }
  destruct (if freeslots <? Z.of_nat (length (cache_ c1))
            then
              marked <- mark_last (cache_ c1)
                          (Z.of_nat (length (cache_ c1)) - freeslots) ;;
              Ok (with_lists c1 marked (free_list_ c1),
                  n + (Z.of_nat (length (cache_ c1)) - freeslots))
            else Ok (c1, n)) as [r1|] eqn:Er1; cbn [bind]; [|discriminate].
  destruct (Cache_allocate_from_free_list cfg (fst r1) count
              (baseline_ c1 - count)) as [c2|] eqn:Ec2; cbn [bind fst snd];
    [|discriminate].
  specialize (Hbound r1 c2 eq_refl Ec2).
  destruct (find_if (is_target (Z.shiftr ts (shift_ c))) (cache_ c2))
    as [i|] eqn:Efind.
  - intros Hadd. apply add_to_target_live in Hadd.
    destruct Hadd as [Hl _]. rewrite Hl. exact Hbound.
  - intros H. inversion H; subst. exact Hbound.
Qed.

(** A jump of the baseline by the capacity or more marks only the last
    [AKU_LIMITS_MAX_CACHES] buckets of the list: after one slide by one
    bucket and one by eight, the window of capacity 8 holds 9 live
    buckets. *)
Example Cache_jump_exceeds_capacity :
  exists (c0 c1 c2 : Cache) (st1 st2 : Status) (n1 n2 : Z),
    Cache_ctor sample_cfg 1024 100 = Ok c0
    /\ Cache_add_entry_ sample_cfg (uncontended 0) c0 1024 1 10 0
       = Ok (st1, c1, n1)
    /\ Cache_add_entry_ sample_cfg (uncontended 0) c1 (9 * 1024) 1 20 n1
       = Ok (st2, c2, n2)
    /\ live_count c2 = 9%nat.
Proof.
  do 7 eexists.
  split; [vm_compute; reflexivity|].
  split; [vm_compute; reflexivity|].
  split; [vm_compute; reflexivity|].
  reflexivity.
Qed.

(** * Further properties of the code *)

(** ** Sequence::add *)

Lemma map_find_insert_new (k : Key) (v : EntryOffset) (m : MapType) :
  map_find k m = None -> map_find k (map_insert k v m) = Some v.
Proof.
  induction m as [|[k0 v0] m IH]; simpl.
  - intros _. assert (E : key_ltb k k = false)
      by (apply key_ltb_false; apply key_lt_irrefl).
    rewrite E. reflexivity.
  - destruct (key_ltb k k0) eqn:E1.
    + intros _. simpl.
      assert (E : key_ltb k k = false)
        by (apply key_ltb_false; apply key_lt_irrefl).
      rewrite E. reflexivity.
    + destruct (key_ltb k0 k) eqn:E2; [|discriminate].
      intros Hf. simpl. rewrite E1, E2. apply IH. exact Hf.
Qed.

Lemma map_find_insert_other (k k' : Key) (v : EntryOffset) (m : MapType) :
  k <> k' -> map_find k m = None -> map_find k (map_insert k' v m) = None.
Proof.
  intros Hne. induction m as [|[k0 v0] m IH]; simpl.
  - intros _. destruct (key_ltb k k') eqn:E1; [reflexivity|].
    destruct (key_ltb k' k) eqn:E2; [reflexivity|].
    exfalso. apply Hne. apply key_total; apply key_ltb_false; assumption.
  - destruct (key_ltb k k0) eqn:E1.
    + intros _. destruct (key_ltb k' k0) eqn:E3; simpl.
      * destruct (key_ltb k k') eqn:E4; [reflexivity|].
        destruct (key_ltb k' k) eqn:E5; [rewrite E1; reflexivity|].
        exfalso. apply Hne. apply key_total; apply key_ltb_false; assumption.
      * destruct (key_ltb k0 k'); simpl; rewrite E1; reflexivity.
    + destruct (key_ltb k0 k) eqn:E2; [|discriminate].
      intros Hf. destruct (key_ltb k' k0) eqn:E3; simpl.
      * apply key_ltb_spec in E3. apply key_ltb_spec in E2.
        assert (E4 : key_ltb k k' = false) by (apply key_ltb_false; key_lia).
        assert (E5 : key_ltb k' k = true) by (apply key_ltb_spec; key_lia).
        assert (E6 : key_ltb k0 k = true) by (apply key_ltb_spec; key_lia).
        rewrite E4, E5, E1, E6. exact Hf.
      * destruct (key_ltb k0 k'); simpl; rewrite E1, E2;
          [apply IH; exact Hf | exact Hf].
Qed.

Lemma map_insert_length_new (k : Key) (v : EntryOffset) (m : MapType) :
  map_find k m = None -> length (map_insert k v m) = S (length m).
Proof.
  induction m as [|[k0 v0] m IH]; simpl; [reflexivity|].
  destruct (key_ltb k k0); [reflexivity|].
  destruct (key_ltb k0 k); [|discriminate].
  intros Hf. simpl. rewrite (IH Hf). reflexivity.
Qed.

Lemma map_insert_length_le (k : Key) (v : EntryOffset) (m : MapType) :
  (length m <= length (map_insert k v m))%nat.
Proof.
  induction m as [|[k0 v0] m IH]; simpl; [lia|].
  destruct (key_ltb k k0); [simpl; lia|].
  destruct (key_ltb k0 k); simpl; lia.
Qed.

Lemma drain_length_le tmp (m : MapType) :
  (length m <= length (drain tmp m))%nat.
Proof.
  unfold drain. revert m.
  induction tmp as [|[[ts p] off] tmp IH]; simpl; intros m; [lia|].
  eapply Nat.le_trans; [apply (map_insert_length_le (ts, p) off)|apply IH].
Qed.

(** X1. An add that gets the primary lock, with nothing to drain, of a key
    the map does not hold: afterwards the key is bound to the added
    offset and the shard is one element larger. *)
Theorem Sequence_add_new_key :
  forall (e : Env) (s : Sequence) (ts : TimeStamp) (p : ParamId)
         (off : EntryOffset),
    obj_free e = true ->
    tmp_free e = false \/ temp_ s = [] ->
    map_find (ts, p) (data_ s) = None ->
    fst (Sequence_add e s ts p off) = AKU_WRITE_STATUS_SUCCESS
    /\ map_find (ts, p) (data_ (snd (Sequence_add e s ts p off))) = Some off
    /\ Sequence_size (snd (Sequence_add e s ts p off))
       = S (Sequence_size s).
Proof.
  intros e s ts p off Hobj Hnodrain Hnew.
  assert (Hd : (if tmp_free e then drain (temp_ s) (data_ s) else data_ s)
               = data_ s).
  { destruct Hnodrain as [Ht | Ht]; rewrite Ht; [reflexivity|].
    destruct (tmp_free e); reflexivity. }
  unfold Sequence_add, Sequence_size. rewrite Hobj. simpl. rewrite Hd.
  split; [reflexivity|]. split.
  - apply map_find_insert_new. exact Hnew.
  - apply map_insert_length_new. exact Hnew.
Qed.

Lemma Sequence_add_new_key_witness :
  fst (Sequence_add (uncontended 0)
         (add_all (Sequence_ctor 16) [(5, 1, 50); (3, 2, 30)]) 4 1 40)
  = AKU_WRITE_STATUS_SUCCESS
  /\ map_find (4, 1)
       (data_ (snd (Sequence_add (uncontended 0)
                      (add_all (Sequence_ctor 16) [(5, 1, 50); (3, 2, 30)])
                      4 1 40))) = Some 40
  /\ Sequence_size
       (snd (Sequence_add (uncontended 0)
               (add_all (Sequence_ctor 16) [(5, 1, 50); (3, 2, 30)])
               4 1 40))
     = S (Sequence_size (add_all (Sequence_ctor 16) [(5, 1, 50); (3, 2, 30)])).
Proof.
  apply (Sequence_add_new_key (uncontended 0)
           (add_all (Sequence_ctor 16) [(5, 1, 50); (3, 2, 30)]) 4 1 40).
  - reflexivity.
  - right. reflexivity.
  - reflexivity.
Defined.

Lemma Sequence_add_keeps_bindings_aux (e : Env) (s : Sequence) ts p off
      (k : Key) (o : EntryOffset) :
  map_find k (data_ s) = Some o ->
  map_find k (data_ (snd (Sequence_add e s ts p off))) = Some o.
Proof.
  intros Hf. unfold Sequence_add.
  destruct (obj_free e); simpl; [|exact Hf].
  apply map_find_insert_kept.
  destruct (tmp_free e); [apply map_find_drain_kept|]; exact Hf.
Qed.

(** X2. Whatever the locks do, an add never removes or changes a binding
    of the map, whichever key it belongs to, and never makes the shard
    smaller. *)
Theorem Sequence_add_keeps_bindings :
  forall (e : Env) (s : Sequence) (ts : TimeStamp) (p : ParamId)
         (off : EntryOffset) (k : Key) (o : EntryOffset),
    map_find k (data_ s) = Some o ->
    map_find k (data_ (snd (Sequence_add e s ts p off))) = Some o
    /\ (Sequence_size s
        <= Sequence_size (snd (Sequence_add e s ts p off)))%nat.
Proof.
  intros e s ts p off k o Hf.
  unfold Sequence_add, Sequence_size.
  destruct (obj_free e); simpl; [|split; [exact Hf | lia]].
  split.
  - apply map_find_insert_kept.
    destruct (tmp_free e); [apply map_find_drain_kept|]; exact Hf.
  - eapply Nat.le_trans; [|apply map_insert_length_le].
    destruct (tmp_free e); [apply drain_length_le | lia].
Qed.

Lemma Sequence_add_keeps_bindings_witness :
  map_find (3, 2)
    (data_ (snd (Sequence_add (mkEnv 0 true true)
                   (mkSequence 16 [((3, 2), 30); ((5, 1), 50)] [(3, 2, 99)])
                   1 1 10))) = Some 30
  /\ le (Sequence_size
            (mkSequence 16 [((3, 2), 30); ((5, 1), 50)] [(3, 2, 99)]))
         (Sequence_size
            (snd (Sequence_add (mkEnv 0 true true)
                    (mkSequence 16 [((3, 2), 30); ((5, 1), 50)] [(3, 2, 99)])
                    1 1 10))).
Proof.
  apply (Sequence_add_keeps_bindings (mkEnv 0 true true)
           (mkSequence 16 [((3, 2), 30); ((5, 1), 50)] [(3, 2, 99)])
           1 1 10 (3, 2) 30).
  reflexivity.
Defined.

Lemma do_add_temp (s : Sequence) (op : AddOp) :
  temp_ (do_add s op)
  = temp_ s ++ (if obj_free (fst op) then [] else [snd op]).
Proof.
  destruct op as [e [[ts p] off]]. unfold do_add, Sequence_add. simpl.
  destruct (obj_free e); simpl; [rewrite app_nil_r|]; reflexivity.
Qed.

(** X3. The buffer of a shard is never emptied: after any run of adds it
    holds what it held before, followed by every add of the run that
    found the primary lock busy, in the order of the calls; draining
    copies the buffered entries into the map and leaves them where they
    are. *)
Theorem Sequence_run_buffer_only_grows :
  forall (ops : list AddOp) (s : Sequence),
    temp_ (run_adds s ops) = temp_ s ++ buffered ops.
Proof.
  unfold run_adds, buffered.
  induction ops as [|op ops IH]; intros s; simpl.
  - rewrite app_nil_r. reflexivity.
  - rewrite IH, do_add_temp.
    destruct (obj_free (fst op)); simpl.
    + rewrite app_nil_r. reflexivity.
    + rewrite <- app_assoc. reflexivity.
Qed.




(** ** Sequence copy constructor *)

(** X5. A copy of a shard answers every search as the original and has
    its size, but it does not take the buffer over: an add that was
    buffered in the original is never seen in the copy, whatever is added
    to the copy afterwards under another key. *)
Theorem Sequence_copy_drops_buffer :
  forall (e1 e2 : Env) (s : Sequence) (ts : TimeStamp) (p : ParamId)
         (off : EntryOffset) (ts' : TimeStamp) (p' : ParamId)
         (off' : EntryOffset),
    obj_free e1 = false ->
    map_find (ts, p) (data_ s) = None ->
    (ts, p) <> (ts', p') ->
    (forall q, Sequence_search (Sequence_copy s) q = Sequence_search s q)
    /\ Sequence_size (Sequence_copy s) = Sequence_size s
    /\ map_find (ts, p)
         (data_ (snd (Sequence_add e2
                        (Sequence_copy (snd (Sequence_add e1 s ts p off)))
                        ts' p' off'))) = None.
Proof.
  intros e1 e2 s ts p off ts' p' off' Hbusy Hnew Hne.
  split; [intros q; reflexivity|]. split; [reflexivity|].
  unfold Sequence_add. rewrite Hbusy. simpl.
  destruct (obj_free e2); simpl; [|exact Hnew].
  apply map_find_insert_other; [exact Hne|].
  destruct (tmp_free e2); exact Hnew.
Qed.

Lemma Sequence_copy_drops_buffer_witness :
  (forall q, Sequence_search (Sequence_copy (Sequence_ctor 16)) q
             = Sequence_search (Sequence_ctor 16) q)
  /\ Sequence_size (Sequence_copy (Sequence_ctor 16))
     = Sequence_size (Sequence_ctor 16)
  /\ map_find (7, 1)
       (data_ (snd (Sequence_add (mkEnv 0 true true)
                      (Sequence_copy
                         (snd (Sequence_add (mkEnv 0 false true)
                                 (Sequence_ctor 16) 7 1 70)))
                      8 1 80))) = None.
Proof.
  apply (Sequence_copy_drops_buffer
           (mkEnv 0 false true) (mkEnv 0 true true) (Sequence_ctor 16)
           7 1 70 8 1 80).
  - reflexivity.
  - reflexivity.
  - intros H. inversion H.
Defined.

(** ** Sequence::search *)

Lemma bad_query_test (q : SingleParameterSearchQuery) :
  (upperbound q <? lowerbound q)
  || negb (xorb (direction q =? AKU_CURSOR_DIR_FORWARD)
                (direction q =? AKU_CURSOR_DIR_BACKWARD)) = true
  <-> bad_query q.
Proof.
  unfold bad_query. rewrite orb_true_iff, Z.ltb_lt.
  destruct (Z.eqb_spec (direction q) AKU_CURSOR_DIR_FORWARD) as [Hf|Hf];
    destruct (Z.eqb_spec (direction q) AKU_CURSOR_DIR_BACKWARD) as [Hb|Hb];
    simpl.
  - rewrite Hf in Hb. discriminate Hb.
  - split; [intros [H|H]; [left; exact H | discriminate]|].
    intros [H|[H _]]; [left; exact H | contradiction].
  - split; [intros [H|H]; [left; exact H | discriminate]|].
    intros [H|[_ H]]; [left; exact H | contradiction].
  - split; [intros [H|_]; [left; exact H | right; split; assumption]|].
    intros _. right. reflexivity.
Qed.

Lemma forward_loop_all_puts q hi (l : MapType) :
  Forall is_put (forward_loop q hi l).
Proof.
  induction l as [|[k v] l IH]; simpl; [constructor|].
  destruct (fst k >=? hi); [constructor|].
  destruct (snd k =? param q); simpl; [constructor; [exact I|]|]; exact IH.
Qed.

Lemma backward_loop_all_puts (m : MapType) q hi lo (i : nat) :
  Forall is_put (fst (backward_loop m q hi lo i)).
Proof.
  induction i as [|i IH]; cbn [backward_loop].
  - destruct (nth_error m 0) as [[k v]|]; [|constructor].
    destruct (fst k <=? lo); [constructor|].
    destruct ((snd k =? param q) && (fst k <=? hi)); repeat constructor.
  - destruct (nth_error m (S i)) as [[k v]|]; [|constructor].
    destruct (fst k <=? lo); [constructor|].
    destruct (backward_loop m q hi lo i) as [rest out]. cbn [fst] in *.
    apply Forall_app. split; [|exact IH].
    destruct ((snd k =? param q) && (fst k <=? hi)); repeat constructor.
Qed.

(** X6. The bad-argument error is the answer to exactly the rejected
    queries: a search reports [AKU_EBAD_ARG], alone and without
    completion, if and only if the bounds are reversed or the direction
    is neither constant; no other query ever gets an error on the
    cursor. *)
Theorem Sequence_search_error_iff :
  forall (s : Sequence) (q : SingleParameterSearchQuery),
    (bad_query q
     <-> Sequence_search s q = ([SetError AKU_EBAD_ARG], Returned))
    /\ (forall c, In (SetError c) (fst (Sequence_search s q))
                  <-> bad_query q /\ c = AKU_EBAD_ARG).
Proof.
  intros s q.
  assert (Hvalid : ~ bad_query q ->
                   forall c, ~ In (SetError c) (fst (Sequence_search s q))).
  { intros Hok c. unfold Sequence_search.
    destruct ((upperbound q <? lowerbound q)
              || negb (xorb (direction q =? AKU_CURSOR_DIR_FORWARD)
                            (direction q =? AKU_CURSOR_DIR_BACKWARD)))
      eqn:Etest.
    - exfalso. apply Hok. apply bad_query_test. exact Etest.
    - assert (Hnoerr : forall l, Forall is_put l ->
                                 ~ In (SetError c) (l ++ [Complete])).
      { intros l Hl Hin. apply in_app_or in Hin.
        destruct Hin as [Hin | [Hin | []]]; [|discriminate Hin].
        rewrite Forall_forall in Hl. apply (Hl _ Hin). }
      destruct (direction q =? AKU_CURSOR_DIR_BACKWARD).
      + pose proof (backward_loop_all_puts (data_ s) q (upperbound q)
                      (lowerbound q)
                      (upper_bound (upperbound q, ParamId_max) (data_ s)))
          as Hp.
        destruct (backward_loop (data_ s) q (upperbound q) (lowerbound q) _)
          as [evs out].
        cbn [fst] in Hp. destruct out; cbn [fst].
        * apply Hnoerr. exact Hp.
        * intros Hin. rewrite Forall_forall in Hp. apply (Hp _ Hin).
      + cbn [fst]. apply Hnoerr. apply forward_loop_all_puts. }
  assert (Hbad : bad_query q ->
                 Sequence_search s q = ([SetError AKU_EBAD_ARG], Returned)).
  { intros [Hrev | Hdir]; apply Sequence_search_bad_arg;
      [right; exact Hrev | left; exact Hdir]. }
  assert (Hdec : bad_query q \/ ~ bad_query q).
  { destruct ((upperbound q <? lowerbound q)
              || negb (xorb (direction q =? AKU_CURSOR_DIR_FORWARD)
                            (direction q =? AKU_CURSOR_DIR_BACKWARD)))
      eqn:Etest.
    - left. apply bad_query_test. exact Etest.
    - right. intros Hb. apply bad_query_test in Hb. congruence. }
  split.
  - split; [exact Hbad|].
    intros Heq. destruct Hdec as [Hb | Hok]; [exact Hb|].
    exfalso. apply (Hvalid Hok AKU_EBAD_ARG). rewrite Heq. left. reflexivity.
  - intros c. split.
    + intros Hin. destruct Hdec as [Hb | Hok].
      * split; [exact Hb|]. rewrite (Hbad Hb) in Hin.
        destruct Hin as [Heq | []]. inversion Heq. reflexivity.
      * exfalso. apply (Hvalid Hok c). exact Hin.
    + intros [Hb Hc]. subst c. rewrite (Hbad Hb). left. reflexivity.
Qed.

(** X7. A search leaves the map exactly in one situation: the query is
    valid, its direction is backward, and [upper_bound((upperbound, ~0))]
    is [end()]. Every forward search, every rejected query and every
    backward search that starts on an element return normally. *)
Theorem Sequence_search_fault_iff :
  forall (s : Sequence) (q : SingleParameterSearchQuery),
    snd (Sequence_search s q) = InvalidDeref
    <-> (direction q = AKU_CURSOR_DIR_BACKWARD
         /\ lowerbound q <= upperbound q
         /\ (length (data_ s)
             <= upper_bound (upperbound q, ParamId_max) (data_ s))%nat).
Proof.
  intros s q. unfold Sequence_search.
  destruct (Z.ltb_spec (upperbound q) (lowerbound q)) as [Hrev | Hrange];
    [simpl; split; [discriminate | intros [_ [H _]]; lia]|].
  destruct (Z.eqb_spec (direction q) AKU_CURSOR_DIR_BACKWARD) as [Hb | Hb].
  - rewrite Hb.
    change (AKU_CURSOR_DIR_BACKWARD =? AKU_CURSOR_DIR_FORWARD) with false.
    cbv [xorb negb orb].
    destruct (Nat.lt_ge_cases
                (upper_bound (upperbound q, ParamId_max) (data_ s))
                (length (data_ s))) as [Hin | Hout].
    + destruct (backward_loop_returns (data_ s) q (upperbound q)
                  (lowerbound q) _ Hin) as [Hret _].
      destruct (backward_loop (data_ s) q (upperbound q) (lowerbound q) _)
        as [evs out].
      simpl in Hret. subst out. simpl.
      split; [discriminate | intros [_ [_ H]]; lia].
    + rewrite backward_loop_at_end by (apply nth_error_None; exact Hout).
      simpl. split; [intros _; repeat split; assumption | reflexivity].
  - destruct (direction q =? AKU_CURSOR_DIR_FORWARD); simpl;
      (split; [discriminate | intros [H _]; contradiction]).
Qed.

Lemma map_insert_Forall (P : Key * EntryOffset -> Prop) (k : Key)
      (v : EntryOffset) (m : MapType) :
  P (k, v) -> Forall P m -> Forall P (map_insert k v m).
Proof.
  intros Hk. induction m as [|[k0 v0] m IH]; simpl; intros Hall.
  - constructor; [exact Hk | constructor].
  - inversion Hall as [|? ? H0 Hm]; subst.
    destruct (key_ltb k k0); [constructor; assumption|].
    destruct (key_ltb k0 k); [constructor; [exact H0 | apply IH; exact Hm]|].
    exact Hall.
Qed.

Lemma drain_Forall (P : Key * EntryOffset -> Prop) tmp (m : MapType) :
  Forall (fun t => P (add_pair t)) tmp -> Forall P m ->
  Forall P (drain tmp m).
Proof.
  unfold drain. revert m.
  induction tmp as [|[[ts p] off] tmp IH]; simpl; intros m Ht Hm;
    [exact Hm|].
  inversion Ht as [|? ? H0 Ht']; subst.
  apply IH; [exact Ht'|]. apply map_insert_Forall; [exact H0 | exact Hm].
Qed.

Lemma Sequence_ctor_wf (cap : Z) : Sequence_wf (Sequence_ctor cap).
Proof. repeat split; constructor. Qed.

Lemma Sequence_add_wf (e : Env) (s : Sequence) ts p off :
  Sequence_wf s -> ParamId_ok p ->
  Sequence_wf (snd (Sequence_add e s ts p off)).
Proof.
  intros [Hs [Hd Ht]] Hp. split; [|split].
  - apply Sequence_add_data_sorted. exact Hs.
  - unfold Sequence_add. destruct (obj_free e); simpl; [|exact Hd].
    apply map_insert_Forall; [exact Hp|].
    destruct (tmp_free e); [|exact Hd].
    apply drain_Forall; [|exact Hd].
    eapply Forall_impl; [|exact Ht]. intros [[ts0 p0] off0] H. exact H.
  - unfold Sequence_add. destruct (obj_free e); simpl; [exact Ht|].
    apply Forall_app. split; [exact Ht|].
    constructor; [exact Hp | constructor].
Qed.

Lemma run_adds_wf (ops : list AddOp) (s : Sequence) :
  Sequence_wf s ->
  Forall (fun op => ParamId_ok (snd (fst (snd op)))) ops ->
  Sequence_wf (run_adds s ops).
Proof.
  unfold run_adds. revert s.
  induction ops as [|op ops IH]; simpl; intros s Hwf Hops; [exact Hwf|].
  inversion Hops as [|? ? Hop Hops']; subst.
  apply IH; [|exact Hops'].
  unfold do_add. apply Sequence_add_wf; assumption.
Qed.

Lemma Sequence_search_forward_wf (s : Sequence) (p : ParamId)
      (lo hi : TimeStamp) :
  Sequence_wf s -> lo <= hi ->
  Sequence_search s (mkQuery p lo hi AKU_CURSOR_DIR_FORWARD)
  = (map put_of
         (filter (fwd_match (mkQuery p lo hi AKU_CURSOR_DIR_FORWARD))
                 (data_ s)) ++ [Complete], Returned).
Proof.
  intros [Hs [Hd _]] Hrange.
  unfold Sequence_search. cbn [upperbound lowerbound direction].
  replace (hi <? lo) with false by (symmetry; apply Z.ltb_ge; exact Hrange).
  simpl.
  rewrite (forward_from_lower_bound
             (mkQuery p lo hi AKU_CURSOR_DIR_FORWARD));
    [reflexivity | exact Hs |].
  eapply Forall_impl; [|exact Hd]. intros x [Hx _]. exact Hx.
Qed.

(** X8. On a shard reached from the constructor by any run of adds,
    whatever the locks did, the map is in key order and a search is a
    filter of that map: forward, the pairs with lo <= ts < hi and the
    queried parameter id, ascending; backward, when the map holds a
    timestamp above hi, the pairs with lo < ts <= hi and the queried
    parameter id, descending; each followed by one completion. *)
Theorem Sequence_search_after_any_run :
  forall (cap : Z) (ops : list AddOp) (p : ParamId) (lo hi : TimeStamp),
    Forall (fun op => ParamId_ok (snd (fst (snd op)))) ops ->
    lo <= hi ->
    StronglySorted entry_lt (data_ (run_adds (Sequence_ctor cap) ops))
    /\ Sequence_search (run_adds (Sequence_ctor cap) ops)
                       (mkQuery p lo hi AKU_CURSOR_DIR_FORWARD)
       = (map put_of
              (filter (fwd_match (mkQuery p lo hi AKU_CURSOR_DIR_FORWARD))
                      (data_ (run_adds (Sequence_ctor cap) ops)))
              ++ [Complete], Returned)
    /\ (Exists (fun x => hi < entry_ts x)
               (data_ (run_adds (Sequence_ctor cap) ops)) ->
        Sequence_search (run_adds (Sequence_ctor cap) ops)
                        (mkQuery p lo hi AKU_CURSOR_DIR_BACKWARD)
        = (map put_of
               (rev (filter
                       (bwd_match (mkQuery p lo hi AKU_CURSOR_DIR_BACKWARD))
                       (data_ (run_adds (Sequence_ctor cap) ops))))
               ++ [Complete], Returned)).
Proof.
  intros cap ops p lo hi Hops Hrange.
  pose proof (run_adds_wf ops (Sequence_ctor cap) (Sequence_ctor_wf cap) Hops)
    as Hwf.
  set (s := run_adds (Sequence_ctor cap) ops) in *.
  split; [exact (proj1 Hwf)|]. split.
  - apply Sequence_search_forward_wf; assumption.
  - intros Hex. destruct Hwf as [Hs [Hd _]].
    unfold Sequence_search. cbn [upperbound lowerbound direction].
    replace (hi <? lo) with false by (symmetry; apply Z.ltb_ge; exact Hrange).
    simpl.
    rewrite (backward_from_upper_bound
               (mkQuery p lo hi AKU_CURSOR_DIR_BACKWARD));
      [reflexivity | exact Hs | | exact Hrange | exact Hex].
    eapply Forall_impl; [|exact Hd]. intros x [_ Hx]. exact Hx.
Qed.

Lemma Sequence_search_after_any_run_witness :
  StronglySorted entry_lt
    (data_ (run_adds (Sequence_ctor 16)
              [(mkEnv 0 false true, (9, 1, 90));
               (mkEnv 0 true true, (3, 1, 30));
               (mkEnv 0 true false, (5, 1, 50))]))
  /\ Sequence_search
       (run_adds (Sequence_ctor 16)
          [(mkEnv 0 false true, (9, 1, 90));
           (mkEnv 0 true true, (3, 1, 30));
           (mkEnv 0 true false, (5, 1, 50))])
       (mkQuery 1 3 9 AKU_CURSOR_DIR_FORWARD)
     = (map put_of
            (filter (fwd_match (mkQuery 1 3 9 AKU_CURSOR_DIR_FORWARD))
                    (data_ (run_adds (Sequence_ctor 16)
                              [(mkEnv 0 false true, (9, 1, 90));
                               (mkEnv 0 true true, (3, 1, 30));
                               (mkEnv 0 true false, (5, 1, 50))])))
            ++ [Complete], Returned)
  /\ (Exists (fun x => 9 < entry_ts x)
             (data_ (run_adds (Sequence_ctor 16)
                       [(mkEnv 0 false true, (9, 1, 90));
                        (mkEnv 0 true true, (3, 1, 30));
                        (mkEnv 0 true false, (5, 1, 50))])) ->
      Sequence_search
        (run_adds (Sequence_ctor 16)
           [(mkEnv 0 false true, (9, 1, 90));
            (mkEnv 0 true true, (3, 1, 30));
            (mkEnv 0 true false, (5, 1, 50))])
        (mkQuery 1 3 9 AKU_CURSOR_DIR_BACKWARD)
      = (map put_of
             (rev (filter
                     (bwd_match (mkQuery 1 3 9 AKU_CURSOR_DIR_BACKWARD))
                     (data_ (run_adds (Sequence_ctor 16)
                               [(mkEnv 0 false true, (9, 1, 90));
                                (mkEnv 0 true true, (3, 1, 30));
                                (mkEnv 0 true false, (5, 1, 50))]))))
             ++ [Complete], Returned)).
Proof.
  apply (Sequence_search_after_any_run 16
           [(mkEnv 0 false true, (9, 1, 90));
            (mkEnv 0 true true, (3, 1, 30));
            (mkEnv 0 true false, (5, 1, 50))] 1 3 9).
  - repeat (constructor; [unfold ParamId_ok, ParamId_max; simpl; lia|]).
    constructor.
  - lia.
Defined.

(** ** Add, then search *)

Lemma fwd_match_point (ts : TimeStamp) (p : ParamId)
      (x : Key * EntryOffset) :
  fwd_match (point_query ts p) x = true <-> fst x = (ts, p).
Proof.
  destruct x as [[ts0 p0] v]. unfold fwd_match, point_query, entry_ts,
    entry_param. simpl.
  rewrite !andb_true_iff, Z.leb_le, Z.ltb_lt, Z.eqb_eq.
  split.
  - intros [[H1 H2] H3]. f_equal; lia.
  - intros H. inversion H; subst. lia.
Qed.

Lemma point_filter_above (ts : TimeStamp) (p : ParamId) (l : MapType) :
  Forall (fun x => key_lt (ts, p) (fst x)) l ->
  filter (fwd_match (point_query ts p)) l = [].
Proof.
  induction l as [|x l IH]; simpl; intros Hall; [reflexivity|].
  inversion Hall as [|? ? Hx Hl]; subst.
  destruct (fwd_match (point_query ts p) x) eqn:E; [|apply IH; exact Hl].
  apply fwd_match_point in E. rewrite E in Hx.
  exfalso. eapply key_lt_irrefl. exact Hx.
Qed.

(** In a sorted map the pairs a point query keeps are the binding of the
    key, if there is one. *)
Lemma point_filter_find (ts : TimeStamp) (p : ParamId) (m : MapType) :
  StronglySorted entry_lt m ->
  filter (fwd_match (point_query ts p)) m
  = match map_find (ts, p) m with
    | Some o => [((ts, p), o)]
    | None => []
    end.
Proof.
  induction m as [|[k0 v0] m IH]; simpl; intros Hs; [reflexivity|].
  inversion Hs as [|? ? Hs' Hall]; subst.
  destruct (key_ltb (ts, p) k0) eqn:E1.
  - apply key_ltb_spec in E1.
    destruct (fwd_match (point_query ts p) (k0, v0)) eqn:Em.
    + apply fwd_match_point in Em. simpl in Em. subst k0.
      exfalso. eapply key_lt_irrefl. exact E1.
    + apply point_filter_above.
      eapply Forall_impl; [|exact Hall].
      intros x Hx. unfold entry_lt in Hx. simpl in Hx.
      eapply key_lt_trans; eassumption.
  - destruct (key_ltb k0 (ts, p)) eqn:E2.
    + apply key_ltb_spec in E2.
      destruct (fwd_match (point_query ts p) (k0, v0)) eqn:Em.
      * apply fwd_match_point in Em. simpl in Em. subst k0.
        exfalso. eapply key_lt_irrefl. exact E2.
      * apply IH. exact Hs'.
    + apply key_ltb_false in E1. apply key_ltb_false in E2.
      assert (Hk : (ts, p) = k0) by (apply key_total; assumption).
      subst k0.
      match goal with
      | |- context [fwd_match ?a ?b] =>
          replace (fwd_match a b) with true
            by (symmetry; apply fwd_match_point; reflexivity)
      end.
      f_equal.
      apply point_filter_above.
      eapply Forall_impl; [|exact Hall].
      intros x Hx. exact Hx.
Qed.

Lemma Sequence_search_point (s : Sequence) (ts : TimeStamp) (p : ParamId) :
  Sequence_wf s ->
  Sequence_search s (point_query ts p)
  = (match map_find (ts, p) (data_ s) with
     | Some o => [Put o; Complete]
     | None => [Complete]
     end, Returned).
Proof.
  intros Hwf. unfold point_query.
  rewrite Sequence_search_forward_wf; [|exact Hwf | lia].
  fold (point_query ts p).
  rewrite point_filter_find by (exact (proj1 Hwf)).
  destruct (map_find (ts, p) (data_ s)); reflexivity.
Qed.

(** X9. Add, then look up through the search interface: after an add that
    gets the primary lock on a well-formed shard, the forward search for
    the key of the add over ts .. ts+1 puts exactly one offset and
    completes. The offset is the one the key was bound to before, if any,
    and the added one when the key was not bound and nothing was
    drained. *)
Theorem Sequence_add_then_search :
  forall (e : Env) (s : Sequence) (ts : TimeStamp) (p : ParamId)
         (off : EntryOffset),
    Sequence_wf s -> ParamId_ok p -> obj_free e = true ->
    exists o,
      Sequence_search (snd (Sequence_add e s ts p off)) (point_query ts p)
      = ([Put o; Complete], Returned)
      /\ (forall o1, map_find (ts, p) (data_ s) = Some o1 -> o = o1)
      /\ (map_find (ts, p) (data_ s) = None ->
          tmp_free e = false \/ temp_ s = [] -> o = off).
Proof.
  intros e s ts p off Hwf Hp Hobj.
  pose proof (Sequence_add_wf e s ts p off Hwf Hp) as Hwf'.
  rewrite (Sequence_search_point _ ts p Hwf').
  destruct (map_find (ts, p) (data_ s)) as [o1|] eqn:Ef.
  - exists o1.
    pose proof (Sequence_add_keeps_bindings_aux e s ts p off (ts, p) o1 Ef)
      as Hk.
    rewrite Hk. split; [reflexivity|].
    split; [intros o2 H; congruence | discriminate].
  - assert (Hbound : exists o,
               map_find (ts, p) (data_ (snd (Sequence_add e s ts p off)))
               = Some o
               /\ (tmp_free e = false \/ temp_ s = [] -> o = off)).
    { unfold Sequence_add. rewrite Hobj. simpl.
      set (d := if tmp_free e then drain (temp_ s) (data_ s) else data_ s).
      destruct (map_find (ts, p) d) as [o|] eqn:Ed.
      - exists o. split; [apply map_find_insert_kept; exact Ed|].
        intros Hnodrain.
        assert (Hd : d = data_ s).
        { unfold d. destruct Hnodrain as [Ht | Ht]; rewrite Ht;
            [reflexivity | destruct (tmp_free e); reflexivity]. }
        rewrite Hd in Ed. congruence.
      - exists off. split; [apply map_find_insert_new; exact Ed|].
        intros _. reflexivity. }
    destruct Hbound as [o [Ho Hoff]].
    exists o. rewrite Ho. split; [reflexivity|].
    split; [discriminate | intros _; exact Hoff].
Qed.

Lemma Sequence_add_then_search_witness :
  exists o,
    Sequence_search
      (snd (Sequence_add (uncontended 0)
              (mkSequence 16 [((3, 2), 30); ((5, 1), 50)] []) 4 1 40))
      (point_query 4 1)
    = ([Put o; Complete], Returned)
    /\ (forall o1,
           map_find (4, 1)
                    (data_ (mkSequence 16 [((3, 2), 30); ((5, 1), 50)] []))
           = Some o1 -> o = o1)
    /\ (map_find (4, 1)
                 (data_ (mkSequence 16 [((3, 2), 30); ((5, 1), 50)] []))
        = None ->
        tmp_free (uncontended 0) = false
        \/ temp_ (mkSequence 16 [((3, 2), 30); ((5, 1), 50)] []) = [] ->
        o = 40).
Proof.
  apply (Sequence_add_then_search (uncontended 0)
           (mkSequence 16 [((3, 2), 30); ((5, 1), 50)] []) 4 1 40).
  - split; [simpl; sorted_tac|].
    split; [|constructor].
    repeat (constructor;
            [unfold ParamId_ok, ParamId_max, entry_param; simpl; lia|]).
    constructor.
  - unfold ParamId_ok, ParamId_max. lia.
  - reflexivity.
Defined.

(** ** Bucket::add and Bucket::search *)

Lemma list_update_length {A : Type} (l : list A) (i : nat) (x : A) :
  length (list_update l i x) = length l.
Proof.
  revert i. induction l as [|h t IH]; intros [|i]; simpl;
    try reflexivity. rewrite IH. reflexivity.
Qed.

Lemma list_update_other {A : Type} (l : list A) (i j : nat) (x : A) :
  i <> j -> nth_error (list_update l i x) j = nth_error l j.
Proof.
  revert i j. induction l as [|h t IH]; intros [|i] [|j] Hne; simpl;
    try reflexivity; [contradiction|].
  apply IH. intros H. apply Hne. rewrite H. reflexivity.
Qed.

Lemma list_update_split {A : Type} (l1 l2 : list A) (y x : A) :
  list_update (l1 ++ y :: l2) (length l1) x = l1 ++ x :: l2.
Proof.
  induction l1 as [|h t IH]; simpl; [reflexivity|].
  rewrite IH. reflexivity.
Qed.

(** X10. A bucket with at least one shard accepts every add with the
    write-success status; the add goes to the shard numbered by the
    caller's CPU modulo the shard count and touches nothing else: the
    number of shards, every other shard, the state counter, the baseline
    and [rrindex_] are as before. *)
Theorem Bucket_add_touches_one_shard :
  forall (e : Env) (b : Bucket) (ts : TimeStamp) (p : ParamId)
         (off : EntryOffset),
    seq_ b <> [] ->
    exists b',
      Bucket_add e b ts p off = Ok (AKU_WRITE_STATUS_SUCCESS, b')
      /\ length (seq_ b') = length (seq_ b)
      /\ state b' = state b
      /\ baseline b' = baseline b
      /\ rrindex_ b' = rrindex_ b
      /\ (forall j, j <> Nat.modulo (cpu e) (length (seq_ b)) ->
                    nth_error (seq_ b') j = nth_error (seq_ b) j).
Proof.
  intros e b ts p off Hne. unfold Bucket_add.
  destruct (length (seq_ b)) as [|n] eqn:Elen.
  - destruct (seq_ b); [contradiction | discriminate].
  - assert (Hlt : (Nat.modulo (cpu e) (S n) < length (seq_ b))%nat).
    { rewrite Elen. apply Nat.mod_upper_bound. discriminate. }
    destruct (nth_error (seq_ b) (Nat.modulo (cpu e) (S n))) as [s|] eqn:En;
      [|apply nth_error_None in En; lia].
    assert (Hst : fst (Sequence_add e s ts p off) = AKU_WRITE_STATUS_SUCCESS).
    { unfold Sequence_add. destruct (obj_free e); reflexivity. }
    destruct (Sequence_add e s ts p off) as [st s'].
    simpl in Hst. subst st.
    eexists. split; [reflexivity|]. simpl.
    split; [rewrite list_update_length; exact Elen|].
    repeat split.
    intros j Hj. apply list_update_other. intros H. apply Hj.
    symmetry. exact H.
Qed.

Lemma Bucket_add_touches_one_shard_witness :
  exists b',
    Bucket_add (uncontended 3) (Bucket_ctor 2 16 0) 5 1 50
    = Ok (AKU_WRITE_STATUS_SUCCESS, b')
    /\ length (seq_ b') = length (seq_ (Bucket_ctor 2 16 0))
    /\ state b' = state (Bucket_ctor 2 16 0)
    /\ baseline b' = baseline (Bucket_ctor 2 16 0)
    /\ rrindex_ b' = rrindex_ (Bucket_ctor 2 16 0)
    /\ (forall j,
           j <> Nat.modulo (cpu (uncontended 3))
                           (length (seq_ (Bucket_ctor 2 16 0))) ->
           nth_error (seq_ b') j = nth_error (seq_ (Bucket_ctor 2 16 0)) j).
Proof.
  apply (Bucket_add_touches_one_shard (uncontended 3) (Bucket_ctor 2 16 0)
           5 1 50).
  discriminate.
Defined.

Lemma search_all_returned (seqs : list Sequence)
      (q : SingleParameterSearchQuery) :
  Forall (fun s => snd (Sequence_search s q) = Returned) seqs ->
  search_all seqs q
  = (flat_map (fun s => fst (Sequence_search s q)) seqs, Returned).
Proof.
  induction seqs as [|s seqs IH]; simpl; intros Hall; [reflexivity|].
  inversion Hall as [|? ? Hs Hrest]; subst.
  destruct (Sequence_search s q) as [ev out]. simpl in Hs. subst out.
  rewrite (IH Hrest). reflexivity.
Qed.

(** X11. The bucket passes a rejected query to every shard: the cursor
    receives the bad-argument error once per shard, and nothing else. *)
Theorem Bucket_search_bad_arg_per_shard :
  forall (b : Bucket) (q : SingleParameterSearchQuery),
    bad_query q ->
    Bucket_search b q
    = (repeat (SetError AKU_EBAD_ARG) (length (seq_ b)), Returned).
Proof.
  intros b q Hbad. unfold Bucket_search.
  assert (Heach : forall s,
             Sequence_search s q = ([SetError AKU_EBAD_ARG], Returned)).
  { intros s. destruct Hbad as [Hrev | Hdir]; apply Sequence_search_bad_arg;
      [right; exact Hrev | left; exact Hdir]. }
  rewrite search_all_returned.
  - f_equal. induction (seq_ b) as [|s l IH]; simpl; [reflexivity|].
    rewrite Heach, IH. reflexivity.
  - apply Forall_forall. intros s _. rewrite Heach. reflexivity.
Qed.

Lemma Bucket_search_bad_arg_per_shard_witness :
  Bucket_search (Bucket_ctor 3 16 0) (mkQuery 1 9 3 AKU_CURSOR_DIR_FORWARD)
  = (repeat (SetError AKU_EBAD_ARG) (length (seq_ (Bucket_ctor 3 16 0))),
     Returned).
Proof.
  apply (Bucket_search_bad_arg_per_shard (Bucket_ctor 3 16 0)
           (mkQuery 1 9 3 AKU_CURSOR_DIR_FORWARD)).
  left. simpl. lia.
Defined.

(** X12. A valid forward search of a bucket returns normally and signals
    completion once per shard, not once per call. *)
Theorem Bucket_search_forward_completes_per_shard :
  forall (b : Bucket) (q : SingleParameterSearchQuery),
    direction q = AKU_CURSOR_DIR_FORWARD ->
    lowerbound q <= upperbound q ->
    snd (Bucket_search b q) = Returned
    /\ completions (fst (Bucket_search b q)) = length (seq_ b).
Proof.
  intros b q Hdir Hrange. unfold Bucket_search.
  rewrite search_all_returned.
  - split; [reflexivity|]. simpl.
    induction (seq_ b) as [|s l IH]; simpl; [reflexivity|].
    rewrite completions_app, IH.
    destruct (Sequence_search_forward_completes s q Hdir Hrange) as [_ Hc].
    rewrite Hc. reflexivity.
  - apply Forall_forall. intros s _.
    apply (Sequence_search_forward_completes s q Hdir Hrange).
Qed.

Lemma Bucket_search_forward_completes_per_shard_witness :
  snd (Bucket_search (Bucket_ctor 3 16 0)
                     (mkQuery 1 3 9 AKU_CURSOR_DIR_FORWARD)) = Returned
  /\ completions
       (fst (Bucket_search (Bucket_ctor 3 16 0)
                           (mkQuery 1 3 9 AKU_CURSOR_DIR_FORWARD)))
     = length (seq_ (Bucket_ctor 3 16 0)).
Proof.
  apply (Bucket_search_forward_completes_per_shard (Bucket_ctor 3 16 0)
           (mkQuery 1 3 9 AKU_CURSOR_DIR_FORWARD)).
  - reflexivity.
  - simpl. lia.
Defined.

Lemma puts_app (a b : list CursorEvent) : puts (a ++ b) = puts a ++ puts b.
Proof.
  induction a as [|x a IH]; simpl; [reflexivity|].
  destruct x; simpl; rewrite IH; reflexivity.
Qed.

Lemma search_all_point_unbound (seqs : list Sequence) (ts : TimeStamp)
      (p : ParamId) :
  Forall Sequence_wf seqs ->
  Forall (fun s => map_find (ts, p) (data_ s) = None) seqs ->
  search_all seqs (point_query ts p) = (repeat Complete (length seqs), Returned).
Proof.
  induction seqs as [|s seqs IH]; simpl; intros Hwf Hnone; [reflexivity|].
  inversion Hwf as [|? ? Hs Hwf']; subst.
  inversion Hnone as [|? ? Hn Hnone']; subst.
  rewrite (Sequence_search_point s ts p Hs), Hn, (IH Hwf' Hnone').
  reflexivity.
Qed.

Lemma puts_repeat_complete (n : nat) : puts (repeat Complete n) = [].
Proof. induction n as [|n IH]; simpl; [reflexivity | exact IH]. Qed.

(** The add to one shard of a bucket followed by the point search of all
    its shards, shared by the statements on Bucket and on Cache below. *)
Lemma Bucket_add_point_search :
  forall (e : Env) (b : Bucket) (ts : TimeStamp) (p : ParamId)
         (off : EntryOffset),
    seq_ b <> [] ->
    Forall Sequence_wf (seq_ b) ->
    Forall (fun s => temp_ s = [] /\ map_find (ts, p) (data_ s) = None)
           (seq_ b) ->
    ParamId_ok p ->
    obj_free e = true ->
    exists b',
      Bucket_add e b ts p off = Ok (AKU_WRITE_STATUS_SUCCESS, b')
      /\ snd (Bucket_search b' (point_query ts p)) = Returned
      /\ puts (fst (Bucket_search b' (point_query ts p))) = [off].
Proof.
  intros e b ts p off Hne Hwf Hfresh Hp Hobj.
  unfold Bucket_add.
  destruct (length (seq_ b)) as [|n] eqn:Elen.
  - destruct (seq_ b); [contradiction | discriminate].
  - assert (Hlt : (Nat.modulo (cpu e) (S n) < length (seq_ b))%nat).
    { rewrite Elen. apply Nat.mod_upper_bound. discriminate. }
    destruct (nth_error (seq_ b) (Nat.modulo (cpu e) (S n))) as [s|] eqn:En;
      [|apply nth_error_None in En; lia].
    destruct (nth_error_split _ _ En) as [l1 [l2 [Hsplit Hl1]]].
    rewrite Hsplit in Hwf, Hfresh.
    apply Forall_app in Hwf. destruct Hwf as [Hwf1 Hwf2].
    inversion Hwf2 as [|? ? Hwfs Hwf2']; subst.
    apply Forall_app in Hfresh. destruct Hfresh as [Hf1 Hf2].
    inversion Hf2 as [|? ? [Htemp Hnone] Hf2']; subst.
    assert (Hsearch :
              Sequence_search (snd (Sequence_add e s ts p off))
                              (point_query ts p)
              = ([Put off; Complete], Returned)).
    { rewrite (Sequence_search_point _ ts p
                 (Sequence_add_wf e s ts p off Hwfs Hp)).
      replace (map_find (ts, p) (data_ (snd (Sequence_add e s ts p off))))
        with (Some off); [reflexivity|].
      symmetry. unfold Sequence_add. rewrite Hobj, Htemp. simpl.
      apply map_find_insert_new.
      destruct (tmp_free e); exact Hnone. }
    assert (Hst : fst (Sequence_add e s ts p off) = AKU_WRITE_STATUS_SUCCESS).
    { unfold Sequence_add. rewrite Hobj. reflexivity. }
    destruct (Sequence_add e s ts p off) as [st s'].
    simpl in Hst, Hsearch. subst st.
    eexists. split; [reflexivity|].
    unfold Bucket_search. cbn [seq_].
    rewrite Hsplit, <- Hl1, list_update_split.
    assert (Hun : forall l,
               Forall Sequence_wf l ->
               Forall (fun s0 => temp_ s0 = []
                                 /\ map_find (ts, p) (data_ s0) = None) l ->
               search_all l (point_query ts p)
               = (repeat Complete (length l), Returned)).
    { intros l Hw Hf. apply search_all_point_unbound; [exact Hw|].
      eapply Forall_impl; [|exact Hf]. intros x [_ Hx]. exact Hx. }
    assert (Hall : search_all (l1 ++ s' :: l2) (point_query ts p)
                   = (repeat Complete (length l1)
                        ++ [Put off; Complete]
                        ++ repeat Complete (length l2), Returned)).
    { clear Hsplit Hl1 En Hlt Elen.
      induction l1 as [|x l1 IH]; simpl.
      - rewrite Hsearch, (Hun l2 Hwf2' Hf2'). reflexivity.
      - inversion Hwf1 as [|? ? Hx Hwf1']; subst.
        inversion Hf1 as [|? ? [_ Hxn] Hf1']; subst.
        rewrite (Sequence_search_point x ts p Hx), Hxn.
        rewrite (IH Hwf1' Hf1'). reflexivity. }
    rewrite Hall. split; [reflexivity|]. cbn [fst].
    rewrite !puts_app, !puts_repeat_complete. reflexivity.
Qed.

(** X13. Add to a bucket, then search the bucket: when every shard is
    well formed with an empty buffer and none binds the key, an add that
    gets the primary lock succeeds and the forward search of the bucket
    for that key over ts .. ts+1 returns normally and puts exactly the
    added offset, whichever shard the add went to. *)
Theorem Bucket_add_then_search :
  forall (e : Env) (b : Bucket) (ts : TimeStamp) (p : ParamId)
         (off : EntryOffset),
    seq_ b <> [] ->
    Forall Sequence_wf (seq_ b) ->
    Forall (fun s => temp_ s = [] /\ map_find (ts, p) (data_ s) = None)
           (seq_ b) ->
    ParamId_ok p ->
    obj_free e = true ->
    exists b',
      Bucket_add e b ts p off = Ok (AKU_WRITE_STATUS_SUCCESS, b')
      /\ snd (Bucket_search b' (point_query ts p)) = Returned
      /\ puts (fst (Bucket_search b' (point_query ts p))) = [off].
Proof.
  intros e b ts p off Hne Hwf Hfresh Hp Hobj.
  destruct (Bucket_add_point_search e b ts p off Hne Hwf Hfresh Hp Hobj)
    as [b' [Hadd [Hret Hputs]]].
  exists b'. split; [exact Hadd|]. split; [exact Hret | exact Hputs].
Qed.

Lemma Bucket_add_then_search_witness :
  exists b',
    Bucket_add (uncontended 3) (Bucket_ctor 2 16 0) 5 1 50
    = Ok (AKU_WRITE_STATUS_SUCCESS, b')
    /\ snd (Bucket_search b' (point_query 5 1)) = Returned
    /\ puts (fst (Bucket_search b' (point_query 5 1))) = [50].
Proof.
  apply (Bucket_add_then_search (uncontended 3) (Bucket_ctor 2 16 0) 5 1 50).
  - discriminate.
  - repeat (constructor; [apply Sequence_ctor_wf|]). constructor.
  - repeat (constructor; [split; reflexivity|]). constructor.
  - unfold ParamId_ok, ParamId_max. lia.
  - reflexivity.
Defined.

(** ** Bucket copy constructor *)

Lemma search_all_copy (seqs : list Sequence) (q : SingleParameterSearchQuery) :
  search_all (map Sequence_copy seqs) q = search_all seqs q.
Proof.
  induction seqs as [|s seqs IH]; simpl; [reflexivity|].
  change (Sequence_search (Sequence_copy s) q) with (Sequence_search s q).
  rewrite IH. reflexivity.
Qed.

(** X14. A copy of a bucket has the state, the baseline and the stored
    entries of the original and answers every search as the original;
    its [rrindex_] restarts at 0, so a merge of the copy never puts
    anything on the cursor, whatever the original would do. *)
Theorem Bucket_copy_search_and_merge :
  forall (b : Bucket) (q : SingleParameterSearchQuery) (ndebug : bool)
         (page : PageReader),
    Bucket_search (Bucket_copy b) q = Bucket_search b q
    /\ bucket_entries (Bucket_copy b) = bucket_entries b
    /\ state (Bucket_copy b) = state b
    /\ baseline (Bucket_copy b) = baseline b
    /\ Bucket_merge ndebug (Bucket_copy b) page
       = ([], Ok (if state b =? 0 then AKU_EBUSY else AKU_SUCCESS)).
Proof.
  intros b q ndebug page.
  split; [apply search_all_copy|].
  split.
  - unfold bucket_entries, Bucket_copy. simpl.
    induction (seq_ b) as [|s l IH]; simpl; [reflexivity|].
    rewrite IH. reflexivity.
  - split; [reflexivity|]. split; [reflexivity|].
    unfold Bucket_merge, Bucket_copy. simpl.
    destruct (state b =? 0); reflexivity.
Qed.

(** ** Bucket::merge *)





(** X16. What merge can return. The only statuses are busy and success;
    busy means a live bucket and an untouched cursor; success with
    [rrindex_] at 0 means an untouched cursor; and success past the fast
    path is only possible when asserts are compiled out. *)
Theorem Bucket_merge_results :
  forall (ndebug : bool) (b : Bucket) (page : PageReader)
         (ev : list CursorEvent) (st : Status),
    Bucket_merge ndebug b page = (ev, Ok st) ->
    (st = AKU_EBUSY /\ state b = 0 /\ ev = [])
    \/ (st = AKU_SUCCESS /\ state b <> 0
        /\ ((rrindex_ b = 0 /\ ev = [])
            \/ (rrindex_ b <> 0 /\ ndebug = true))).
Proof.
  intros ndebug b page ev st. unfold Bucket_merge.
  destruct (Z.eqb_spec (state b) 0) as [Hst | Hst].
  - intros H. inversion H; subst. left. repeat split. exact Hst.
  - destruct (Z.eqb_spec (rrindex_ b) 0) as [Hrr | Hrr].
    + intros H. inversion H; subst. right.
      split; [reflexivity|]. split; [exact Hst|]. left. split;
        [exact Hrr | reflexivity].
    + destruct (if Nat.ltb 1 (length (seq_ b))
                then merge_loop page (seq_ b) _ _ O
                else merge_single (seq_ b)) as [out r].
      destruct r as [u|err]; [|discriminate].
      destruct ndebug; [|discriminate].
      intros H. inversion H; subst. right.
      split; [reflexivity|]. split; [exact Hst|]. right.
      split; [exact Hrr | reflexivity].
Qed.

Lemma Bucket_merge_results_witness :
  (AKU_SUCCESS = AKU_EBUSY
   /\ state (mkBucket [mkSequence 16 [((1, 1), 10)] []] 1 0 1) = 0
   /\ [Put 10] = [])
  \/ (AKU_SUCCESS = AKU_SUCCESS
      /\ state (mkBucket [mkSequence 16 [((1, 1), 10)] []] 1 0 1) <> 0
      /\ ((rrindex_ (mkBucket [mkSequence 16 [((1, 1), 10)] []] 1 0 1) = 0
           /\ [Put 10] = [])
          \/ (rrindex_ (mkBucket [mkSequence 16 [((1, 1), 10)] []] 1 0 1)
              <> 0 /\ true = true))).
Proof.
  apply (Bucket_merge_results true
           (mkBucket [mkSequence 16 [((1, 1), 10)] []] 1 0 1)
           sample_page [Put 10] AKU_SUCCESS).
  reflexivity.
Defined.

Lemma select_fold_fail (page : PageReader) (seqs : list Sequence)
      (iter : list nat) (l : list nat) (err : Err) :
  fold_left (select_step page seqs iter) l (Fail err) = Fail err.
Proof. induction l as [|i l IH]; simpl; [reflexivity | exact IH]. Qed.

Lemma deref_fail_undefined (seqs : list Sequence) (iter : list nat) (i : nat)
      (err : Err) :
  deref seqs iter i = Fail err -> err = UndefinedBehaviour.
Proof.
  unfold deref.
  destruct (nth_error seqs i) as [s|]; [|intros H; inversion H; reflexivity].
  destruct (nth_error iter i) as [it|]; [|intros H; inversion H; reflexivity].
  destruct (nth_error (data_ s) it); [discriminate|].
  intros H. inversion H. reflexivity.
Qed.

(** The selection pass when the shard at [min] = 0 is the only one that
    may have elements left: nothing is compared, nothing is counted. *)
Lemma select_fold_others_at_end (page : PageReader) (seqs : list Sequence)
      (iter : list nat) (l : list nat) :
  Forall (fun i => i = O \/ not_at_end seqs iter i = false) l ->
  fold_left (select_step page seqs iter) l (Ok (O, O, O)) = Ok (O, O, O).
Proof.
  induction l as [|i l IH]; simpl; intros Hall; [reflexivity|].
  inversion Hall as [|? ? Hi Hl]; subst.
  destruct Hi as [Hi | Hi].
  - subst i. simpl. apply IH. exact Hl.
  - destruct (Nat.eqb i 0); [apply IH; exact Hl|].
    rewrite Hi. apply IH. exact Hl.
Qed.

(** The selection pass when the shard at [min] = 0 is exhausted and
    another one is not: the comparison dereferences [iter[0]]. *)
Lemma select_fold_min_at_end (page : PageReader) (seqs : list Sequence)
      (iter : list nat) (l : list nat) :
  deref seqs iter O = Fail UndefinedBehaviour ->
  Exists (fun i => i <> O /\ not_at_end seqs iter i = true) l ->
  fold_left (select_step page seqs iter) l (Ok (O, O, O))
  = Fail UndefinedBehaviour.
Proof.
  intros Hmin. induction l as [|i l IH]; intros Hex;
    [inversion Hex|].
  cbn [fold_left].
  assert (Hstep : (i <> O /\ not_at_end seqs iter i = true) ->
                  select_step page seqs iter (Ok (O, O, O)) i
                  = Fail UndefinedBehaviour).
  { intros [Hne Hnot]. unfold select_step.
    destruct (Nat.eqb_spec i 0) as [H0 | _]; [contradiction|].
    rewrite Hnot.
    destruct (deref seqs iter i) as [x|err] eqn:Ei; simpl.
    - rewrite Hmin. reflexivity.
    - apply deref_fail_undefined in Ei. subst err. reflexivity. }
  destruct (Nat.eqb_spec i 0) as [H0 | Hne].
  - subst i. simpl. apply IH.
    inversion Hex as [? ? [Hc _] | ? ? Hrest]; subst;
      [contradiction | exact Hrest].
  - destruct (not_at_end seqs iter i) eqn:Hnot.
    + rewrite Hstep by (split; [exact Hne | reflexivity]).
      apply select_fold_fail.
    + assert (Hskip : select_step page seqs iter (Ok (O, O, O)) i
                      = Ok (O, O, O)).
      { unfold select_step.
        destruct (Nat.eqb_spec i 0) as [H0 | _]; [contradiction|].
        rewrite Hnot. reflexivity. }
      rewrite Hskip. apply IH.
      inversion Hex as [? ? [_ Hc] | ? ? Hrest]; subst;
        [congruence | exact Hrest].
Qed.

Lemma not_at_end_start (s0 : Sequence) (rest : list Sequence) (j : nat) :
  not_at_end (s0 :: rest) (repeat O (S (length rest))) (S j)
  = match nth_error rest j with
    | Some s => negb (Nat.eqb 0 (length (data_ s)))
    | None => false
    end.
Proof.
  unfold not_at_end. cbn [nth_error repeat].
  destruct (nth_error rest j) as [s|] eqn:Ej; [|reflexivity].
  assert (Hlt : (j < length rest)%nat)
    by (apply nth_error_Some; rewrite Ej; discriminate).
  rewrite nth_error_repeat by exact Hlt. reflexivity.
Qed.

(** X17. Past the fast path, with more than one shard, the merge loop
    depends on the first shard. When only the first shard holds entries,
    the loop stops at once and none of them is put on the cursor. When
    the first shard is empty and another one is not, the first comparison
    dereferences the [end()] iterator of the first shard. *)
Theorem Bucket_merge_first_shard :
  forall (ndebug : bool) (b : Bucket) (page : PageReader)
         (s0 : Sequence) (rest : list Sequence),
    seq_ b = s0 :: rest -> rest <> [] ->
    state b <> 0 -> rrindex_ b <> 0 ->
    (Forall (fun s => data_ s = []) rest ->
     Bucket_merge ndebug b page
     = ([], if ndebug then Ok AKU_SUCCESS else Fail AssertionFailed))
    /\ (data_ s0 = [] -> Exists (fun s => data_ s <> []) rest ->
        Bucket_merge ndebug b page = ([], Fail UndefinedBehaviour)).
Proof.
  intros ndebug b page s0 rest Hseq Hrest Hst Hrr.
  unfold Bucket_merge.
  apply Z.eqb_neq in Hst. apply Z.eqb_neq in Hrr.
  rewrite Hst, Hrr, Hseq.
  assert (Hn : Nat.ltb 1 (length (s0 :: rest)) = true).
  { apply Nat.ltb_lt. destruct rest; [contradiction | simpl; lia]. }
  rewrite Hn. cbn [merge_loop].
  change (length (s0 :: rest)) with (S (length rest)).
  split.
  - intros Hempty.
    rewrite select_fold_others_at_end; [destruct ndebug; reflexivity|].
    apply Forall_forall. intros i Hi. apply in_seq in Hi.
    destruct i as [|j]; [left; reflexivity | right].
    rewrite not_at_end_start.
    destruct (nth_error rest j) as [s|] eqn:Ej; [|reflexivity].
    rewrite Forall_forall in Hempty.
    rewrite (Hempty s (nth_error_In _ _ Ej)). reflexivity.
  - intros H0 Hex.
    rewrite select_fold_min_at_end; [reflexivity | |].
    + unfold deref. cbn [nth_error repeat]. rewrite H0. reflexivity.
    + apply Exists_exists in Hex. destruct Hex as [s [Hin Hne]].
      apply In_nth_error in Hin. destruct Hin as [j Hj].
      apply Exists_exists. exists (S j). split.
      * apply in_seq.
        assert (j < length rest)%nat
          by (apply nth_error_Some; rewrite Hj; discriminate).
        lia.
      * split; [discriminate|].
        rewrite not_at_end_start, Hj.
        destruct (data_ s); [contradiction | reflexivity].
Qed.

Lemma Bucket_merge_first_shard_witness :
  (Forall (fun s => data_ s = []) [mkSequence 16 [] []] ->
   Bucket_merge true
     (mkBucket [mkSequence 16 [((1, 1), 10)] []; mkSequence 16 [] []] 1 0 1)
     sample_page
   = ([], Ok AKU_SUCCESS))
  /\ (data_ (mkSequence 16 [((1, 1), 10)] []) = [] ->
      Exists (fun s => data_ s <> []) [mkSequence 16 [] []] ->
      Bucket_merge true
        (mkBucket [mkSequence 16 [((1, 1), 10)] []; mkSequence 16 [] []]
                  1 0 1)
        sample_page
      = ([], Fail UndefinedBehaviour)).
Proof.
  apply (Bucket_merge_first_shard true
           (mkBucket [mkSequence 16 [((1, 1), 10)] []; mkSequence 16 [] []]
                     1 0 1)
           sample_page (mkSequence 16 [((1, 1), 10)] [])
           [mkSequence 16 [] []]).
  - reflexivity.
  - discriminate.
  - simpl. lia.
  - simpl. lia.
Defined.

(** ** mark_last and Cache::allocate_from_free_list *)

Lemma fresh_buckets_length (cfg : Config) (max_size base : Z) (cnt : nat) :
  length (fresh_buckets cfg max_size base cnt) = cnt.
Proof. unfold fresh_buckets. rewrite length_map, length_seq. reflexivity. Qed.

Lemma mark_last_ok_nth (l m : list Bucket) (n : Z) :
  mark_last l n = Ok m ->
  0 <= n <= Z.of_nat (length l)
  /\ length m = length l
  /\ forall i b,
      nth_error l i = Some b ->
      nth_error m i
      = Some (if Z.of_nat i <? Z.of_nat (length l) - n then b else retire b).
Proof.
  unfold mark_last.
  destruct (Z.leb_spec 0 n) as [H0 | H0]; [|discriminate].
  destruct (Z.leb_spec n (Z.of_nat (length l))) as [Hn | Hn]; [|discriminate].
  simpl. intros H. inversion H; subst. clear H.
  set (k := Z.to_nat (Z.of_nat (length l) - n)).
  assert (Hk : (k <= length l)%nat) by (unfold k; lia).
  split; [lia|]. split.
  - rewrite length_app, length_map, length_firstn, length_skipn. lia.
  - intros i b Hi.
    assert (Hlen : length (firstn k l) = k)
      by (rewrite length_firstn; lia).
    destruct (Z.ltb_spec (Z.of_nat i) (Z.of_nat (length l) - n)) as [Hlt | Hge].
    + rewrite nth_error_app1 by (rewrite Hlen; unfold k; lia).
      rewrite nth_error_firstn.
      replace (Nat.ltb i k) with true
        by (symmetry; apply Nat.ltb_lt; unfold k; lia).
      exact Hi.
    + rewrite nth_error_app2 by (rewrite Hlen; unfold k; lia).
      rewrite Hlen, nth_error_map, nth_error_skipn.
      replace (k + (i - k))%nat with i by (unfold k; lia).
      rewrite Hi. reflexivity.
Qed.

(** X18. [mark_last(container, n)] is defined exactly for
    0 <= n <= size; it then keeps the length and the order of the list,
    increments the state counter of each of the last [n] buckets by one,
    whatever it was, and leaves the other buckets and every other field
    as they are. *)
Theorem mark_last_pointwise :
  forall (l : list Bucket) (n : Z),
    (0 <= n <= Z.of_nat (length l)
     /\ exists m,
         mark_last l n = Ok m
         /\ length m = length l
         /\ forall i b,
             nth_error l i = Some b ->
             nth_error m i
             = Some (if Z.of_nat i <? Z.of_nat (length l) - n
                     then b else retire b))
    \/ ((n < 0 \/ Z.of_nat (length l) < n)
        /\ mark_last l n = Fail UndefinedBehaviour).
Proof.
  intros l n.
  destruct (mark_last l n) as [m|err] eqn:Em.
  - left. destruct (mark_last_ok_nth l m n Em) as [Hn [Hlen Hnth]].
    split; [exact Hn|]. exists m. split; [reflexivity|].
    split; [exact Hlen | exact Hnth].
  - right. unfold mark_last in Em.
    destruct (Z.leb_spec 0 n) as [H0 | H0].
    + destruct (Z.leb_spec n (Z.of_nat (length l))) as [Hn | Hn];
        [discriminate|].
      split; [right; exact Hn|].
      simpl in Em. inversion Em. reflexivity.
    + split; [left; exact H0|].
      simpl in Em. inversion Em. reflexivity.
Qed.

Lemma mark_last_zero (l : list Bucket) : mark_last l 0 = Ok l.
Proof.
  unfold mark_last.
  replace ((0 <=? 0) && (0 <=? Z.of_nat (length l))) with true
    by (symmetry; apply andb_true_iff; split; apply Z.leb_le; lia).
  rewrite Z.sub_0_r, Nat2Z.id, firstn_all, skipn_all. simpl.
  rewrite app_nil_r. reflexivity.
Qed.

Lemma Cache_allocate_ok_shape (cfg : Config) (c c' : Cache) (nnew base : Z) :
  Cache_allocate_from_free_list cfg c nnew base = Ok c' ->
  0 <= nnew
  /\ length (cache_ c') = (Z.to_nat nnew + length (cache_ c))%nat
  /\ skipn (Z.to_nat nnew) (cache_ c') = cache_ c
  /\ baseline_ c' = baseline_ c
  /\ shift_ c' = shift_ c
  /\ (nnew <= Z.of_nat (length (free_list_ c)) ->
      Permutation (cache_ c' ++ free_list_ c') (cache_ c ++ free_list_ c))
  /\ (forall b, In b (cache_ c' ++ free_list_ c') ->
                In b (cache_ c ++ free_list_ c) \/ state b = 0).
Proof.
  unfold Cache_allocate_from_free_list.
  destruct (Z.ltb_spec nnew 0) as [Hneg | H0]; [discriminate|].
  intros H. inversion H; subst. clear H. simpl.
  set (free := if Z.of_nat (length (free_list_ c)) <? nnew
               then free_list_ c
                      ++ fresh_buckets cfg (max_size_ c) base
                           (Z.to_nat (nnew - Z.of_nat (length (free_list_ c))))
               else free_list_ c).
  assert (Hfree : (Z.to_nat nnew <= length free)%nat).
  { unfold free.
    destruct (Z.ltb_spec (Z.of_nat (length (free_list_ c))) nnew).
    - rewrite length_app, fresh_buckets_length. lia.
    - lia. }
  assert (Hlen : length (firstn (Z.to_nat nnew) free) = Z.to_nat nnew)
    by (rewrite length_firstn; lia).
  split; [exact H0|].
  split; [rewrite length_app, Hlen; reflexivity|].
  split.
  { rewrite skipn_app, Hlen, Nat.sub_diag.
    rewrite skipn_all2 by (rewrite Hlen; lia). reflexivity. }
  split; [reflexivity|]. split; [reflexivity|].
  assert (Hperm : Permutation
                    ((firstn (Z.to_nat nnew) free ++ cache_ c)
                       ++ skipn (Z.to_nat nnew) free)
                    (cache_ c ++ free)).
  { rewrite <- app_assoc.
    eapply perm_trans;
      [apply Permutation_app_head; apply Permutation_app_comm|].
    rewrite app_assoc, firstn_skipn.
    apply Permutation_app_comm. }
  split.
  - intros Hlong. unfold free in *.
    replace (Z.of_nat (length (free_list_ c)) <? nnew) with false in *
      by (symmetry; apply Z.ltb_ge; exact Hlong).
    exact Hperm.
  - intros b Hin. apply (Permutation_in _ Hperm) in Hin.
    apply in_app_or in Hin. destruct Hin as [Hin | Hin];
      [left; apply in_or_app; left; exact Hin|].
    unfold free in Hin.
    destruct (Z.of_nat (length (free_list_ c)) <? nnew);
      [|left; apply in_or_app; right; exact Hin].
    apply in_app_or in Hin. destruct Hin as [Hin | Hin];
      [left; apply in_or_app; right; exact Hin|].
    right. unfold fresh_buckets in Hin. apply in_map_iff in Hin.
    destruct Hin as [i [Hb _]]. subst b. reflexivity.
Qed.

(** X19. [allocate_from_free_list(nnew, baseline)] with nnew >= 0 always
    succeeds and puts exactly [nnew] buckets in front of the active
    window, which stays behind them as it was; the cache baseline and the
    shift are not touched. When the free list holds at least [nnew]
    buckets no bucket is created or lost: the two lists together hold
    the same buckets as before. *)
Theorem Cache_allocate_grows_window :
  forall (cfg : Config) (c : Cache) (nnew base : Z),
    0 <= nnew ->
    exists c',
      Cache_allocate_from_free_list cfg c nnew base = Ok c'
      /\ length (cache_ c') = (Z.to_nat nnew + length (cache_ c))%nat
      /\ skipn (Z.to_nat nnew) (cache_ c') = cache_ c
      /\ baseline_ c' = baseline_ c
      /\ shift_ c' = shift_ c
      /\ (nnew <= Z.of_nat (length (free_list_ c)) ->
          Permutation (cache_ c' ++ free_list_ c')
                      (cache_ c ++ free_list_ c)).
Proof.
  intros cfg c nnew base H0.
  destruct (Cache_allocate_from_free_list cfg c nnew base) as [c'|err] eqn:Ea.
  - exists c'. split; [reflexivity|].
    destruct (Cache_allocate_ok_shape cfg c c' nnew base Ea)
      as [_ [H1 [H2 [H3 [H4 [H5 _]]]]]].
    repeat split; assumption.
  - exfalso. unfold Cache_allocate_from_free_list in Ea.
    replace (nnew <? 0) with false in Ea
      by (symmetry; apply Z.ltb_ge; exact H0).
    discriminate Ea.
Qed.

Lemma Cache_allocate_grows_window_witness :
  exists c',
    Cache_allocate_from_free_list sample_cfg
      (mkCache 1024 100 0 10 [Bucket_ctor 2 100 0]
               [Bucket_ctor 2 100 1; Bucket_ctor 2 100 2]) 1 0 = Ok c'
    /\ length (cache_ c')
       = (Z.to_nat 1
          + length (cache_ (mkCache 1024 100 0 10 [Bucket_ctor 2 100 0]
                              [Bucket_ctor 2 100 1; Bucket_ctor 2 100 2])))%nat
    /\ skipn (Z.to_nat 1) (cache_ c')
       = cache_ (mkCache 1024 100 0 10 [Bucket_ctor 2 100 0]
                   [Bucket_ctor 2 100 1; Bucket_ctor 2 100 2])
    /\ baseline_ c'
       = baseline_ (mkCache 1024 100 0 10 [Bucket_ctor 2 100 0]
                      [Bucket_ctor 2 100 1; Bucket_ctor 2 100 2])
    /\ shift_ c'
       = shift_ (mkCache 1024 100 0 10 [Bucket_ctor 2 100 0]
                   [Bucket_ctor 2 100 1; Bucket_ctor 2 100 2])
    /\ (1 <= Z.of_nat
               (length (free_list_
                          (mkCache 1024 100 0 10 [Bucket_ctor 2 100 0]
                             [Bucket_ctor 2 100 1; Bucket_ctor 2 100 2]))) ->
        Permutation
          (cache_ c' ++ free_list_ c')
          (cache_ (mkCache 1024 100 0 10 [Bucket_ctor 2 100 0]
                     [Bucket_ctor 2 100 1; Bucket_ctor 2 100 2])
             ++ free_list_ (mkCache 1024 100 0 10 [Bucket_ctor 2 100 0]
                              [Bucket_ctor 2 100 1; Bucket_ctor 2 100 2]))).
Proof.
  apply (Cache_allocate_grows_window sample_cfg
           (mkCache 1024 100 0 10 [Bucket_ctor 2 100 0]
                    [Bucket_ctor 2 100 1; Bucket_ctor 2 100 2]) 1 0).
  lia.
Defined.

(** ** Cache constructor *)

Lemma firstn_seq_le (k a n : nat) :
  (k <= n)%nat -> firstn k (seq a n) = seq a k.
Proof.
  revert a n. induction k as [|k IH]; intros a n Hle; [reflexivity|].
  destruct n as [|n]; [lia|]. simpl. f_equal. apply IH. lia.
Qed.

Lemma fresh_buckets_baselines (cfg : Config) (max_size : Z) (l : list nat) :
  map baseline
      (map (fun i => Bucket_ctor (bucket_size_ cfg) max_size
                                 (0 + Z.of_nat i)) l)
  = map Z.of_nat l.
Proof.
  rewrite map_map. apply map_ext. intros i. reflexivity.
Qed.

Lemma Bucket_ctor_empty (n : nat) (max_size base : Z) :
  state (Bucket_ctor n max_size base) = 0
  /\ bucket_entries (Bucket_ctor n max_size base) = []
  /\ length (seq_ (Bucket_ctor n max_size base)) = n.
Proof.
  split; [reflexivity|]. split.
  - unfold bucket_entries, Bucket_ctor. simpl.
    induction n as [|n IH]; simpl; [reflexivity | exact IH].
  - unfold Bucket_ctor. simpl. apply repeat_length.
Qed.

(** X20. A cache built with a capacity not above the population, a time
    to live below 2^31 and a bucket width of at least the minimum starts
    with baseline 0 and the shift floor(log2 ttl), so that
    2^shift <= ttl < 2^(shift+1). Its window holds one bucket for each of
    the indices 0, 1, ..., capacity - 1 in that order, the free list
    holds the following indices up to the population, and every bucket
    is live, empty and has the configured number of shards. *)
Theorem Cache_ctor_fresh :
  forall (cfg : Config) (ttl max_size : Z),
    0 <= AKU_LIMITS_MAX_CACHES cfg <= AKU_CACHE_POPULATION cfg ->
    0 < ttl < 2 ^ 31 ->
    AKU_LIMITS_MIN_TTL cfg <= 2 ^ Z.log2 ttl ->
    exists c,
      Cache_ctor cfg ttl max_size = Ok c
      /\ baseline_ c = 0
      /\ shift_ c = Z.log2 ttl
      /\ 2 ^ shift_ c <= ttl < 2 ^ (shift_ c + 1)
      /\ map baseline (cache_ c)
         = map Z.of_nat (seq 0 (Z.to_nat (AKU_LIMITS_MAX_CACHES cfg)))
      /\ map baseline (free_list_ c)
         = map Z.of_nat
               (seq (Z.to_nat (AKU_LIMITS_MAX_CACHES cfg))
                    (Z.to_nat (AKU_CACHE_POPULATION cfg)
                     - Z.to_nat (AKU_LIMITS_MAX_CACHES cfg)))
      /\ Forall (fun b => state b = 0 /\ bucket_entries b = []
                          /\ length (seq_ b) = bucket_size_ cfg)
                (cache_ c ++ free_list_ c).
Proof.
  intros cfg ttl max_size [Hmax Hpop] [Hpos Hsmall] Hmin.
  unfold Cache_ctor.
  rewrite Cache_allocate_relinks
    by (cbn [free_list_]; rewrite fresh_buckets_length; lia).
  cbn [bind free_list_ cache_ baseline_ with_lists].
  assert (Hlog : Z.log2 ttl < 31) by (apply Z.log2_lt_pow2; lia).
  replace (ttl <=? 0) with false by (symmetry; apply Z.leb_gt; exact Hpos).
  replace (31 <=? Z.log2 ttl) with false
    by (symmetry; apply Z.leb_gt; exact Hlog).
  cbv [orb]. rewrite Z.shiftl_1_l.
  replace (2 ^ Z.log2 ttl <? AKU_LIMITS_MIN_TTL cfg) with false
    by (symmetry; apply Z.ltb_ge; exact Hmin).
  eexists. split; [reflexivity|].
  cbn [baseline_ shift_ cache_ free_list_].
  split; [reflexivity|]. split; [reflexivity|].
  split; [replace (Z.log2 ttl + 1) with (Z.succ (Z.log2 ttl)) by lia;
          apply Z.log2_spec; exact Hpos|].
  rewrite app_nil_r.
  unfold fresh_buckets.
  rewrite firstn_map, skipn_map, skipn_seq, firstn_seq_le by lia.
  rewrite !fresh_buckets_baselines.
  split; [reflexivity|]. split; [reflexivity|].
  rewrite <- map_app. apply Forall_map. apply Forall_forall.
  intros i _. apply Bucket_ctor_empty.
Qed.

Lemma Cache_ctor_fresh_witness :
  exists c,
    Cache_ctor sample_cfg 1500 100 = Ok c
    /\ baseline_ c = 0
    /\ shift_ c = Z.log2 1500
    /\ 2 ^ shift_ c <= 1500 < 2 ^ (shift_ c + 1)
    /\ map baseline (cache_ c)
       = map Z.of_nat (seq 0 (Z.to_nat (AKU_LIMITS_MAX_CACHES sample_cfg)))
    /\ map baseline (free_list_ c)
       = map Z.of_nat
             (seq (Z.to_nat (AKU_LIMITS_MAX_CACHES sample_cfg))
                  (Z.to_nat (AKU_CACHE_POPULATION sample_cfg)
                   - Z.to_nat (AKU_LIMITS_MAX_CACHES sample_cfg)))
    /\ Forall (fun b => state b = 0 /\ bucket_entries b = []
                        /\ length (seq_ b) = bucket_size_ sample_cfg)
              (cache_ c ++ free_list_ c).
Proof.
  apply (Cache_ctor_fresh sample_cfg 1500 100).
  - simpl. lia.
  - lia.
  - simpl. lia.
Defined.



(** ** Cache::add_entry_ *)

Lemma Bucket_add_ok_inv (e : Env) (b b' : Bucket) ts pid off (st : Status) :
  Bucket_add e b ts pid off = Ok (st, b') ->
  st = AKU_WRITE_STATUS_SUCCESS
  /\ state b' = state b /\ baseline b' = baseline b
  /\ length (seq_ b') = length (seq_ b).
Proof.
  unfold Bucket_add. destruct (length (seq_ b)) eqn:El; [discriminate|].
  destruct (nth_error (seq_ b) _); [|discriminate].
  assert (Hst : fst (Sequence_add e s ts pid off) = AKU_WRITE_STATUS_SUCCESS)
    by (unfold Sequence_add; destruct (obj_free e); reflexivity).
  destruct (Sequence_add e s ts pid off) as [st' s'].
  simpl in Hst. intros H. inversion H; subst. simpl.
  rewrite list_update_length. repeat split. exact El.
Qed.

Lemma list_update_nth {A : Type} (l : list A) (i j : nat) (x y : A) :
  nth_error l i = Some y ->
  nth_error (list_update l i x) j
  = if Nat.eqb j i then Some x else nth_error l j.
Proof.
  revert i j. induction l as [|h t IH]; intros [|i] [|j] Hi; simpl in *;
    try discriminate; try reflexivity.
  apply IH. exact Hi.
Qed.

Lemma add_to_target_inv (e : Env) (c c' : Cache) (i : nat) ts pid off
      (n n' : Z) (st : Status) :
  add_to_target e c i ts pid off n = Ok (st, c', n') ->
  exists b b',
    nth_error (cache_ c) i = Some b
    /\ Bucket_add e b ts pid off = Ok (st, b')
    /\ c' = with_lists c (list_update (cache_ c) i b') (free_list_ c)
    /\ n' = n.
Proof.
  unfold add_to_target.
  destruct (nth_error (cache_ c) i) as [b|] eqn:En; [|discriminate].
  destruct (Bucket_add e b ts pid off) as [[st' b']|] eqn:Eb;
    cbn [bind fst snd]; [|discriminate].
  intros H. inversion H; subst.
  exists b, b'. repeat split; assumption.
Qed.

(** What a call that slides the window went through: a marking of the
    last [rc] buckets, an allocation of [nn] buckets, then the lookup of
    the target. *)
Lemma Cache_add_entry_slide_inv (cfg : Config) (e : Env) (c c' : Cache)
      ts pid off (n n' : Z) (st : Status) :
  baseline_ c < Z.shiftr ts (shift_ c) ->
  Cache_add_entry_ cfg e c ts pid off n = Ok (st, c', n') ->
  exists (rc nn : Z) (marked : list Bucket) (mid : Cache),
    mark_last (cache_ c) rc = Ok marked
    /\ Cache_allocate_from_free_list cfg
         (with_lists (with_baseline c (Z.shiftr ts (shift_ c))) marked
                     (free_list_ c))
         nn (Z.shiftr ts (shift_ c) - nn) = Ok mid
    /\ (nn = AKU_LIMITS_MAX_CACHES cfg
        \/ nn = Z.shiftr ts (shift_ c) - baseline_ c)
    /\ match find_if (is_target (Z.shiftr ts (shift_ c))) (cache_ mid) with
       | None => st = AKU_EGENERAL /\ c' = mid /\ n' = n + rc
       | Some i => add_to_target e mid i ts pid off (n + rc) = Ok (st, c', n')
       end.
Proof.
  intros Hslide. unfold Cache_add_entry_.
  set (bi := Z.shiftr ts (shift_ c)) in *.
  replace (baseline_ c - bi >=? 0) with false
    by (symmetry; destruct (Z.geb_spec (baseline_ c - bi) 0);
        [lia | reflexivity]).
  set (c1 := with_baseline c bi).
  destruct (0 - (baseline_ c - bi) >=? AKU_LIMITS_MAX_CACHES cfg) eqn:Efull.
  - destruct (mark_last (cache_ c1) (AKU_LIMITS_MAX_CACHES cfg))
      as [marked|] eqn:Em; cbn [bind]; [|discriminate].
    destruct (Cache_allocate_from_free_list cfg
                (with_lists c1 marked (free_list_ c1))
                (AKU_LIMITS_MAX_CACHES cfg)
                (baseline_ c1 - AKU_LIMITS_MAX_CACHES cfg)) as [mid|] eqn:Ea;
      cbn [bind fst snd]; [|discriminate].
    intros H.
    exists (AKU_LIMITS_MAX_CACHES cfg), (AKU_LIMITS_MAX_CACHES cfg),
      marked, mid.
    split; [exact Em|]. split; [exact Ea|]. split; [left; reflexivity|].
    destruct (find_if (is_target bi) (cache_ mid)); [exact H|].
    inversion H; subst. repeat split.
  - destruct (AKU_LIMITS_MAX_CACHES cfg - (0 - (baseline_ c - bi))
              <? Z.of_nat (length (cache_ c1))) eqn:Efree.
    + destruct (mark_last (cache_ c1)
                  (Z.of_nat (length (cache_ c1))
                   - (AKU_LIMITS_MAX_CACHES cfg - (0 - (baseline_ c - bi)))))
        as [marked|] eqn:Em; cbn [bind fst snd]; [|discriminate].
      destruct (Cache_allocate_from_free_list cfg
                  (with_lists c1 marked (free_list_ c1))
                  (0 - (baseline_ c - bi))
                  (baseline_ c1 - (0 - (baseline_ c - bi)))) as [mid|] eqn:Ea;
        cbn [bind fst snd]; [|discriminate].
      intros H.
      exists (Z.of_nat (length (cache_ c1))
              - (AKU_LIMITS_MAX_CACHES cfg - (0 - (baseline_ c - bi)))),
        (bi - baseline_ c), marked, mid.
      split; [exact Em|].
      replace (bi - baseline_ c) with (0 - (baseline_ c - bi)) by lia.
      split; [exact Ea|]. split; [right; lia|].
      destruct (find_if (is_target bi) (cache_ mid)); [exact H|].
      inversion H; subst. repeat split.
    + cbn [bind fst snd].
      destruct (Cache_allocate_from_free_list cfg c1
                  (0 - (baseline_ c - bi))
                  (baseline_ c1 - (0 - (baseline_ c - bi)))) as [mid|] eqn:Ea;
        cbn [bind fst snd]; [|discriminate].
      intros H.
      exists 0, (bi - baseline_ c), (cache_ c), mid.
      split; [apply mark_last_zero|].
      replace (bi - baseline_ c) with (0 - (baseline_ c - bi)) by lia.
      split; [exact Ea|]. split; [right; lia|].
      rewrite Z.add_0_r.
      destruct (find_if (is_target bi) (cache_ mid)); [exact H|].
      inversion H; subst. repeat split.
Qed.

Lemma find_if_none_iff {A : Type} (f : A -> bool) (l : list A) :
  find_if f l = None <-> Forall (fun x => f x = false) l.
Proof.
  split; [|apply find_if_none].
  induction l as [|x l IH]; simpl; intros H; [constructor|].
  destruct (f x) eqn:Ex; [discriminate|].
  destruct (find_if f l); [discriminate|].
  constructor; [exact Ex | apply IH; reflexivity].
Qed.

(** X22. The overflow status has exactly one cause: the target bucket
    index lies below the cache baseline and no live bucket of the window
    has it as its baseline. It always comes with the cache and the
    swapped count unchanged. *)
Theorem Cache_add_entry_overflow_iff :
  forall (cfg : Config) (e : Env) (c c' : Cache)
         (ts : TimeStamp) (pid : ParamId) (off : EntryOffset) (n n' : Z),
    Cache_add_entry_ cfg e c ts pid off n = Ok (AKU_EOVERFLOW, c', n')
    <-> (Z.shiftr ts (shift_ c) < baseline_ c
         /\ Forall (fun b => ~ (state b = 0
                                /\ baseline b = Z.shiftr ts (shift_ c)))
                   (cache_ c)
         /\ c' = c /\ n' = n).
Proof.
  intros cfg e c c' ts pid off n n'.
  assert (Htarget : Forall (fun b => ~ (state b = 0
                                        /\ baseline b = Z.shiftr ts (shift_ c)))
                           (cache_ c)
                    <-> find_if (is_target (Z.shiftr ts (shift_ c))) (cache_ c)
                        = None).
  { rewrite find_if_none_iff. split; intros H.
    - eapply Forall_impl; [|exact H]. intros b Hb. unfold is_target.
      destruct (Z.eqb_spec (state b) 0); [|reflexivity].
      destruct (Z.eqb_spec (baseline b) (Z.shiftr ts (shift_ c)));
        [|reflexivity].
      exfalso. apply Hb. split; assumption.
    - eapply Forall_impl; [|exact H]. intros b Hb [Hs Hbase].
      unfold is_target in Hb. rewrite Hs, Hbase, !Z.eqb_refl in Hb.
      discriminate Hb. }
  split.
  - intros Hadd.
    destruct (Z.lt_ge_cases (baseline_ c) (Z.shiftr ts (shift_ c)))
      as [Hslide | Hold].
    + destruct (Cache_add_entry_slide_inv _ _ _ _ _ _ _ _ _ _ Hslide Hadd)
        as [rc [nn [marked [mid [_ [_ [_ Hfind]]]]]]].
      destruct (find_if (is_target (Z.shiftr ts (shift_ c))) (cache_ mid)).
      * apply add_to_target_inv in Hfind.
        destruct Hfind as [b [b' [_ [Hb _]]]].
        apply Bucket_add_ok_inv in Hb. destruct Hb as [Hb _]. discriminate Hb.
      * destruct Hfind as [Hst _]. discriminate Hst.
    + unfold Cache_add_entry_ in Hadd.
      replace (baseline_ c - Z.shiftr ts (shift_ c) >=? 0) with true in Hadd
        by (symmetry; apply Z.geb_le; lia).
      destruct (Z.eqb_spec (baseline_ c - Z.shiftr ts (shift_ c)) 0)
        as [H0 | H0].
      * apply add_to_target_inv in Hadd.
        destruct Hadd as [b [b' [_ [Hb _]]]].
        apply Bucket_add_ok_inv in Hb. destruct Hb as [Hb _]. discriminate Hb.
      * destruct (find_if (is_target (Z.shiftr ts (shift_ c))) (cache_ c))
          as [i|] eqn:Ef.
        -- apply add_to_target_inv in Hadd.
           destruct Hadd as [b [b' [_ [Hb _]]]].
           apply Bucket_add_ok_inv in Hb. destruct Hb as [Hb _].
           discriminate Hb.
        -- inversion Hadd; subst.
           split; [lia|]. split; [apply Htarget; reflexivity|].
           split; reflexivity.
  - intros [Hlt [Hall [Hc Hn]]]. subst c' n'.
    apply Htarget in Hall. unfold Cache_add_entry_.
    replace (baseline_ c - Z.shiftr ts (shift_ c) >=? 0) with true
      by (symmetry; apply Z.geb_le; lia).
    replace (baseline_ c - Z.shiftr ts (shift_ c) =? 0) with false
      by (symmetry; apply Z.eqb_neq; lia).
    rewrite Hall. reflexivity.
Qed.

Lemma add_to_target_keeps (e : Env) (c c' : Cache) (j : nat) ts pid off
      (n n' : Z) (st : Status) :
  add_to_target e c j ts pid off n = Ok (st, c', n') ->
  st = AKU_WRITE_STATUS_SUCCESS /\ n' = n
  /\ baseline_ c' = baseline_ c /\ shift_ c' = shift_ c
  /\ free_list_ c' = free_list_ c
  /\ length (cache_ c') = length (cache_ c)
  /\ forall k b,
      nth_error (cache_ c) k = Some b ->
      exists b',
        nth_error (cache_ c') k = Some b'
        /\ state b' = state b /\ baseline b' = baseline b
        /\ length (seq_ b') = length (seq_ b).
Proof.
  intros H. apply add_to_target_inv in H.
  destruct H as [b0 [b0' [Hj [Hadd [Hc Hn]]]]]. subst c' n'.
  apply Bucket_add_ok_inv in Hadd.
  destruct Hadd as [Hst [Hs [Hb Hl]]].
  split; [exact Hst|]. split; [reflexivity|].
  split; [reflexivity|]. split; [reflexivity|]. split; [reflexivity|].
  simpl. split; [apply list_update_length|].
  intros k b Hk. rewrite (list_update_nth _ _ _ _ _ Hj).
  destruct (Nat.eqb_spec k j) as [Heq | Hne].
  - subst k. rewrite Hj in Hk. inversion Hk; subst.
    exists b0'. repeat split; assumption.
  - exists b. repeat split. exact Hk.
Qed.

(** X23. What an add can change. After any call that returns, the cache
    baseline is the larger of the old baseline and the target index, the
    shift is the same, the swapped count and the length of the window
    have not gone down, and the status is write-success, overflow or the
    general error; the general error is only returned by a call that
    moved the baseline forward. A call for the current or an older bucket
    changes neither the swapped count nor the free list nor the length of
    the window. *)
Theorem Cache_add_entry_monotone :
  forall (cfg : Config) (e : Env) (c c' : Cache)
         (ts : TimeStamp) (pid : ParamId) (off : EntryOffset) (n n' : Z)
         (st : Status),
    Cache_add_entry_ cfg e c ts pid off n = Ok (st, c', n') ->
    baseline_ c' = Z.max (baseline_ c) (Z.shiftr ts (shift_ c))
    /\ shift_ c' = shift_ c
    /\ n <= n'
    /\ (length (cache_ c) <= length (cache_ c'))%nat
    /\ (st = AKU_WRITE_STATUS_SUCCESS \/ st = AKU_EOVERFLOW
        \/ st = AKU_EGENERAL)
    /\ (st = AKU_EGENERAL -> baseline_ c < Z.shiftr ts (shift_ c))
    /\ (Z.shiftr ts (shift_ c) <= baseline_ c ->
        n' = n /\ free_list_ c' = free_list_ c
        /\ length (cache_ c') = length (cache_ c)).
Proof.
  intros cfg e c c' ts pid off n n' st Hadd.
  destruct (Z.lt_ge_cases (baseline_ c) (Z.shiftr ts (shift_ c)))
    as [Hslide | Hold].
  - destruct (Cache_add_entry_slide_inv _ _ _ _ _ _ _ _ _ _ Hslide Hadd)
      as [rc [nn [marked [mid [Hm [Ha [_ Hfind]]]]]]].
    apply mark_last_ok_nth in Hm. destruct Hm as [Hrc [Hlen _]].
    apply Cache_allocate_ok_shape in Ha.
    destruct Ha as [Hnn [Hmid [_ [Hbase [Hshift _]]]]].
    simpl in Hmid, Hbase, Hshift.
    destruct (find_if (is_target (Z.shiftr ts (shift_ c))) (cache_ mid)).
    + apply add_to_target_keeps in Hfind.
      destruct Hfind as [Hst [Hn [Hb [Hs [_ [Hl _]]]]]]. subst st n'.
      split; [rewrite Hb, Hbase; lia|].
      split; [rewrite Hs, Hshift; reflexivity|].
      split; [lia|]. split; [lia|].
      split; [left; reflexivity|].
      split; [discriminate | intros H; lia].
    + destruct Hfind as [Hst [Hc Hn]]. subst st c' n'.
      split; [rewrite Hbase; lia|]. split; [exact Hshift|].
      split; [lia|]. split; [lia|].
      split; [right; right; reflexivity|].
      split; [intros _; exact Hslide | intros H; lia].
  - unfold Cache_add_entry_ in Hadd.
    replace (baseline_ c - Z.shiftr ts (shift_ c) >=? 0) with true in Hadd
      by (symmetry; apply Z.geb_le; lia).
    assert (Hkeep : forall j,
               add_to_target e c j ts pid off n = Ok (st, c', n') ->
               baseline_ c' = Z.max (baseline_ c) (Z.shiftr ts (shift_ c))
               /\ shift_ c' = shift_ c
               /\ n <= n'
               /\ (length (cache_ c) <= length (cache_ c'))%nat
               /\ (st = AKU_WRITE_STATUS_SUCCESS \/ st = AKU_EOVERFLOW
                   \/ st = AKU_EGENERAL)
               /\ (st = AKU_EGENERAL -> baseline_ c < Z.shiftr ts (shift_ c))
               /\ (Z.shiftr ts (shift_ c) <= baseline_ c ->
                   n' = n /\ free_list_ c' = free_list_ c
                   /\ length (cache_ c') = length (cache_ c))).
    { intros j Hj. apply add_to_target_keeps in Hj.
      destruct Hj as [Hst [Hn [Hb [Hs [Hf [Hl _]]]]]]. subst st n'.
      split; [rewrite Hb; lia|]. split; [exact Hs|].
      split; [lia|]. split; [lia|]. split; [left; reflexivity|].
      split; [discriminate|]. intros _. repeat split; assumption. }
    destruct (baseline_ c - Z.shiftr ts (shift_ c) =? 0);
      [apply (Hkeep O); exact Hadd|].
    destruct (find_if (is_target (Z.shiftr ts (shift_ c))) (cache_ c))
      as [i|]; [apply (Hkeep i); exact Hadd|].
    inversion Hadd; subst.
    split; [lia|]. split; [reflexivity|]. split; [lia|]. split; [lia|].
    split; [right; left; reflexivity|].
    split; [discriminate|]. intros _. repeat split.
Qed.

Lemma Cache_add_entry_monotone_witness :
  exists (st : Status) (c' : Cache) (n' : Z),
    Cache_add_entry_ sample_cfg (uncontended 0)
      (mkCache 1024 100 0 10 [Bucket_ctor 2 100 0] [Bucket_ctor 2 100 1])
      1024 1 77 7 = Ok (st, c', n')
    /\ baseline_ c'
       = Z.max (baseline_ (mkCache 1024 100 0 10 [Bucket_ctor 2 100 0]
                             [Bucket_ctor 2 100 1]))
               (Z.shiftr 1024
                  (shift_ (mkCache 1024 100 0 10 [Bucket_ctor 2 100 0]
                             [Bucket_ctor 2 100 1])))
    /\ shift_ c'
       = shift_ (mkCache 1024 100 0 10 [Bucket_ctor 2 100 0]
                   [Bucket_ctor 2 100 1])
    /\ 7 <= n'
    /\ le (length (cache_ (mkCache 1024 100 0 10 [Bucket_ctor 2 100 0]
                             [Bucket_ctor 2 100 1])))
          (length (cache_ c'))
    /\ (st = AKU_WRITE_STATUS_SUCCESS \/ st = AKU_EOVERFLOW
        \/ st = AKU_EGENERAL)
    /\ (st = AKU_EGENERAL ->
        baseline_ (mkCache 1024 100 0 10 [Bucket_ctor 2 100 0]
                     [Bucket_ctor 2 100 1])
        < Z.shiftr 1024
            (shift_ (mkCache 1024 100 0 10 [Bucket_ctor 2 100 0]
                       [Bucket_ctor 2 100 1])))
    /\ (Z.shiftr 1024
          (shift_ (mkCache 1024 100 0 10 [Bucket_ctor 2 100 0]
                     [Bucket_ctor 2 100 1]))
        <= baseline_ (mkCache 1024 100 0 10 [Bucket_ctor 2 100 0]
                        [Bucket_ctor 2 100 1]) ->
        n' = 7
        /\ free_list_ c'
           = free_list_ (mkCache 1024 100 0 10 [Bucket_ctor 2 100 0]
                           [Bucket_ctor 2 100 1])
        /\ length (cache_ c')
           = length (cache_ (mkCache 1024 100 0 10 [Bucket_ctor 2 100 0]
                               [Bucket_ctor 2 100 1]))).
Proof.
  do 3 eexists. split; [vm_compute; reflexivity|].
  apply (Cache_add_entry_monotone sample_cfg (uncontended 0)
           (mkCache 1024 100 0 10 [Bucket_ctor 2 100 0] [Bucket_ctor 2 100 1])
           _ 1024 1 77 7 _ _).
  vm_compute. reflexivity.
Defined.

Lemma retire_fields (b : Bucket) :
  baseline (retire b) = baseline b /\ seq_ (retire b) = seq_ b.
Proof. split; reflexivity. Qed.

(** X24. An add never unlinks a bucket from the window and never lowers
    a state counter: every bucket of the window before the call is still
    in the window after it, behind the buckets the call put in front,
    with the same baseline and the same number of shards, and with its
    state counter either unchanged or larger by one. *)
Theorem Cache_add_entry_keeps_buckets :
  forall (cfg : Config) (e : Env) (c c' : Cache)
         (ts : TimeStamp) (pid : ParamId) (off : EntryOffset) (n n' : Z)
         (st : Status) (i : nat) (b : Bucket),
    Cache_add_entry_ cfg e c ts pid off n = Ok (st, c', n') ->
    nth_error (cache_ c) i = Some b ->
    exists b',
      nth_error (cache_ c')
                (length (cache_ c') - length (cache_ c) + i) = Some b'
      /\ baseline b' = baseline b
      /\ length (seq_ b') = length (seq_ b)
      /\ (state b' = state b \/ state b' = state b + 1).
Proof.
  intros cfg e c c' ts pid off n n' st i b Hadd Hi.
  destruct (Z.lt_ge_cases (baseline_ c) (Z.shiftr ts (shift_ c)))
    as [Hslide | Hold].
  - destruct (Cache_add_entry_slide_inv _ _ _ _ _ _ _ _ _ _ Hslide Hadd)
      as [rc [nn [marked [mid [Hm [Ha [_ Hfind]]]]]]].
    apply mark_last_ok_nth in Hm. destruct Hm as [_ [Hlen Hnth]].
    apply Cache_allocate_ok_shape in Ha.
    destruct Ha as [_ [Hmid [Hskip _]]]. simpl in Hmid, Hskip.
    assert (Hpos : nth_error (cache_ mid) (Z.to_nat nn + i)
                   = Some (if Z.of_nat i <? Z.of_nat (length (cache_ c)) - rc
                           then b else retire b)).
    { rewrite <- nth_error_skipn, Hskip. apply Hnth. exact Hi. }
    assert (Hmidb : exists b1,
               nth_error (cache_ mid)
                         (length (cache_ mid) - length (cache_ c) + i)
               = Some b1
               /\ baseline b1 = baseline b
               /\ length (seq_ b1) = length (seq_ b)
               /\ (state b1 = state b \/ state b1 = state b + 1)).
    { replace (length (cache_ mid) - length (cache_ c))%nat
        with (Z.to_nat nn) by lia.
      eexists. split; [exact Hpos|].
      destruct (Z.of_nat i <? Z.of_nat (length (cache_ c)) - rc);
        repeat split; auto. }
    destruct Hmidb as [b1 [Hb1 [Hbase [Hseq Hstate]]]].
    destruct (find_if (is_target (Z.shiftr ts (shift_ c))) (cache_ mid)).
    + apply add_to_target_keeps in Hfind.
      destruct Hfind as [_ [_ [_ [_ [_ [Hl Hkeep]]]]]].
      rewrite Hl.
      destruct (Hkeep _ _ Hb1) as [b' [Hb' [Hs' [Hbase' Hseq']]]].
      exists b'. split; [exact Hb'|].
      split; [congruence|]. split; [congruence|].
      rewrite Hs'. exact Hstate.
    + destruct Hfind as [_ [Hc _]]. subst c'.
      exists b1. repeat split; assumption.
  - unfold Cache_add_entry_ in Hadd.
    replace (baseline_ c - Z.shiftr ts (shift_ c) >=? 0) with true in Hadd
      by (symmetry; apply Z.geb_le; lia).
    assert (Hkeep : forall j,
               add_to_target e c j ts pid off n = Ok (st, c', n') ->
               exists b',
                 nth_error (cache_ c')
                           (length (cache_ c') - length (cache_ c) + i)
                 = Some b'
                 /\ baseline b' = baseline b
                 /\ length (seq_ b') = length (seq_ b)
                 /\ (state b' = state b \/ state b' = state b + 1)).
    { intros j Hj. apply add_to_target_keeps in Hj.
      destruct Hj as [_ [_ [_ [_ [_ [Hl Hk]]]]]].
      rewrite Hl, Nat.sub_diag.
      destruct (Hk _ _ Hi) as [b' [Hb' [Hs' [Hbase' Hseq']]]].
      exists b'. repeat split; auto. }
    destruct (baseline_ c - Z.shiftr ts (shift_ c) =? 0);
      [apply (Hkeep O); exact Hadd|].
    destruct (find_if (is_target (Z.shiftr ts (shift_ c))) (cache_ c))
      as [j|]; [apply (Hkeep j); exact Hadd|].
    inversion Hadd; subst. rewrite Nat.sub_diag.
    exists b. repeat split; auto.
Qed.

Lemma Cache_add_entry_keeps_buckets_witness :
  exists (st : Status) (c' : Cache) (n' : Z),
    Cache_add_entry_ sample_cfg (uncontended 0)
      (mkCache 1024 100 0 10 [Bucket_ctor 2 100 0] [Bucket_ctor 2 100 1])
      1024 1 77 7 = Ok (st, c', n')
    /\ exists b',
        nth_error (cache_ c')
          (length (cache_ c')
           - length (cache_ (mkCache 1024 100 0 10 [Bucket_ctor 2 100 0]
                               [Bucket_ctor 2 100 1])) + 0) = Some b'
        /\ baseline b' = baseline (Bucket_ctor 2 100 0)
        /\ length (seq_ b') = length (seq_ (Bucket_ctor 2 100 0))
        /\ (state b' = state (Bucket_ctor 2 100 0)
            \/ state b' = state (Bucket_ctor 2 100 0) + 1).
Proof.
  do 3 eexists. split; [vm_compute; reflexivity|].
  eapply (Cache_add_entry_keeps_buckets sample_cfg (uncontended 0)
            (mkCache 1024 100 0 10 [Bucket_ctor 2 100 0]
                     [Bucket_ctor 2 100 1])
            _ 1024 1 77 7 _ _ 0%nat (Bucket_ctor 2 100 0)).
  - vm_compute. reflexivity.
  - reflexivity.
Defined.

Lemma Forall_list_update {A : Type} (P : A -> Prop) (l : list A) (i : nat)
      (x : A) :
  Forall P l -> P x -> Forall P (list_update l i x).
Proof.
  revert i. induction l as [|h t IH]; intros [|i] Hall Hx; simpl;
    try constructor; inversion Hall; subst; auto.
Qed.

Lemma add_to_target_states (e : Env) (c c' : Cache) (j : nat) ts pid off
      (n n' : Z) (st : Status) :
  add_to_target e c j ts pid off n = Ok (st, c', n') ->
  Forall (fun b => 0 <= state b) (cache_ c ++ free_list_ c) ->
  Forall (fun b => 0 <= state b) (cache_ c' ++ free_list_ c').
Proof.
  intros H Hall. apply add_to_target_inv in H.
  destruct H as [b0 [b0' [Hj [Hadd [Hc _]]]]]. subst c'. simpl.
  apply Bucket_add_ok_inv in Hadd. destruct Hadd as [_ [Hs _]].
  apply Forall_app in Hall. destruct Hall as [H1 H2].
  apply Forall_app. split; [|exact H2].
  apply Forall_list_update; [exact H1|].
  rewrite Hs. rewrite Forall_forall in H1.
  apply H1. eapply nth_error_In. exact Hj.
Qed.

(** X25. The window bound is kept by every add that does not jump by the
    capacity or more: if no state counter is negative and the window
    holds at most [AKU_LIMITS_MAX_CACHES] live buckets, then after an add
    whose target index is less than the capacity ahead of the baseline
    both still hold. *)
Theorem Cache_add_entry_window_ok :
  forall (cfg : Config) (e : Env) (c c' : Cache)
         (ts : TimeStamp) (pid : ParamId) (off : EntryOffset) (n n' : Z)
         (st : Status),
    Cache_window_ok cfg c ->
    Z.shiftr ts (shift_ c) - baseline_ c < AKU_LIMITS_MAX_CACHES cfg ->
    Cache_add_entry_ cfg e c ts pid off n = Ok (st, c', n') ->
    Cache_window_ok cfg c'.
Proof.
  intros cfg e c c' ts pid off n n' st [Hstates Hlive] Hsmall Hadd.
  destruct (Z.lt_ge_cases (baseline_ c) (Z.shiftr ts (shift_ c)))
    as [Hslide | Hold].
  - split.
    + destruct (Cache_add_entry_slide_inv _ _ _ _ _ _ _ _ _ _ Hslide Hadd)
        as [rc [nn [marked [mid [Hm [Ha [_ Hfind]]]]]]].
      apply mark_last_ok_nth in Hm. destruct Hm as [_ [Hlen Hnth]].
      apply Cache_allocate_ok_shape in Ha.
      destruct Ha as [_ [_ [_ [_ [_ [_ Hfrom]]]]]]. simpl in Hfrom.
      apply Forall_app in Hstates. destruct Hstates as [Hs1 Hs2].
      assert (Hmarked : Forall (fun b => 0 <= state b) marked).
      { apply Forall_forall. intros x Hx.
        apply In_nth_error in Hx. destruct Hx as [k Hk].
        assert (Hkl : (k < length (cache_ c))%nat).
        { rewrite <- Hlen. apply nth_error_Some. rewrite Hk. discriminate. }
        destruct (nth_error (cache_ c) k) as [b0|] eqn:Ek;
          [|apply nth_error_None in Ek; lia].
        rewrite (Hnth _ _ Ek) in Hk. inversion Hk; subst.
        rewrite Forall_forall in Hs1.
        pose proof (Hs1 _ (nth_error_In _ _ Ek)) as H0.
        destruct (Z.of_nat k <? Z.of_nat (length (cache_ c)) - rc);
          simpl; lia. }
      assert (Hmid : Forall (fun b => 0 <= state b)
                            (cache_ mid ++ free_list_ mid)).
      { apply Forall_forall. intros x Hx.
        destruct (Hfrom x Hx) as [Hold | Hnew]; [|lia].
        apply in_app_or in Hold. destruct Hold as [Hin | Hin].
        - rewrite Forall_forall in Hmarked. apply Hmarked. exact Hin.
        - rewrite Forall_forall in Hs2. apply Hs2. exact Hin. }
      destruct (find_if (is_target (Z.shiftr ts (shift_ c))) (cache_ mid)).
      * eapply add_to_target_states; eassumption.
      * destruct Hfind as [_ [Hc _]]. subst c'. exact Hmid.
    + apply Forall_app in Hstates. destruct Hstates as [Hs1 _].
      eapply (Cache_slide_live_bound cfg e c c' ts pid off n n' st);
        [exact Hs1 | lia | exact Hadd].
  - unfold Cache_add_entry_ in Hadd.
    replace (baseline_ c - Z.shiftr ts (shift_ c) >=? 0) with true in Hadd
      by (symmetry; apply Z.geb_le; lia).
    assert (Hkeep : forall j,
               add_to_target e c j ts pid off n = Ok (st, c', n') ->
               Cache_window_ok cfg c').
    { intros j Hj. split.
      - eapply add_to_target_states; eassumption.
      - apply add_to_target_live in Hj. destruct Hj as [Hl _].
        rewrite Hl. exact Hlive. }
    destruct (baseline_ c - Z.shiftr ts (shift_ c) =? 0);
      [apply (Hkeep O); exact Hadd|].
    destruct (find_if (is_target (Z.shiftr ts (shift_ c))) (cache_ c))
      as [j|]; [apply (Hkeep j); exact Hadd|].
    inversion Hadd; subst. split; assumption.
Qed.

Lemma Cache_add_entry_window_ok_witness :
  exists (st : Status) (c' : Cache) (n' : Z),
    Cache_add_entry_ sample_cfg (uncontended 0)
      (mkCache 1024 100 0 10 [Bucket_ctor 2 100 0] [Bucket_ctor 2 100 1])
      1024 1 77 7 = Ok (st, c', n')
    /\ Cache_window_ok sample_cfg c'.
Proof.
  do 3 eexists. split; [vm_compute; reflexivity|].
  eapply (Cache_add_entry_window_ok sample_cfg (uncontended 0)
            (mkCache 1024 100 0 10 [Bucket_ctor 2 100 0]
                     [Bucket_ctor 2 100 1])
            _ 1024 1 77 7 _ _).
  - split.
    + repeat (constructor; [simpl; lia|]). constructor.
    + vm_compute. discriminate.
  - vm_compute. reflexivity.
  - vm_compute. reflexivity.
Defined.

(** ** Cache::clear *)

(** X26. [clear] empties the window and puts its buckets, as they are
    and in their order, in front of the free list. On the cleared cache
    an add for an older bucket returns overflow and changes nothing, an
    add for the bucket of the current baseline takes [front()] of the
    empty window, and so does the marking of an add that jumps ahead by
    a positive capacity or more. *)
Theorem Cache_clear_then_add :
  forall (cfg : Config) (e : Env) (c : Cache)
         (ts : TimeStamp) (pid : ParamId) (off : EntryOffset) (n : Z),
    cache_ (Cache_clear c) = []
    /\ free_list_ (Cache_clear c) = cache_ c ++ free_list_ c
    /\ baseline_ (Cache_clear c) = baseline_ c
    /\ (Z.shiftr ts (shift_ c) < baseline_ c ->
        Cache_add_entry_ cfg e (Cache_clear c) ts pid off n
        = Ok (AKU_EOVERFLOW, Cache_clear c, n))
    /\ (Z.shiftr ts (shift_ c) = baseline_ c ->
        Cache_add_entry_ cfg e (Cache_clear c) ts pid off n
        = Fail UndefinedBehaviour)
    /\ (0 < AKU_LIMITS_MAX_CACHES cfg
            <= Z.shiftr ts (shift_ c) - baseline_ c ->
        Cache_add_entry_ cfg e (Cache_clear c) ts pid off n
        = Fail UndefinedBehaviour).
Proof.
  intros cfg e c ts pid off n.
  split; [reflexivity|]. split; [reflexivity|]. split; [reflexivity|].
  unfold Cache_add_entry_.
  change (shift_ (Cache_clear c)) with (shift_ c).
  change (baseline_ (Cache_clear c)) with (baseline_ c).
  split; [|split].
  - intros Hold.
    replace (baseline_ c - Z.shiftr ts (shift_ c) >=? 0) with true
      by (symmetry; apply Z.geb_le; lia).
    replace (baseline_ c - Z.shiftr ts (shift_ c) =? 0) with false
      by (symmetry; apply Z.eqb_neq; lia).
    reflexivity.
  - intros Hsame. rewrite Hsame, Z.sub_diag. reflexivity.
  - intros [Hpos Hjump].
    replace (baseline_ c - Z.shiftr ts (shift_ c) >=? 0) with false
      by (symmetry;
          destruct (Z.geb_spec (baseline_ c - Z.shiftr ts (shift_ c)) 0);
          [lia | reflexivity]).
    replace (0 - (baseline_ c - Z.shiftr ts (shift_ c))
             >=? AKU_LIMITS_MAX_CACHES cfg) with true
      by (symmetry; apply Z.geb_le; lia).
    unfold mark_last. simpl.
    replace (AKU_LIMITS_MAX_CACHES cfg <=? 0) with false
      by (symmetry; apply Z.leb_gt; exact Hpos).
    rewrite andb_false_r. reflexivity.
Qed.

(** ** The shortcut for the current bucket *)

(** X27. An add whose target index is the cache baseline goes to the
    front bucket of the window without looking at its state counter or
    its baseline. When the shards of that bucket are well formed with
    empty buffers and do not bind the key, the add returns write-success,
    changes nothing but that bucket, and a search of the bucket for the
    key over ts .. ts+1 puts exactly the added offset. *)
Theorem Cache_add_entry_front_then_search :
  forall (cfg : Config) (e : Env) (c : Cache) (front : Bucket)
         (rest : list Bucket) (ts : TimeStamp) (p : ParamId)
         (off : EntryOffset) (n : Z),
    cache_ c = front :: rest ->
    Z.shiftr ts (shift_ c) = baseline_ c ->
    seq_ front <> [] ->
    Forall Sequence_wf (seq_ front) ->
    Forall (fun s => temp_ s = [] /\ map_find (ts, p) (data_ s) = None)
           (seq_ front) ->
    ParamId_ok p ->
    obj_free e = true ->
    exists front',
      Cache_add_entry_ cfg e c ts p off n
      = Ok (AKU_WRITE_STATUS_SUCCESS,
            with_lists c (front' :: rest) (free_list_ c), n)
      /\ state front' = state front
      /\ baseline front' = baseline front
      /\ snd (Bucket_search front' (point_query ts p)) = Returned
      /\ puts (fst (Bucket_search front' (point_query ts p))) = [off].
Proof.
  intros cfg e c front rest ts p off n Hc Hidx Hne Hwf Hfresh Hp Hobj.
  destruct (Bucket_add_point_search e front ts p off Hne Hwf Hfresh Hp Hobj)
    as [front' [Hadd [Hret Hputs]]].
  exists front'.
  pose proof (Bucket_add_ok_inv _ _ _ _ _ _ _ Hadd) as [_ [Hs [Hb _]]].
  split; [|repeat split; assumption].
  unfold Cache_add_entry_. rewrite Hidx, Z.sub_diag. simpl.
  unfold add_to_target. rewrite Hc. simpl. rewrite Hadd. reflexivity.
Qed.

Lemma Cache_add_entry_front_then_search_witness :
  exists front',
    Cache_add_entry_ sample_cfg (uncontended 1)
      (mkCache 1024 100 3 10
               [mkBucket [Sequence_ctor 100; Sequence_ctor 100] 2 9 0]
               []) 3077 1 55 0
    = Ok (AKU_WRITE_STATUS_SUCCESS,
          with_lists
            (mkCache 1024 100 3 10
                     [mkBucket [Sequence_ctor 100; Sequence_ctor 100] 2 9 0]
                     [])
            (front' :: [])
            (free_list_
               (mkCache 1024 100 3 10
                        [mkBucket [Sequence_ctor 100; Sequence_ctor 100]
                                  2 9 0] [])), 0)
    /\ state front'
       = state (mkBucket [Sequence_ctor 100; Sequence_ctor 100] 2 9 0)
    /\ baseline front'
       = baseline (mkBucket [Sequence_ctor 100; Sequence_ctor 100] 2 9 0)
    /\ snd (Bucket_search front' (point_query 3077 1)) = Returned
    /\ puts (fst (Bucket_search front' (point_query 3077 1))) = [55].
Proof.
  apply (Cache_add_entry_front_then_search sample_cfg (uncontended 1)
           (mkCache 1024 100 3 10
                    [mkBucket [Sequence_ctor 100; Sequence_ctor 100] 2 9 0]
                    [])
           (mkBucket [Sequence_ctor 100; Sequence_ctor 100] 2 9 0) []
           3077 1 55 0).
  - reflexivity.
  - reflexivity.
  - discriminate.
  - repeat (constructor; [apply Sequence_ctor_wf|]). constructor.
  - repeat (constructor; [split; reflexivity|]). constructor.
  - unfold ParamId_ok, ParamId_max. lia.
  - reflexivity.
Defined.

(** ** Completion *)


